(** * makeChaff: disk filling and three-pass shredding

    A shallow embedding of the Go program [chaff.go] (module [Chaff]) and of
    the shredder of its raw-syscall variant (module [LowLevel]), followed by
    the properties of the space accounting, of the fill loop and of the
    overwrite passes.

    The operating system is an oracle: every call the program makes (create,
    write, fsync, ...) takes its answer from an environment record, and every
    call is logged as an [event].  A function of the program returns its Go
    results together with the list of events it caused, in program order.
    Console output ([fmt.Printf], progress bars) is not modelled. *)

From Stdlib Require Import ZArith List String Ascii Bool Lia FinFun DecimalNat DecimalString.
Import ListNotations.
Open Scope Z_scope.

(* ================================================================= *)
(** ** Machine integers *)

(** [uint64] arithmetic wraps modulo 2^64. *)
Definition wrap64 (x : Z) : Z := x mod 2 ^ 64.

(** [int64] arithmetic wraps into [-2^63, 2^63). *)
Definition wrap_i64 (x : Z) : Z := (x + 2 ^ 63) mod 2 ^ 64 - 2 ^ 63.

Definition is_u64 (x : Z) : Prop := 0 <= x < 2 ^ 64.
Definition is_i64 (x : Z) : Prop := - 2 ^ 63 <= x < 2 ^ 63.

Definition MiB : Z := 1024 * 1024.

(** [const chunkSize = 1024 * 1024], the same in both functions and in every
    variant of the program. *)
Definition chunkSize : Z := 1024 * 1024.

(* ================================================================= *)
(** ** Errors, buffers and events *)

Inductive error : Type :=
| Errno (code : Z)                      (* an error reported by the OS *)
| ErrShortWrite                         (* io.ErrShortWrite *)
| ErrClosed                             (* the file is closed already (os.ErrClosed, EBADF) *)
| ShortWriteShredding (path : string).  (* fmt.Errorf("short write while shredding %s", path) *)

(** What a run of bytes holds: a constant byte, or the bytes of the [draw]-th
    successful read of the randomness source (byte [i] of the buffer holding
    byte [i] of that draw). *)
Inductive content : Type :=
| Pattern (b : Z)
| Random (draw : nat).

(** A byte buffer, run-length encoded: [(len, c)] is [len] bytes of [c]. *)
Definition segments : Type := list (Z * content).

Fixpoint drop_bytes (n : Z) (buf : segments) : segments :=
  match buf with
  | [] => []
  | (len, c) :: rest =>
      if n <=? 0 then buf
      else if len <=? n then drop_bytes (n - len) rest
      else (len - n, c) :: rest
  end.

Fixpoint take_bytes (n : Z) (buf : segments) : segments :=
  match buf with
  | [] => []
  | (len, c) :: rest =>
      if n <=? 0 then []
      else if len <=? n then (len, c) :: take_bytes (n - len) rest
      else [(n, c)]
  end.

(** Overwrite the first [n] bytes of [buf] with [c] (the loops
    [for i := 0; i < n; i++ { buf[i] = b }] and a successful
    [rand.Read(buf[:n])]). *)
Definition fill_prefix (n : Z) (c : content) (buf : segments) : segments :=
  if n <=? 0 then buf else (n, c) :: drop_bytes n buf.

(** [make([]byte, n)]: [n] zero bytes. *)
Definition make_bytes (n : Z) : segments :=
  if n <=? 0 then [] else [(n, Pattern 0)].

(** Overwrite the [n] bytes from offset [off] on with [c]. *)
Definition fill_range (off n : Z) (c : content) (buf : segments) : segments :=
  if n <=? 0 then buf
  else take_bytes off buf ++ (n, c) :: drop_bytes (off + n) buf.

Definition seg_length (buf : segments) : Z :=
  fold_right (fun s acc => fst s + acc) 0 buf.

Inductive event : Type :=
| EvCreate (path : string) (err : option error)
| EvOpen (path : string) (err : option error)
| EvStat (err : option error)
| EvSeek (err : option error)
| EvRand (len : Z) (err : option error)            (* rand.Read of len bytes *)
| EvRead (len : Z) (n : Z) (err : option error)    (* unix.Read on /dev/urandom *)
| EvWrite (data : segments) (n : Z) (err : option error)
| EvSync (err : option error)
| EvClose (path : string) (err : option error)
| EvRemove (path : string) (err : option error).

Definition trace : Type := list event.

(** Bytes the OS reports as written, over a whole trace. *)
Fixpoint bytes_committed (t : trace) : Z :=
  match t with
  | [] => 0
  | EvWrite _ n _ :: t' => Z.max 0 n + bytes_committed t'
  | _ :: t' => bytes_committed t'
  end.

Definition is_create (e : event) : bool :=
  match e with EvCreate _ _ => true | _ => false end.

Definition is_remove (e : event) : bool :=
  match e with EvRemove _ _ => true | _ => false end.

Definition is_err (e : option error) : bool :=
  match e with Some _ => true | None => false end.

(** Prefix a trace to the result of the rest of a computation. *)
Definition emit {A : Type} (evs : trace) (k : option (A * trace)) : option (A * trace) :=
  match k with
  | Some (a, t) => Some (a, evs ++ t)
  | None => None
  end.

(** Fuel that suffices for a loop over [n] bytes in chunks. *)
Definition chunkFuel (n : Z) : nat := S (Z.to_nat (n / chunkSize)).

(* ================================================================= *)
(** ** chaff.go *)

Module Chaff.

(** *** generateChaffFile *)

(** The answers of the OS to one call of [generateChaffFile]. *)
Record gen_env : Type := {
  g_create : option error;                  (* os.Create *)
  g_rand   : nat -> option error;           (* k-th rand.Read *)
  g_write  : nat -> Z -> Z * option error;  (* k-th file.Write of a buffer of the given length *)
  g_sync   : option error;                  (* file.Sync *)
  g_close  : option error                   (* deferred file.Close *)
}.

(** [(remainingSpace, bytesWritten, error)]. *)
Record gen_result : Type := {
  remainingSpace : Z;
  bytesWritten   : Z;
  gen_err        : option error
}.

Inductive loop_exit (R : Type) : Type :=
| Return (r : R)               (* a [return] inside the loop *)
| Fallthrough (written : Z).   (* the loop condition became false *)
Arguments Return {R} r.
Arguments Fallthrough {R} written.

(** [sizeBytes := uint64(sizeMB) * 1024 * 1024] *)
Definition sizeBytes_of (sizeMB : Z) : Z :=
  wrap64 (wrap64 (wrap64 sizeMB * 1024) * 1024).

(** Lines 41-46: the size the function sets out to write. *)
Definition effectiveSize (sizeMB availableSpace : Z) : Z :=
  let sizeBytes := sizeBytes_of sizeMB in
  if sizeBytes >? availableSpace then availableSpace else sizeBytes.

(** The loop [for bytesWritten < sizeBytes { ... }]; [k] counts the
    iterations.  [None] when the fuel does not suffice. *)
Fixpoint writeChunks (fuel : nat) (env : gen_env) (k : nat)
    (availableSpace sizeBytes bytesWritten : Z)
    : option (loop_exit gen_result * trace) :=
  if bytesWritten <? sizeBytes then
    match fuel with
    | O => None
    | S fuel' =>
        let remaining := wrap64 (sizeBytes - bytesWritten) in
        let currentChunk := if remaining <? chunkSize then remaining else chunkSize in
        let buffer := make_bytes currentChunk in
        match g_rand env k with
        | Some err =>
            Some (Return {| remainingSpace := wrap64 (availableSpace - bytesWritten);
                            bytesWritten := bytesWritten;
                            gen_err := Some err |},
                  [EvRand currentChunk (Some err)])
        | None =>
            let buffer := fill_prefix currentChunk (Random k) buffer in
            let '(written, werr) := g_write env k currentChunk in
            let evs := [EvRand currentChunk None; EvWrite buffer written werr] in
            match werr with
            | Some err =>
                Some (Return {| remainingSpace := wrap64 (availableSpace - bytesWritten);
                                bytesWritten := bytesWritten;
                                gen_err := Some err |},
                      evs)
            | None =>
                emit evs (writeChunks fuel' env (S k) availableSpace sizeBytes
                            (wrap64 (bytesWritten + wrap64 written)))
            end
        end
    end
  else Some (Fallthrough bytesWritten, []).

Definition generateChaffFile (fuel : nat) (env : gen_env)
    (filename : string) (sizeMB : Z) (availableSpace : Z)
    : option (gen_result * trace) :=
  let sizeBytes := effectiveSize sizeMB availableSpace in
  if sizeBytes =? 0 then
    Some ({| remainingSpace := availableSpace; bytesWritten := 0; gen_err := None |}, [])
  else
    match g_create env with
    | Some err =>
        Some ({| remainingSpace := availableSpace; bytesWritten := 0; gen_err := Some err |},
              [EvCreate filename (Some err)])
    | None =>
        emit [EvCreate filename None]
          match writeChunks fuel env 0 availableSpace sizeBytes 0 with
          | None => None
          | Some (Return r, t) => Some (r, t ++ [EvClose filename (g_close env)])
          | Some (Fallthrough bytesWritten, t) =>
              match g_sync env with
              | Some err =>
                  Some ({| remainingSpace := wrap64 (availableSpace - bytesWritten);
                           bytesWritten := bytesWritten;
                           gen_err := Some err |},
                        t ++ [EvSync (Some err); EvClose filename (g_close env)])
              | None =>
                  Some ({| remainingSpace := wrap64 (availableSpace - sizeBytes);
                           bytesWritten := bytesWritten;
                           gen_err := None |},
                        t ++ [EvSync None; EvClose filename (g_close env)])
              end
          end
    end.

(** An OS on which every call succeeds and every write is complete. *)
Definition gen_all_ok : gen_env :=
  {| g_create := None;
     g_rand := fun _ => None;
     g_write := fun _ len => (len, None);
     g_sync := None;
     g_close := None |}.

(** Every call succeeds and every write is complete. *)
Definition gen_succeeds (env : gen_env) : Prop :=
  g_create env = None /\
  (forall k, g_rand env k = None) /\
  (forall k len, g_write env k len = (len, None)) /\
  g_sync env = None.

(** What [os.File.Write] promises: an error whenever the count returned is
    not the length of the buffer. *)
Definition full_or_error (write : nat -> Z -> Z * option error) : Prop :=
  forall k len, snd (write k len) = None -> fst (write k len) = len.

(** *** shredFile *)

(** The answers of the OS to one call of [shredFile].  [s_size] is the size
    of the file at [path], which [f.Stat] reports when it succeeds. *)
Record shred_env : Type := {
  s_size   : Z;
  s_open   : option error;                         (* os.OpenFile *)
  s_stat   : option error;                         (* f.Stat *)
  s_seek   : nat -> option error;                  (* f.Seek of a pass *)
  s_rand   : nat -> option error;                  (* rand.Read for the k-th chunk of the random pass *)
  s_write  : nat -> nat -> Z -> Z * option error;  (* f.Write: pass, chunk, requested length *)
  s_sync   : nat -> option error;                  (* f.Sync of a pass *)
  s_close  : option error;                         (* first f.Close *)
  s_remove : option error                          (* os.Remove *)
}.

(** The [switch pass] of lines 140-156, on the shared buffer [buf]: the
    error of [rand.Read] if any, the buffer afterwards and the events. *)
Definition fillPass (env : shred_env) (pass k : nat) (toWrite : Z) (buf : segments)
    : option error * segments * trace :=
  match pass with
  | 0%nat => (None, fill_prefix toWrite (Pattern 255) buf, [])
  | 1%nat => (None, fill_prefix toWrite (Pattern 0) buf, [])
  | 2%nat =>
      match s_rand env k with
      | Some err => (Some err, buf, [EvRand toWrite (Some err)])
      | None => (None, fill_prefix toWrite (Random k) buf, [EvRand toWrite None])
      end
  | _ => (None, buf, [])
  end.

(** The loop [for remaining > 0 { ... }] of one pass; [k] counts the chunks.
    [inl err] is a [return err] from inside the loop, [inr buf] the normal
    exit with the buffer as the pass left it. *)
Fixpoint passChunks (fuel : nat) (env : shred_env) (path : string) (pass k : nat)
    (buf : segments) (remaining : Z) : option ((error + segments) * trace) :=
  if remaining >? 0 then
    match fuel with
    | O => None
    | S fuel' =>
        let toWrite := if remaining <? chunkSize then remaining else chunkSize in
        let '(rerr, buf', revs) := fillPass env pass k toWrite buf in
        match rerr with
        | Some err => Some (inl err, revs)
        | None =>
            let '(n, werr) := s_write env pass k toWrite in
            let evs := revs ++ [EvWrite (take_bytes toWrite buf') n werr] in
            match werr with
            | Some err => Some (inl err, evs)
            | None =>
                if negb (n =? toWrite) then Some (inl (ShortWriteShredding path), evs)
                else emit evs (passChunks fuel' env path pass (S k) buf'
                                 (wrap_i64 (remaining - toWrite)))
            end
        end
    end
  else Some (inr buf, []).

(** The loop [for _, pass := range passes { ... }]. *)
Fixpoint runPasses (fuel : nat) (env : shred_env) (path : string) (passes : list nat)
    (buf : segments) (size : Z) : option ((error + segments) * trace) :=
  match passes with
  | [] => Some (inr buf, [])
  | pass :: rest =>
      match s_seek env pass with
      | Some err => Some (inl err, [EvSeek (Some err)])
      | None =>
          emit [EvSeek None]
            match passChunks fuel env path pass 0 buf size with
            | None => None
            | Some (inl err, t) => Some (inl err, t)
            | Some (inr buf', t) =>
                match s_sync env pass with
                | Some err => Some (inl err, t ++ [EvSync (Some err)])
                | None => emit (t ++ [EvSync None]) (runPasses fuel env path rest buf' size)
                end
            end
      end
  end.

(** [passes := []int{0, 1, 2}] *)
Definition passes : list nat := [0%nat; 1%nat; 2%nat].

(** The returned [error] and the events.  The last [EvClose] of a path on
    which the file was opened is the deferred [f.Close()]; it finds the file
    closed already where the function closed it itself. *)
Definition shredFile (fuel : nat) (env : shred_env) (path : string)
    : option (option error * trace) :=
  match s_open env with
  | Some err =>
      Some (Some err, [EvOpen path (Some err); EvRemove path (s_remove env)])
  | None =>
      match s_stat env with
      | Some err =>
          Some (Some err,
                [EvOpen path None; EvStat (Some err); EvClose path (s_close env);
                 EvRemove path (s_remove env); EvClose path (Some ErrClosed)])
      | None =>
          let size := s_size env in
          if size =? 0 then
            Some (s_remove env,
                  [EvOpen path None; EvStat None; EvClose path (s_close env);
                   EvRemove path (s_remove env); EvClose path (Some ErrClosed)])
          else
            emit [EvOpen path None; EvStat None]
              match runPasses fuel env path passes (make_bytes chunkSize) size with
              | None => None
              | Some (inl err, t) => Some (Some err, t ++ [EvClose path (s_close env)])
              | Some (inr _, t) =>
                  match s_close env with
                  | Some err =>
                      Some (Some err,
                            t ++ [EvClose path (Some err); EvClose path (Some ErrClosed)])
                  | None =>
                      Some (s_remove env,
                            t ++ [EvClose path None; EvRemove path (s_remove env);
                                  EvClose path (Some ErrClosed)])
                  end
              end
      end
  end.

(** [shredFiles]: every file in turn, a failure does not stop the loop. *)
Fixpoint shredFiles (fuel : nat) (envs : string -> shred_env) (files : list string)
    : option (list (string * option error * trace)) :=
  match files with
  | [] => Some []
  | f :: rest =>
      match shredFile fuel (envs f) f with
      | None => None
      | Some (err, t) =>
          match shredFiles fuel envs rest with
          | None => None
          | Some rs => Some ((f, err, t) :: rs)
          end
      end
  end.

Definition shred_all_ok (size : Z) : shred_env :=
  {| s_size := size;
     s_open := None;
     s_stat := None;
     s_seek := fun _ => None;
     s_rand := fun _ => None;
     s_write := fun _ _ len => (len, None);
     s_sync := fun _ => None;
     s_close := None;
     s_remove := None |}.

(** *** File names *)

Open Scope string_scope.

Definition outputDir : string := "./chaff".

Definition filePrefix : string := "chaff_".

(** [fileSizeMB := int64(100)] *)
Definition fileSizeMB : Z := 100.

(** The low-space bound of the loop, [10*1024*1024]. *)
Definition lowSpace : Z := 10 * 1024 * 1024.

Fixpoint zeros (n : nat) : string :=
  match n with
  | O => ""
  | S n' => String "0" (zeros n')
  end.

(** The verb [%06d] on a non-negative [int]: decimal digits, padded with
    zeros on the left to at least six characters. *)
Definition fmt_06d (n : nat) : string :=
  let digits := NilZero.string_of_uint (Nat.to_uint n) in
  zeros (6 - String.length digits) ++ digits.

(** [filepath.Join(outputDir, name)]: the joined path is cleaned, which
    removes the leading [./] of [outputDir]. *)
Definition joinOutputDir (name : string) : string := "chaff/" ++ name.

(** [filepath.Join(outputDir, fmt.Sprintf("%s%06d.dat", filePrefix, fileCount))] *)
Definition regularName (fileCount : nat) : string :=
  joinOutputDir (filePrefix ++ fmt_06d fileCount ++ ".dat").

(** [filepath.Join(outputDir, fmt.Sprintf("%sFINAL.dat", filePrefix))] *)
Definition finalName : string :=
  joinOutputDir (filePrefix ++ "FINAL.dat").

Close Scope string_scope.

(** *** The fill loop of main *)

(** One call of [generateChaffFile] made by the loop, with what it returned
    and the events it caused. *)
Record attempt : Type := {
  a_name   : string;
  a_sizeMB : Z;
  a_avail  : Z;
  a_result : gen_result;
  a_trace  : trace
}.

(** The variables of the loop; [attempts] is a ghost log of the calls made
    so far. *)
Record fill_state : Type := {
  availableSpace : Z;
  fileCount      : nat;
  createdFiles   : list string;
  attempts       : list attempt
}.

Inductive step_result : Type :=
| LoopExit                        (* the condition [availableSpace > 0] is false *)
| LoopBreak (st : fill_state)     (* the final-file branch and its [break] *)
| LoopContinue (st : fill_state).

(** One turn of [for availableSpace > 0 { ... }].  The OS answers for the
    call made when the counter is [fileCount] are [envs fileCount]. *)
Definition fillStep (genfuel : nat) (envs : nat -> gen_env) (st : fill_state)
    : option step_result :=
  if availableSpace st >? 0 then
    let filename := regularName (fileCount st) in
    if availableSpace st <? lowSpace then
      let finalFilename := finalName in
      match generateChaffFile genfuel (envs (fileCount st)) finalFilename 1
              (availableSpace st) with
      | None => None
      | Some (r, t) =>
          let created :=
            match gen_err r with
            | Some _ => createdFiles st
            | None =>
                if bytesWritten r >? 0 then createdFiles st ++ [finalFilename]
                else createdFiles st
            end in
          Some (LoopBreak
                  {| availableSpace := remainingSpace r;
                     fileCount := fileCount st;
                     createdFiles := created;
                     attempts := attempts st ++
                       [{| a_name := finalFilename; a_sizeMB := 1;
                           a_avail := availableSpace st;
                           a_result := r; a_trace := t |}] |})
      end
    else
      match generateChaffFile genfuel (envs (fileCount st)) filename fileSizeMB
              (availableSpace st) with
      | None => None
      | Some (r, t) =>
          let log := attempts st ++
                       [{| a_name := filename; a_sizeMB := fileSizeMB;
                           a_avail := availableSpace st;
                           a_result := r; a_trace := t |}] in
          match gen_err r with
          | Some _ =>
              Some (LoopContinue
                      {| availableSpace := availableSpace st;
                         fileCount := S (fileCount st);
                         createdFiles := createdFiles st;
                         attempts := log |})
          | None =>
              Some (LoopContinue
                      {| availableSpace := remainingSpace r;
                         fileCount := S (fileCount st);
                         createdFiles :=
                           if bytesWritten r >? 0 then createdFiles st ++ [filename]
                           else createdFiles st;
                         attempts := log |})
          end
      end
  else Some LoopExit.

(** The loop, run to its end; [None] when [fuel] turns do not suffice or a
    call of [generateChaffFile] runs out of its own fuel. *)
Fixpoint fillLoop (fuel genfuel : nat) (envs : nat -> gen_env) (st : fill_state)
    : option fill_state :=
  match fuel with
  | O => None
  | S fuel' =>
      match fillStep genfuel envs st with
      | None => None
      | Some LoopExit => Some st
      | Some (LoopBreak st') => Some st'
      | Some (LoopContinue st') => fillLoop fuel' genfuel envs st'
      end
  end.

(** The loop variables as main sets them before the loop. *)
Definition initState (available : Z) : fill_state :=
  {| availableSpace := available; fileCount := 0;
     createdFiles := []; attempts := [] |}.

(** The states in which the loop begins a turn. *)
Inductive loop_head (genfuel : nat) (envs : nat -> gen_env) (st0 : fill_state)
    : fill_state -> Prop :=
| head_init : loop_head genfuel envs st0 st0
| head_continue st st' :
    loop_head genfuel envs st0 st ->
    fillStep genfuel envs st = Some (LoopContinue st') ->
    loop_head genfuel envs st0 st'.

(** Every state of the loop: at the head of a turn, or as the [break] of
    the final-file branch leaves it. *)
Inductive reachable (genfuel : nat) (envs : nat -> gen_env) (st0 : fill_state)
    : fill_state -> Prop :=
| reach_head st :
    loop_head genfuel envs st0 st ->
    reachable genfuel envs st0 st
| reach_break st st' :
    loop_head genfuel envs st0 st ->
    fillStep genfuel envs st = Some (LoopBreak st') ->
    reachable genfuel envs st0 st'.

(** *** main *)





End Chaff.

(* ================================================================= *)
(** ** The raw-syscall variant of the shredder *)

Module LowLevel.

Record shred_env : Type := {
  s_size   : Z;
  s_open   : option error;                         (* unix.Open of the file *)
  s_fstat  : option error;                         (* unix.Fstat *)
  u_open   : option error;                         (* unix.Open of /dev/urandom *)
  u_read   : nat -> Z -> Z * option error;         (* k-th unix.Read on it, requested length *)
  s_seek   : nat -> option error;                  (* unix.Seek of a pass *)
  s_write  : nat -> nat -> Z -> Z * option error;  (* unix.Write: pass, call, requested length *)
  s_fsync  : nat -> option error;                  (* unix.Fsync of a pass *)
  s_close  : option error;                         (* first unix.Close *)
  s_unlink : option error                          (* unix.Unlink *)
}.

Definition urandom : string := "/dev/urandom".

(** The loop [for total < len(buf) { ... }] of [readUrandom]; the bytes read
    are those of draw [draw]. *)
Fixpoint readLoop (fuel : nat) (env : shred_env) (draw k : nat) (len : Z)
    (buf : segments) (total : Z) : option ((option error * segments) * trace) :=
  if total <? len then
    match fuel with
    | O => None
    | S fuel' =>
        let '(n, rerr) := u_read env k (len - total) in
        match rerr with
        | Some err => Some ((Some err, buf), [EvRead (len - total) n (Some err)])
        | None =>
            emit [EvRead (len - total) n None]
              (readLoop fuel' env draw (S k) len
                 (fill_range total n (Random draw) buf) (wrap_i64 (total + n)))
        end
    end
  else Some ((None, buf), []).

(** [readUrandom(buf)] on a buffer of [len] bytes: its error and the buffer
    as it leaves it. *)
Definition readUrandom (fuel : nat) (env : shred_env) (draw : nat) (len : Z)
    (buf : segments) : option ((option error * segments) * trace) :=
  match u_open env with
  | Some err => Some ((Some err, buf), [EvOpen urandom (Some err)])
  | None =>
      emit [EvOpen urandom None]
        match readLoop fuel env draw 0 len buf 0 with
        | None => None
        | Some (r, t) => Some (r, t ++ [EvClose urandom None])
        end
  end.

(** The [switch pass] at the head of a pass: the whole buffer is filled
    once; the error of [readUrandom] is dropped ([_ = readUrandom(buf)]). *)
Definition fillPass (fuel : nat) (env : shred_env) (i : nat) (pass : string)
    (buf : segments) : option (segments * trace) :=
  if String.eqb pass "0xFF" then Some (fill_prefix chunkSize (Pattern 255) buf, [])
  else if String.eqb pass "0x00" then Some (fill_prefix chunkSize (Pattern 0) buf, [])
  else if String.eqb pass "random" then
    match readUrandom fuel env i chunkSize buf with
    | None => None
    | Some ((_, buf'), t) => Some (buf', t)
    end
  else Some (buf, []).

(** The loop [for remaining > 0 { ... }] of pass [i]: the error returned
    from inside it, if any. *)
Fixpoint passChunks (fuel : nat) (env : shred_env) (i k : nat) (buf : segments)
    (remaining : Z) : option (option error * trace) :=
  if remaining >? 0 then
    match fuel with
    | O => None
    | S fuel' =>
        let toWrite := if remaining <? chunkSize then remaining else chunkSize in
        let '(n, werr) := s_write env i k toWrite in
        let evs := [EvWrite (take_bytes toWrite buf) n werr] in
        match werr with
        | Some err => Some (Some err, evs)
        | None =>
            emit evs (passChunks fuel' env i (S k) buf (wrap_i64 (remaining - n)))
        end
    end
  else Some (None, []).

(** The loop [for i, pass := range passes { ... }]. *)
Fixpoint runPasses (fuel : nat) (env : shred_env) (i : nat) (passes : list string)
    (buf : segments) (size : Z) : option (option error * trace) :=
  match passes with
  | [] => Some (None, [])
  | pass :: rest =>
      match fillPass fuel env i pass buf with
      | None => None
      | Some (buf', tf) =>
          emit (tf ++ [EvSeek (s_seek env i)])
            match passChunks fuel env i 0 buf' size with
            | None => None
            | Some (Some err, t) => Some (Some err, t)
            | Some (None, t) =>
                emit (t ++ [EvSync (s_fsync env i)])
                  (runPasses fuel env (S i) rest buf' size)
            end
      end
  end.

(** [passes := []string{"0xFF", "0x00", "random"}] *)
Definition passes : list string := ["0xFF"; "0x00"; "random"]%string.

(** The last [EvClose] of a path on which the file was opened is the
    deferred [unix.Close(fd)]. *)
Definition shredFile (fuel : nat) (env : shred_env) (path : string)
    : option (option error * trace) :=
  match s_open env with
  | Some err =>
      Some (Some err, [EvOpen path (Some err); EvRemove path (s_unlink env)])
  | None =>
      match s_fstat env with
      | Some err =>
          Some (Some err,
                [EvOpen path None; EvStat (Some err); EvRemove path (s_unlink env);
                 EvClose path (s_close env)])
      | None =>
          if s_size env =? 0 then
            Some (None,
                  [EvOpen path None; EvStat None; EvRemove path (s_unlink env);
                   EvClose path (s_close env)])
          else
            let size := wrap_i64 (s_size env) in
            emit [EvOpen path None; EvStat None]
              match runPasses fuel env 0 passes (make_bytes chunkSize) size with
              | None => None
              | Some (Some err, t) => Some (Some err, t ++ [EvClose path (s_close env)])
              | Some (None, t) =>
                  Some (None,
                        t ++ [EvClose path (s_close env); EvRemove path (s_unlink env);
                              EvClose path (Some ErrClosed)])
              end
      end
  end.

Definition shred_all_ok (size : Z) : shred_env :=
  {| s_size := size;
     s_open := None;
     s_fstat := None;
     u_open := None;
     u_read := fun _ len => (len, None);
     s_seek := fun _ => None;
     s_write := fun _ _ len => (len, None);
     s_fsync := fun _ => None;
     s_close := None;
     s_unlink := None |}.

End LowLevel.

(* ================================================================= *)
(** ** generateChaffFile of the raw-syscall variant *)

Module LowLevelGen.

(** The answers of the OS to one call of [generateChaffFile]. *)
Record gen_env : Type := {
  g_open  : option error;                         (* unix.Open of the file *)
  g_uopen : nat -> option error;                  (* unix.Open of /dev/urandom in the k-th readUrandom *)
  g_uread : nat -> nat -> Z -> Z * option error;  (* its j-th unix.Read, requested length *)
  g_write : nat -> Z -> Z * option error;         (* k-th unix.Write, requested length *)
  g_fsync : option error;                         (* unix.Fsync *)
  g_close : option error                          (* deferred unix.Close *)
}.

(** The answers [readUrandom] takes in the [k]-th turn of the loop; it asks
    for no other. *)
Definition urandomEnv (env : gen_env) (k : nat) : LowLevel.shred_env :=
  {| LowLevel.s_size := 0;
     LowLevel.s_open := None;
     LowLevel.s_fstat := None;
     LowLevel.u_open := g_uopen env k;
     LowLevel.u_read := g_uread env k;
     LowLevel.s_seek := fun _ => None;
     LowLevel.s_write := fun _ _ len => (len, None);
     LowLevel.s_fsync := fun _ => None;
     LowLevel.s_close := None;
     LowLevel.s_unlink := None |}.

(** The loop [for written < sizeBytes { ... }] on the one buffer [buf] of
    [chunkSize] bytes; [k] counts the turns. *)
Fixpoint writeChunks (fuel : nat) (env : gen_env) (k : nat) (buf : segments)
    (available sizeBytes written : Z)
    : option (Chaff.loop_exit Chaff.gen_result * trace) :=
  if written <? sizeBytes then
    match fuel with
    | O => None
    | S fuel' =>
        let remain := wrap64 (sizeBytes - written) in
        let n := if remain <? chunkSize then remain else chunkSize in
        match LowLevel.readUrandom fuel (urandomEnv env k) k n buf with
        | None => None
        | Some ((Some err, _), tr) =>
            Some (Chaff.Return
                    {| Chaff.remainingSpace := wrap64 (available - written);
                       Chaff.bytesWritten := written;
                       Chaff.gen_err := Some err |},
                  tr)
        | Some ((None, buf'), tr) =>
            let '(w, werr) := g_write env k n in
            let evs := tr ++ [EvWrite (take_bytes n buf') w werr] in
            match werr with
            | Some err =>
                Some (Chaff.Return
                        {| Chaff.remainingSpace := wrap64 (available - written);
                           Chaff.bytesWritten := written;
                           Chaff.gen_err := Some err |},
                      evs)
            | None =>
                emit evs (writeChunks fuel' env (S k) buf' available sizeBytes
                            (wrap64 (written + wrap64 w)))
            end
        end
    end
  else Some (Chaff.Fallthrough written, []).

(** The size is computed and capped as in chaff.go; the result of
    [unix.Fsync] is not looked at. *)
Definition generateChaffFile (fuel : nat) (env : gen_env)
    (filename : string) (sizeMB : Z) (available : Z)
    : option (Chaff.gen_result * trace) :=
  let sizeBytes := Chaff.effectiveSize sizeMB available in
  if sizeBytes =? 0 then
    Some ({| Chaff.remainingSpace := available; Chaff.bytesWritten := 0;
             Chaff.gen_err := None |}, [])
  else
    match g_open env with
    | Some err =>
        Some ({| Chaff.remainingSpace := available; Chaff.bytesWritten := 0;
                 Chaff.gen_err := Some err |},
              [EvCreate filename (Some err)])
    | None =>
        emit [EvCreate filename None]
          match writeChunks fuel env 0 (make_bytes chunkSize) available sizeBytes 0 with
          | None => None
          | Some (Chaff.Return r, t) => Some (r, t ++ [EvClose filename (g_close env)])
          | Some (Chaff.Fallthrough written, t) =>
              Some ({| Chaff.remainingSpace := wrap64 (available - sizeBytes);
                       Chaff.bytesWritten := written;
                       Chaff.gen_err := None |},
                    t ++ [EvSync (g_fsync env); EvClose filename (g_close env)])
          end
    end.

Definition gen_all_ok : gen_env :=
  {| g_open := None;
     g_uopen := fun _ => None;
     g_uread := fun _ _ len => (len, None);
     g_write := fun _ len => (len, None);
     g_fsync := None;
     g_close := None |}.

End LowLevelGen.

(* ================================================================= *)
(** ** formatBytes *)

Module Format.

(** The loop [for n := bytes / unit; n >= unit; n /= unit { div *= unit; exp++ }]
    from the values [n], [div], [exp] on: the final [div] and [exp]. *)
Fixpoint scaleLoop (fuel : nat) (n div exp : Z) : option (Z * Z) :=
  if n >=? 1024 then
    match fuel with
    | O => None
    | S fuel' => scaleLoop fuel' (n / 1024) (wrap64 (div * 1024)) (wrap_i64 (exp + 1))
    end
  else Some (div, exp).

(** What [formatBytes] hands to [fmt.Sprintf]; the rendering of the
    quotient with one decimal is floating point and is not modelled. *)
Inductive formatted : Type :=
| Plain (s : string)                       (* Sprintf("%d B", bytes) *)
| Scaled (bytes div : Z) (letter : ascii)  (* Sprintf("%.1f %cB", float64(bytes)/float64(div), letter) *)
| IndexPanic.                              (* "KMGTPE"[exp] out of range *)

Definition formatBytes (fuel : nat) (bytes : Z) : option formatted :=
  if bytes <? 1024 then
    Some (Plain (NilZero.string_of_uint (N.to_uint (Z.to_N bytes)) ++ " B"))
  else
    match scaleLoop fuel (bytes / 1024) 1024 0 with
    | None => None
    | Some (div, exp) =>
        match String.get (Z.to_nat exp) "KMGTPE" with
        | Some letter => Some (Scaled bytes div letter)
        | None => Some IndexPanic
        end
    end.

End Format.

(* ================================================================= *)
(** ** Vocabulary of the properties *)

(** The events before the first removal of a file. *)
Fixpoint before_remove (t : trace) : trace :=
  match t with
  | [] => []
  | e :: t' => if is_remove e then [] else e :: before_remove t'
  end.

(** The flushes that completed. *)
Fixpoint syncs_done (t : trace) : nat :=
  match t with
  | [] => 0%nat
  | EvSync None :: t' => S (syncs_done t')
  | _ :: t' => syncs_done t'
  end.

(** The content an overwrite pass is to put in its [k]-th chunk: 0xFF in the
    first pass, 0x00 in the second, a draw of its own in the third. *)
Definition passContent (pass k : nat) : content :=
  match pass with
  | 0%nat => Pattern 255
  | 1%nat => Pattern 0
  | _ => Random k
  end.

(** The read of the randomness source that comes before a chunk of the third
    pass. *)
Definition passDraw (pass : nat) (len : Z) : trace :=
  match pass with
  | 2%nat => [EvRand len None]
  | _ => []
  end.

(** [pass_trace pass k n t]: [t] is a full-length pass over [n] bytes from
    chunk [k] on, in chunks of [chunkSize] and a shorter last one, every
    write complete and free of error. *)
Inductive pass_trace (pass : nat) : nat -> Z -> trace -> Prop :=
| pass_done k : pass_trace pass k 0 []
| pass_chunk k n t :
    0 < n ->
    pass_trace pass (S k) (n - Z.min n chunkSize) t ->
    pass_trace pass k n
      (passDraw pass (Z.min n chunkSize) ++
       EvWrite [(Z.min n chunkSize, passContent pass k)] (Z.min n chunkSize) None :: t).

(** The three passes over [n] bytes, each begun by a seek to offset 0 and
    ended by a completed flush. *)
Definition three_passes (n : Z) (t : trace) : Prop :=
  exists t0 t1 t2,
    pass_trace 0 0 n t0 /\ pass_trace 1 0 n t1 /\ pass_trace 2 0 n t2 /\
    t = (EvSeek None :: t0 ++ [EvSync None]) ++
        (EvSeek None :: t1 ++ [EvSync None]) ++
        (EvSeek None :: t2 ++ [EvSync None]).

(** Every write in [t] sends one draw of the randomness source, made just
    before it for exactly its length and used for no other write: [k] is
    the number of the next draw, [drawn] the length of a draw not yet
    written. *)
Fixpoint fresh_writes (k : nat) (drawn : option Z) (t : trace) : bool :=
  match t with
  | [] => true
  | EvRand len None :: t' => fresh_writes k (Some len) t'
  | EvWrite data _ _ :: t' =>
      match drawn, data with
      | Some len, [(len', Random k')] =>
          (len =? len') && Nat.eqb k' k && fresh_writes (S k) None t'
      | _, _ => false
      end
  | _ :: t' => fresh_writes k None t'
  end.

(** The calls of [generateChaffFile] after which the loop appends the file
    name to [createdFiles]. *)
Definition appended (a : Chaff.attempt) : bool :=
  negb (is_err (Chaff.gen_err (Chaff.a_result a))) &&
  (Chaff.bytesWritten (Chaff.a_result a) >? 0).

(** The precondition of C10: every call the loop can make returns, and
    returns no error. *)
Definition calls_return_without_error (genfuel : nat) (envs : nat -> Chaff.gen_env)
    : Prop :=
  forall k name sizeMB available,
    is_u64 available ->
    sizeMB = 1 \/ sizeMB = Chaff.fileSizeMB ->
    exists r t,
      Chaff.generateChaffFile genfuel (envs k) name sizeMB available = Some (r, t) /\
      Chaff.gen_err r = None.

(** The last call the loop made was for the sentinel name. *)
Definition ends_with_final (st : Chaff.fill_state) : Prop :=
  exists log a,
    Chaff.attempts st = log ++ [a] /\ Chaff.a_name a = Chaff.finalName /\
    Chaff.a_sizeMB a = 1.

(** Reading back the digits [fmt_06d] prints. *)
Definition read_digits (s : string) : option nat :=
  option_map Nat.of_uint (NilEmpty.uint_of_string s).

(** C4 as the specification words it, for the loop started with
    [available] bytes at or below the bound: one call, for the sentinel
    name, whose file takes all the space that was left. *)
Definition final_file_consumes_rest (genfuel : nat) (envs : nat -> Chaff.gen_env)
    (available : Z) : Prop :=
  exists fuel st a,
    Chaff.fillLoop fuel genfuel envs (Chaff.initState available) = Some st /\
    Chaff.attempts st = [a] /\ Chaff.a_name a = Chaff.finalName /\
    Chaff.bytesWritten (Chaff.a_result a) = available.

(** C1 as the specification words it: a file of [n] bytes is not removed
    before three flushed passes wrote [3 * n] bytes. *)
Definition removal_only_after_passes (n : Z) (t : trace) : Prop :=
  existsb is_remove t = true ->
  syncs_done (before_remove t) = 3%nat /\ bytes_committed (before_remove t) = 3 * n.

(** Bytes the program asked the OS to write, over a whole trace. *)
Fixpoint bytes_requested (t : trace) : Z :=
  match t with
  | [] => 0
  | EvWrite data _ _ :: t' => seg_length data + bytes_requested t'
  | _ :: t' => bytes_requested t'
  end.

(** Every write of the trace asks for at least one byte and at most one
    chunk. *)
Definition chunked (t : trace) : Prop :=
  forall data n err, In (EvWrite data n err) t -> 1 <= seg_length data <= chunkSize.

(** The trace holds only reads of the randomness source and writes. *)
Definition only_data (t : trace) : bool :=
  forallb (fun e => match e with
                    | EvRand _ _ | EvWrite _ _ _ => true
                    | _ => false
                    end) t.

(** The error [shredFile] returns for a write that gave [werr] and a count
    other than the one asked for. *)
Definition write_failure (path : string) (werr : option error) : error :=
  match werr with
  | Some e => e
  | None => ShortWriteShredding path
  end.

(** The trace holds only what [readUrandom] does: the open of the source,
    reads, and the close. *)
Definition only_reads (t : trace) : bool :=
  forallb (fun e => match e with
                    | EvOpen _ _ | EvRead _ _ _ | EvClose _ _ => true
                    | _ => false
                    end) t.

(** The trace holds no event of an overwrite pass. *)
Definition no_pass_events (t : trace) : bool :=
  forallb (fun e => match e with
                    | EvOpen _ _ | EvStat _ | EvClose _ _ | EvRemove _ _ => true
                    | _ => false
                    end) t.

(** The trace holds only closes and removals. *)
Definition only_close_remove (t : trace) : bool :=
  forallb (fun e => match e with
                    | EvClose _ _ | EvRemove _ _ => true
                    | _ => false
                    end) t.

(** The trace holds no write. *)
Definition no_writes (t : trace) : bool :=
  forallb (fun e => match e with EvWrite _ _ _ => false | _ => true end) t.

(** The calls whose count the fill loop takes off the tracked space: those
    that returned no error, and the call for the final file. *)
Definition charged (a : Chaff.attempt) : bool :=
  negb (is_err (Chaff.gen_err (Chaff.a_result a))) ||
  String.eqb (Chaff.a_name a) Chaff.finalName.

Definition charged_bytes (log : list Chaff.attempt) : Z :=
  fold_right (fun a acc =>
                (if charged a then Chaff.bytesWritten (Chaff.a_result a) else 0) + acc)
    0 log.

(** A run of segments that are all bytes of draw [draw]. *)
Definition all_random (draw : nat) (buf : segments) : Prop :=
  Forall (fun s => 0 < fst s /\ snd s = Random draw) buf.

(** What [write(2)] and [read(2)] give: without error a count between 0 and
    the length asked for (a positive one), with an error the count -1. *)
Definition posix_count (call : nat -> Z -> Z * option error) : Prop :=
  forall k len,
    0 < len ->
    match call k len with
    | (n, None) => 0 <= n <= len
    | (n, Some _) => n = -1
    end.

(** A call that moves at least one byte whenever it reports no error. *)
Definition makes_progress (call : nat -> Z -> Z * option error) : Prop :=
  forall k len,
    0 < len ->
    match call k len with
    | (n, None) => 1 <= n
    | (_, Some _) => True
    end.

(* ================================================================= *)
(** ** Environments of the examples *)

(** A disk that fills up during the second chunk: the second write of the
    call stores 512 bytes and fails with ENOSPC. *)
Definition gen_short_second_write : Chaff.gen_env :=
  {| Chaff.g_create := None;
     Chaff.g_rand := fun _ => None;
     Chaff.g_write := fun k len => if Nat.eqb k 1 then (512, Some (Errno 28)) else (len, None);
     Chaff.g_sync := None;
     Chaff.g_close := None |}.

(** A file of 3 MiB that cannot be opened for writing. *)
Definition shred_open_denied : Chaff.shred_env :=
  {| Chaff.s_size := 3 * MiB;
     Chaff.s_open := Some (Errno 13);
     Chaff.s_stat := None;
     Chaff.s_seek := fun _ => None;
     Chaff.s_rand := fun _ => None;
     Chaff.s_write := fun _ _ len => (len, None);
     Chaff.s_sync := fun _ => None;
     Chaff.s_close := None;
     Chaff.s_remove := None |}.

(** A file of 2 bytes; the first write of the first pass stores one byte
    and reports no error. *)
Definition lowlevel_short_first_write : LowLevel.shred_env :=
  {| LowLevel.s_size := 2;
     LowLevel.s_open := None;
     LowLevel.s_fstat := None;
     LowLevel.u_open := None;
     LowLevel.u_read := fun _ len => (len, None);
     LowLevel.s_seek := fun _ => None;
     LowLevel.s_write := fun pass k len =>
       if Nat.eqb pass 0 && Nat.eqb k 0 then (1, None) else (len, None);
     LowLevel.s_fsync := fun _ => None;
     LowLevel.s_close := None;
     LowLevel.s_unlink := None |}.

(** The same answers of the OS for chaff.go. *)
Definition chaff_short_first_write : Chaff.shred_env :=
  {| Chaff.s_size := 2;
     Chaff.s_open := None;
     Chaff.s_stat := None;
     Chaff.s_seek := fun _ => None;
     Chaff.s_rand := fun _ => None;
     Chaff.s_write := fun pass k len =>
       if Nat.eqb pass 0 && Nat.eqb k 0 then (1, None) else (len, None);
     Chaff.s_sync := fun _ => None;
     Chaff.s_close := None;
     Chaff.s_remove := None |}.

(** A file of 4096 bytes on an OS where /dev/urandom cannot be opened. *)
Definition lowlevel_no_urandom : LowLevel.shred_env :=
  {| LowLevel.s_size := 4096;
     LowLevel.s_open := None;
     LowLevel.s_fstat := None;
     LowLevel.u_open := Some (Errno 24);
     LowLevel.u_read := fun _ len => (len, None);
     LowLevel.s_seek := fun _ => None;
     LowLevel.s_write := fun _ _ len => (len, None);
     LowLevel.s_fsync := fun _ => None;
     LowLevel.s_close := None;
     LowLevel.s_unlink := None |}.

(** An OS whose reads of /dev/urandom give at most 4096 bytes at a time. *)
Definition lowlevel_split_reads : LowLevel.shred_env :=
  {| LowLevel.s_size := 0;
     LowLevel.s_open := None;
     LowLevel.s_fstat := None;
     LowLevel.u_open := None;
     LowLevel.u_read := fun _ len => (if 4096 <? len then 4096 else len, None);
     LowLevel.s_seek := fun _ => None;
     LowLevel.s_write := fun _ _ len => (len, None);
     LowLevel.s_fsync := fun _ => None;
     LowLevel.s_close := None;
     LowLevel.s_unlink := None |}.

(** The raw-syscall generator on an OS whose first write stores one byte
    and reports no error. *)
Definition lowlevel_gen_short_write : LowLevelGen.gen_env :=
  {| LowLevelGen.g_open := None;
     LowLevelGen.g_uopen := fun _ => None;
     LowLevelGen.g_uread := fun _ _ len => (len, None);
     LowLevelGen.g_write := fun k len =>
       if Nat.eqb k 0 then (Z.min 1 len, None) else (len, None);
     LowLevelGen.g_fsync := None;
     LowLevelGen.g_close := None |}.

(** A file of 2 MiB whose flush fails after the first pass. *)
Definition shred_sync_fails : Chaff.shred_env :=
  {| Chaff.s_size := 2 * MiB;
     Chaff.s_open := None;
     Chaff.s_stat := None;
     Chaff.s_seek := fun _ => None;
     Chaff.s_rand := fun _ => None;
     Chaff.s_write := fun _ _ len => (len, None);
     Chaff.s_sync := fun _ => Some (Errno 5);
     Chaff.s_close := None;
     Chaff.s_remove := None |}.


(* ================================================================= *)
(** ** Arithmetic and buffer facts *)

(** [H : In e t] for an event [e] that the explicit list [t] does not hold. *)
Ltac absent_event H :=
  cbn in H; repeat (destruct H as [H|H]; [discriminate|]); destruct H.

Lemma wrap64_small (x : Z) : is_u64 x -> wrap64 x = x.
Proof. unfold is_u64, wrap64. intros H. apply Z.mod_small. exact H. Qed.

Lemma wrap_i64_small (x : Z) : is_i64 x -> wrap_i64 x = x.
Proof.
  unfold is_i64, wrap_i64. intros H.
  rewrite Z.mod_small by lia. lia.
Qed.

Lemma chunkSize_value : chunkSize = 1048576.
Proof. reflexivity. Qed.

Lemma take_bytes_zero (buf : segments) : take_bytes 0 buf = [].
Proof. destruct buf as [|[len c] rest]; reflexivity. Qed.

(** The slice [buf[:n]] right after its [n] bytes were filled with [c]. *)
Lemma take_fill_prefix (n : Z) (c : content) (buf : segments) :
  0 < n -> take_bytes n (fill_prefix n c buf) = [(n, c)].
Proof.
  intros Hn. unfold fill_prefix.
  destruct (n <=? 0) eqn:E; [apply Z.leb_le in E; lia|].
  cbn [take_bytes]. rewrite E, Z.leb_refl, Z.sub_diag, take_bytes_zero.
  reflexivity.
Qed.

Lemma fill_make_bytes (n : Z) (c : content) :
  0 < n -> fill_prefix n c (make_bytes n) = [(n, c)].
Proof.
  intros Hn. unfold fill_prefix, make_bytes.
  destruct (n <=? 0) eqn:E; [apply Z.leb_le in E; lia|].
  cbn [drop_bytes]. rewrite E, Z.leb_refl. reflexivity.
Qed.

Lemma bytes_committed_app (t1 t2 : trace) :
  bytes_committed (t1 ++ t2) = bytes_committed t1 + bytes_committed t2.
Proof.
  induction t1 as [|e t1 IH]; [reflexivity|].
  destruct e; cbn [app bytes_committed]; rewrite IH; lia.
Qed.

Lemma emit_some {A : Type} (evs : trace) (k : option (A * trace)) (a : A) (t : trace) :
  emit evs k = Some (a, t) -> exists t', k = Some (a, t') /\ t = evs ++ t'.
Proof.
  destruct k as [[a' t']|]; cbn; [|discriminate].
  intros H. injection H as <- <-. eauto.
Qed.

Lemma chunkFuel_step (n : Z) (fuel : nat) :
  chunkSize <= n -> (chunkFuel n <= S fuel)%nat -> (chunkFuel (n - chunkSize) <= fuel)%nat.
Proof.
  unfold chunkFuel. intros Hn Hf.
  replace (n - chunkSize) with (n + (-1) * chunkSize) by lia.
  rewrite Z.div_add by (rewrite chunkSize_value; lia).
  assert (1 <= n / chunkSize).
  { apply Z.div_le_lower_bound; rewrite chunkSize_value in *; lia. }
  lia.
Qed.

(* ================================================================= *)
(** ** generateChaffFile *)

Section Generate.

Import Chaff.

Lemma gen_succeeds_full_or_error (env : gen_env) :
  gen_succeeds env -> full_or_error (g_write env).
Proof. intros (_ & _ & Hw & _) k len _. rewrite Hw. reflexivity. Qed.

Lemma effectiveSize_min (sizeMB availableSpace : Z) :
  effectiveSize sizeMB availableSpace = Z.min (sizeBytes_of sizeMB) availableSpace.
Proof.
  unfold effectiveSize. cbv zeta.
  destruct (sizeBytes_of sizeMB >? availableSpace) eqn:E.
  - apply Z.gtb_lt in E. lia.
  - rewrite Z.gtb_ltb in E. apply Z.ltb_ge in E. lia.
Qed.

Lemma sizeBytes_of_range (sizeMB : Z) : is_u64 (sizeBytes_of sizeMB).
Proof. unfold sizeBytes_of, wrap64, is_u64. apply Z.mod_pos_bound. lia. Qed.

Lemma sizeBytes_of_small (sizeMB : Z) :
  0 <= sizeMB < 2 ^ 44 -> sizeBytes_of sizeMB = sizeMB * MiB.
Proof.
  intros H. unfold sizeBytes_of, MiB.
  rewrite (wrap64_small sizeMB) by (unfold is_u64; lia).
  rewrite (wrap64_small (sizeMB * 1024)) by (unfold is_u64; lia).
  rewrite wrap64_small by (unfold is_u64; lia). lia.
Qed.

Lemma effectiveSize_range (sizeMB availableSpace : Z) :
  is_u64 availableSpace ->
  0 <= effectiveSize sizeMB availableSpace <= availableSpace.
Proof.
  intros HA. rewrite effectiveSize_min.
  pose proof (sizeBytes_of_range sizeMB). unfold is_u64 in *. lia.
Qed.

(** The size of the chunk the loop writes next. *)
Lemma currentChunk_eq (sizeBytes bytesWritten : Z) :
  0 <= bytesWritten < sizeBytes -> sizeBytes < 2 ^ 64 ->
  (if wrap64 (sizeBytes - bytesWritten) <? chunkSize
   then wrap64 (sizeBytes - bytesWritten) else chunkSize)
  = Z.min (sizeBytes - bytesWritten) chunkSize.
Proof.
  intros H1 H2. rewrite wrap64_small by (unfold is_u64; lia).
  destruct (sizeBytes - bytesWritten <? chunkSize) eqn:E.
  - apply Z.ltb_lt in E. lia.
  - apply Z.ltb_ge in E. lia.
Qed.

(** The accounting of the loop: an early return reports a count that, taken
    from the space available, gives the space it returns; the normal exit is
    reached with exactly [sizeBytes] written. *)
Lemma writeChunks_accounting (env : gen_env) :
  full_or_error (g_write env) ->
  forall fuel k availableSpace sizeBytes bytesWritten ex t,
    0 <= bytesWritten <= sizeBytes -> sizeBytes <= availableSpace < 2 ^ 64 ->
    writeChunks fuel env k availableSpace sizeBytes bytesWritten = Some (ex, t) ->
    match ex with
    | Return r =>
        remainingSpace r = availableSpace - Chaff.bytesWritten r /\
        0 <= Chaff.bytesWritten r <= sizeBytes /\ gen_err r <> None
    | Fallthrough w => w = sizeBytes
    end.
Proof.
  intros Hw fuel. induction fuel as [|fuel IH]; intros k A size bw ex t Hbw HA.
  - cbn [writeChunks]. destruct (bw <? size) eqn:E; [discriminate|].
    apply Z.ltb_ge in E. intros H. injection H as <- <-. lia.
  - cbn [writeChunks]. destruct (bw <? size) eqn:E.
    2:{ apply Z.ltb_ge in E. intros H. injection H as <- <-. lia. }
    apply Z.ltb_lt in E. cbv zeta.
    rewrite currentChunk_eq by lia.
    destruct (g_rand env k) as [err|].
    { intros H. injection H as <- <-. cbn.
      rewrite wrap64_small by (unfold is_u64; lia). repeat split; try lia. discriminate. }
    pose proof (Hw k (Z.min (size - bw) chunkSize)) as Hk.
    destruct (g_write env k (Z.min (size - bw) chunkSize)) as [written werr].
    cbn [fst snd] in Hk. destruct werr as [err|].
    { intros H. injection H as <- <-. cbn.
      rewrite wrap64_small by (unfold is_u64; lia). repeat split; try lia. discriminate. }
    specialize (Hk eq_refl). subst written.
    intros H. apply emit_some in H. destruct H as (t' & H & _).
    pose proof chunkSize_value as Hc.
    rewrite (wrap64_small (Z.min _ _)) in H by (unfold is_u64; lia).
    rewrite wrap64_small in H by (unfold is_u64; lia).
    eapply IH in H; [exact H| lia | lia].
Qed.

(** With complete writes the loop comes to its end on [chunkFuel] turns. *)
Lemma writeChunks_returns (env : gen_env) :
  full_or_error (g_write env) ->
  forall fuel k availableSpace sizeBytes bytesWritten,
    0 <= bytesWritten <= sizeBytes -> sizeBytes < 2 ^ 64 ->
    (bytesWritten < sizeBytes -> (chunkFuel (sizeBytes - bytesWritten) <= fuel)%nat) ->
    exists r, writeChunks fuel env k availableSpace sizeBytes bytesWritten = Some r.
Proof.
  intros Hw fuel. induction fuel as [|fuel IH]; intros k A size bw Hbw Hs Hf.
  - cbn [writeChunks]. destruct (bw <? size) eqn:E; [|eauto].
    apply Z.ltb_lt in E. specialize (Hf E). unfold chunkFuel in Hf. lia.
  - cbn [writeChunks]. destruct (bw <? size) eqn:E; [|eauto].
    apply Z.ltb_lt in E. specialize (Hf E). cbv zeta. rewrite currentChunk_eq by lia.
    destruct (g_rand env k) as [err|]; [eauto|].
    pose proof (Hw k (Z.min (size - bw) chunkSize)) as Hk.
    destruct (g_write env k (Z.min (size - bw) chunkSize)) as [written werr].
    cbn [fst snd] in Hk. destruct werr as [err|]; [eauto|].
    specialize (Hk eq_refl). subst written.
    pose proof chunkSize_value as Hc.
    rewrite (wrap64_small (Z.min _ _)) by (unfold is_u64; lia).
    rewrite wrap64_small by (unfold is_u64; lia).
    destruct (IH (S k) A size (bw + Z.min (size - bw) chunkSize)) as [[ex t] Hr];
      [lia | lia | | rewrite Hr; cbn; eauto].
    intros Hlt'.
    destruct (Z.le_gt_cases chunkSize (size - bw)) as [Hge|Hlt]; [|lia].
    rewrite Z.min_r by lia.
    replace (size - (bw + chunkSize)) with (size - bw - chunkSize) by lia.
    apply chunkFuel_step; assumption.
Qed.

(** On an OS that never fails the loop writes what is left, no more. *)
Lemma writeChunks_succeeds (env : gen_env) :
  gen_succeeds env ->
  forall fuel k availableSpace sizeBytes bytesWritten,
    0 <= bytesWritten <= sizeBytes -> sizeBytes < 2 ^ 64 ->
    (bytesWritten < sizeBytes -> (chunkFuel (sizeBytes - bytesWritten) <= fuel)%nat) ->
    exists t,
      writeChunks fuel env k availableSpace sizeBytes bytesWritten
        = Some (Fallthrough sizeBytes, t) /\
      bytes_committed t = sizeBytes - bytesWritten /\
      forallb (fun e => negb (is_create e || is_remove e)) t = true.
Proof.
  intros (_ & Hr & Hw & _) fuel.
  induction fuel as [|fuel IH]; intros k A size bw Hbw Hs Hf.
  - cbn [writeChunks]. destruct (bw <? size) eqn:E.
    + apply Z.ltb_lt in E. specialize (Hf E). unfold chunkFuel in Hf. lia.
    + apply Z.ltb_ge in E. exists []. replace bw with size by lia.
      repeat split. cbn. lia.
  - cbn [writeChunks]. destruct (bw <? size) eqn:E.
    2:{ apply Z.ltb_ge in E. exists []. replace bw with size by lia.
        repeat split. cbn. lia. }
    apply Z.ltb_lt in E. specialize (Hf E). cbv zeta.
    rewrite currentChunk_eq by lia. rewrite Hr, Hw.
    pose proof chunkSize_value as Hc.
    rewrite (wrap64_small (Z.min _ _)) by (unfold is_u64; lia).
    rewrite wrap64_small by (unfold is_u64; lia).
    destruct (IH (S k) A size (bw + Z.min (size - bw) chunkSize)) as (t & Ht & Hb & Hn);
      [lia | lia | |].
    { intros Hlt'.
      destruct (Z.le_gt_cases chunkSize (size - bw)) as [Hge|Hlt]; [|lia].
      rewrite Z.min_r by lia.
      replace (size - (bw + chunkSize)) with (size - bw - chunkSize) by lia.
      apply chunkFuel_step; assumption. }
    rewrite Ht. cbn [emit]. eexists. split; [reflexivity|].
    cbn [app bytes_committed forallb is_create is_remove orb negb andb].
    rewrite Hb. split; [lia | exact Hn].
Qed.

(** Every write the loop makes is either complete and free of error, or is
    the one whose error the function returns. *)
Lemma writeChunks_writes (env : gen_env) :
  full_or_error (g_write env) ->
  forall fuel k availableSpace sizeBytes bytesWritten ex t data n err,
    0 <= bytesWritten <= sizeBytes -> sizeBytes < 2 ^ 64 ->
    writeChunks fuel env k availableSpace sizeBytes bytesWritten = Some (ex, t) ->
    In (EvWrite data n err) t ->
    (err = None /\ n = seg_length data) \/
    (err <> None /\ exists r, ex = Return r /\ gen_err r = err).
Proof.
  intros Hw fuel. induction fuel as [|fuel IH];
    intros k A size bw ex t data n err Hbw Hs.
  - cbn [writeChunks]. destruct (bw <? size); [discriminate|].
    intros H. injection H as <- <-. intros [].
  - cbn [writeChunks]. destruct (bw <? size) eqn:E.
    2:{ intros H. injection H as <- <-. intros []. }
    apply Z.ltb_lt in E. cbv zeta. rewrite currentChunk_eq by lia.
    pose proof chunkSize_value as Hc.
    destruct (g_rand env k) as [rerr|].
    { intros H. injection H as <- <-. intros [Hin|[]]. discriminate. }
    pose proof (Hw k (Z.min (size - bw) chunkSize)) as Hk.
    destruct (g_write env k (Z.min (size - bw) chunkSize)) as [written werr].
    cbn [fst snd] in Hk. rewrite fill_make_bytes by lia.
    destruct werr as [werr|].
    { intros H. injection H as <- <-. intros [Hin|[Hin|[]]]; [discriminate|].
      injection Hin as <- <- <-. right. split; [discriminate|]. eauto. }
    specialize (Hk eq_refl). subst written.
    intros H. apply emit_some in H. destruct H as (t' & H & ->).
    rewrite (wrap64_small (Z.min _ _)) in H by (unfold is_u64; lia).
    rewrite wrap64_small in H by (unfold is_u64; lia).
    intros [Hin|[Hin|Hin]]; [discriminate| |].
    + injection Hin as <- <- <-. left. split; [reflexivity|]. cbn. lia.
    + eapply IH in H; [exact H | lia | lia | exact Hin].
Qed.

Lemma gen_all_ok_succeeds : gen_succeeds gen_all_ok.
Proof. repeat split. Qed.

(** With no space available the call makes no OS call at all. *)
Lemma generateChaffFile_nothing_to_do (fuel : nat) (env : gen_env) (filename : string)
    (sizeMB : Z) :
  generateChaffFile fuel env filename sizeMB 0
  = Some ({| remainingSpace := 0; bytesWritten := 0; gen_err := None |}, []).
Proof.
  unfold generateChaffFile. cbv zeta. rewrite effectiveSize_min.
  pose proof (sizeBytes_of_range sizeMB) as Hr. unfold is_u64 in Hr.
  replace (Z.min (sizeBytes_of sizeMB) 0) with 0 by lia. reflexivity.
Qed.

(** On an OS that does not fail the call writes the effective size into a
    file it created, and reports it. *)
Lemma generateChaffFile_succeeds (fuel : nat) (env : gen_env) (filename : string)
    (sizeMB availableSpace : Z) :
  is_u64 availableSpace ->
  gen_succeeds env ->
  (chunkFuel (Z.min (sizeBytes_of sizeMB) availableSpace) <= fuel)%nat ->
  exists t,
    generateChaffFile fuel env filename sizeMB availableSpace
    = Some ({| remainingSpace := availableSpace - Z.min (sizeBytes_of sizeMB) availableSpace;
               bytesWritten := Z.min (sizeBytes_of sizeMB) availableSpace;
               gen_err := None |}, t) /\
    bytes_committed t = Z.min (sizeBytes_of sizeMB) availableSpace /\
    (0 < Z.min (sizeBytes_of sizeMB) availableSpace -> In (EvCreate filename None) t).
Proof.
  intros HA Hok Hfuel.
  pose proof (effectiveSize_min sizeMB availableSpace) as Hmin.
  pose proof (effectiveSize_range sizeMB availableSpace HA) as Hrange.
  rewrite Hmin in Hrange.
  set (effective := Z.min (sizeBytes_of sizeMB) availableSpace) in *.
  unfold generateChaffFile. cbv zeta. rewrite Hmin.
  destruct (effective =? 0) eqn:E.
  - apply Z.eqb_eq in E. rewrite E, Z.sub_0_r.
    exists []. repeat split. lia.
  - apply Z.eqb_neq in E.
    destruct (writeChunks_succeeds env Hok fuel 0%nat availableSpace effective 0)
      as (t & Ht & Hb & _); [lia | unfold is_u64 in HA; lia | |].
    { intros _. rewrite Z.sub_0_r. exact Hfuel. }
    destruct Hok as (Hc & _ & _ & Hs). rewrite Hc, Ht, Hs. cbn [emit].
    rewrite wrap64_small by (unfold is_u64 in *; lia).
    eexists. split; [reflexivity|]. split.
    + cbn [app bytes_committed]. rewrite bytes_committed_app, Hb. cbn. lia.
    + intros _. left. reflexivity.
Qed.

(** C3: the size [generateChaffFile] sets out to write is the smaller of the
    requested size and the space available.  With no space available it
    makes no OS call at all, so creates no file, and returns
    [(availableSpace, 0, nil)].  On an OS that does not fail, it writes
    exactly that many bytes into a file it created, and reports them. *)
Theorem generateChaffFile_effective_size :
  forall (fuel : nat) (env : gen_env) (filename : string) (sizeMB availableSpace : Z),
    is_u64 availableSpace ->
    let requested := sizeBytes_of sizeMB in
    let effective := Z.min requested availableSpace in
    effectiveSize sizeMB availableSpace = effective /\
    (0 <= sizeMB < 2 ^ 44 -> requested = sizeMB * MiB) /\
    (availableSpace = 0 ->
     generateChaffFile fuel env filename sizeMB availableSpace
     = Some ({| remainingSpace := availableSpace; bytesWritten := 0; gen_err := None |}, [])) /\
    (gen_succeeds env -> (chunkFuel effective <= fuel)%nat ->
     exists t,
       generateChaffFile fuel env filename sizeMB availableSpace
       = Some ({| remainingSpace := availableSpace - effective;
                  bytesWritten := effective;
                  gen_err := None |}, t) /\
       bytes_committed t = effective /\
       (0 < effective -> In (EvCreate filename None) t)).
Proof.
  intros fuel env filename sizeMB A HA requested effective.
  split; [apply effectiveSize_min|]. split; [apply sizeBytes_of_small|]. split.
  - intros ->. apply generateChaffFile_nothing_to_do.
  - intros Hok Hfuel. apply generateChaffFile_succeeds; assumption.
Qed.

Lemma generateChaffFile_effective_size_witness :
  is_u64 (3 * MiB - 7) /\ gen_succeeds gen_all_ok /\
  (chunkFuel (Z.min (sizeBytes_of 100) (3 * MiB - 7)) <= 5)%nat /\
  exists t,
    generateChaffFile 5 gen_all_ok "f" 100 (3 * MiB - 7)
    = Some ({| remainingSpace := 3 * MiB - 7 - Z.min (sizeBytes_of 100) (3 * MiB - 7);
               bytesWritten := Z.min (sizeBytes_of 100) (3 * MiB - 7);
               gen_err := None |}, t) /\
    bytes_committed t = Z.min (sizeBytes_of 100) (3 * MiB - 7) /\
    (0 < Z.min (sizeBytes_of 100) (3 * MiB - 7) -> In (EvCreate "f" None) t).
Proof.
  assert (H : is_u64 (3 * MiB - 7)) by (vm_compute; split; [discriminate | reflexivity]).
  split; [exact H|]. split; [exact gen_all_ok_succeeds|].
  assert (F : (chunkFuel (Z.min (sizeBytes_of 100) (3 * MiB - 7)) <= 5)%nat)
    by (vm_compute; lia).
  split; [exact F|].
  exact (proj2 (proj2 (proj2
    (generateChaffFile_effective_size 5 gen_all_ok "f" 100 (3 * MiB - 7) H)))
    gen_all_ok_succeeds F).
Defined.

(** The accounting of every return path. *)
Lemma generateChaffFile_paths (fuel : nat) (env : gen_env) (filename : string)
    (sizeMB availableSpace : Z) (r : gen_result) (t : trace) :
  is_u64 availableSpace ->
  full_or_error (g_write env) ->
  generateChaffFile fuel env filename sizeMB availableSpace = Some (r, t) ->
  remainingSpace r = availableSpace - bytesWritten r /\
  (gen_err r = None -> bytesWritten r = Z.min (sizeBytes_of sizeMB) availableSpace).
Proof.
  intros HA Hw.
  pose proof (effectiveSize_min sizeMB availableSpace) as Hmin.
  pose proof (effectiveSize_range sizeMB availableSpace HA) as Hrange.
  unfold generateChaffFile. cbv zeta. rewrite <- Hmin.
  set (size := effectiveSize sizeMB availableSpace) in *.
  destruct (size =? 0) eqn:E.
  { apply Z.eqb_eq in E. intros H. injection H as <- <-. cbn. split; lia. }
  apply Z.eqb_neq in E.
  destruct (g_create env) as [cerr|].
  { intros H. injection H as <- <-. cbn. split; [lia | discriminate]. }
  intros H. apply emit_some in H. destruct H as (t' & H & _).
  destruct (writeChunks fuel env 0 availableSpace size 0) as [[ex tw]|] eqn:Hloop;
    [|discriminate].
  apply (writeChunks_accounting env Hw) in Hloop;
    [| lia | unfold is_u64 in HA; lia].
  destruct ex as [r'|w].
  - injection H as <- _. destruct Hloop as (H1 & _ & H3). split; [exact H1|].
    intros Hn. contradiction.
  - subst w. destruct (g_sync env) as [serr|]; injection H as <- _; cbn.
    + rewrite wrap64_small by (unfold is_u64 in *; lia).
      split; [reflexivity | discriminate].
    + rewrite wrap64_small by (unfold is_u64 in *; lia).
      split; reflexivity.
Qed.

(** The call returns on the fuel of its chunks. *)
Lemma generateChaffFile_returns (fuel : nat) (env : gen_env) (filename : string)
    (sizeMB availableSpace : Z) :
  is_u64 availableSpace ->
  full_or_error (g_write env) ->
  (chunkFuel (Z.min (sizeBytes_of sizeMB) availableSpace) <= fuel)%nat ->
  exists r t, generateChaffFile fuel env filename sizeMB availableSpace = Some (r, t).
Proof.
  intros HA Hw.
  pose proof (effectiveSize_min sizeMB availableSpace) as Hmin.
  pose proof (effectiveSize_range sizeMB availableSpace HA) as Hrange.
  unfold generateChaffFile. cbv zeta. rewrite <- Hmin.
  set (size := effectiveSize sizeMB availableSpace) in *.
  intros Hfuel.
  destruct (size =? 0); [do 2 eexists; reflexivity|].
  destruct (g_create env) as [cerr|]; [do 2 eexists; reflexivity|].
  destruct (writeChunks_returns env Hw fuel 0%nat availableSpace size 0)
    as [[ex tw] Hloop]; [lia | unfold is_u64 in HA; lia | |].
  { intros _. rewrite Z.sub_0_r. exact Hfuel. }
  rewrite Hloop. cbn [emit].
  destruct ex as [r'|w]; [|destruct (g_sync env)]; do 2 eexists; reflexivity.
Qed.

(** C9: on every return path of [generateChaffFile] the space returned is
    the space available minus the count returned, and a return without
    error reports exactly the smaller of the requested size and the space
    available.  The function does return, on the fuel of its chunks. *)
Theorem generateChaffFile_accounting :
  forall (fuel : nat) (env : gen_env) (filename : string) (sizeMB availableSpace : Z),
    is_u64 availableSpace ->
    full_or_error (g_write env) ->
    (forall r t,
        generateChaffFile fuel env filename sizeMB availableSpace = Some (r, t) ->
        remainingSpace r = availableSpace - bytesWritten r /\
        (gen_err r = None ->
         bytesWritten r = Z.min (sizeBytes_of sizeMB) availableSpace)) /\
    ((chunkFuel (Z.min (sizeBytes_of sizeMB) availableSpace) <= fuel)%nat ->
     exists r t, generateChaffFile fuel env filename sizeMB availableSpace = Some (r, t)).
Proof.
  intros fuel env filename sizeMB A HA Hw. split.
  - intros r t. apply generateChaffFile_paths; assumption.
  - apply generateChaffFile_returns; assumption.
Qed.

Lemma generateChaffFile_accounting_witness :
  is_u64 (3 * MiB - 7) /\ full_or_error (g_write gen_all_ok) /\
  exists r t,
    generateChaffFile 5 gen_all_ok "f" 100 (3 * MiB - 7) = Some (r, t) /\
    remainingSpace r = 3 * MiB - 7 - bytesWritten r /\
    (gen_err r = None -> bytesWritten r = Z.min (sizeBytes_of 100) (3 * MiB - 7)).
Proof.
  assert (H : is_u64 (3 * MiB - 7)) by (vm_compute; split; [discriminate | reflexivity]).
  assert (W : full_or_error (g_write gen_all_ok)) by (intros k len _; reflexivity).
  split; [exact H|]. split; [exact W|].
  destruct (generateChaffFile_accounting 5 gen_all_ok "f" 100 (3 * MiB - 7) H W)
    as [Hret Hrun].
  destruct Hrun as (r & t & Hrt); [vm_compute; lia|].
  exists r, t. split; [exact Hrt|]. exact (Hret r t Hrt).
Defined.

(** Under the promise of [os.File.Write], a write that returns fewer bytes
    than asked for ends the call with the error of that write. *)
Lemma generateChaffFile_short_write_fatal :
  forall (fuel : nat) (env : gen_env) (filename : string) (sizeMB availableSpace : Z)
         (r : gen_result) (t : trace) (data : segments) (n : Z) (err : option error),
    is_u64 availableSpace ->
    full_or_error (g_write env) ->
    generateChaffFile fuel env filename sizeMB availableSpace = Some (r, t) ->
    In (EvWrite data n err) t ->
    n <> seg_length data ->
    err <> None /\ gen_err r = err.
Proof.
  intros fuel env filename sizeMB A r t data n err HA Hw.
  pose proof (effectiveSize_range sizeMB A HA) as Hrange.
  unfold generateChaffFile. cbv zeta.
  set (size := effectiveSize sizeMB A) in *.
  destruct (size =? 0).
  { intros H. injection H as <- <-. intros []. }
  destruct (g_create env) as [cerr|].
  { intros H. injection H as <- <-. intros [Hin|[]]. discriminate. }
  intros H. apply emit_some in H. destruct H as (t' & H & ->).
  destruct (writeChunks fuel env 0 A size 0) as [[ex tw]|] eqn:Hloop; [|discriminate].
  intros Hin Hshort.
  assert (Hin' : In (EvWrite data n err) tw).
  { destruct Hin as [Hin|Hin]; [discriminate|]. cbn [app] in Hin.
    destruct ex as [r'|w]; [|destruct (g_sync env)]; injection H as _ <-;
      apply in_app_or in Hin; destruct Hin as [Hin|Hin]; try exact Hin;
      absent_event Hin. }
  destruct (writeChunks_writes env Hw fuel 0%nat A size 0 ex tw data n err)
    as [[_ Heq]|(Hne & r' & -> & Hr)];
    [lia | unfold is_u64 in HA; lia | exact Hloop | exact Hin' | contradiction |].
  injection H as <- _. split; assumption.
Qed.

(** C5: evaluation at the failing input.  The first chunk of 1 MiB is
    written in full, the second write stores 512 bytes and fails with
    ENOSPC: the call ends with the error, but the count it returns is 1 MiB
    although the file holds 1 MiB + 512 bytes. *)
Theorem generateChaffFile_short_write_count :
  full_or_error (g_write gen_short_second_write) /\
  exists t,
    generateChaffFile 5 gen_short_second_write (regularName 0) fileSizeMB (3 * MiB)
    = Some ({| remainingSpace := 2 * MiB;
               bytesWritten := MiB;
               gen_err := Some (Errno 28) |}, t) /\
    bytes_committed t = MiB + 512.
Proof.
  split.
  - intros k len. cbn. destruct (Nat.eqb k 1); cbn; [discriminate | reflexivity].
  - eexists. split; vm_compute; reflexivity.
Qed.

End Generate.

(* ================================================================= *)
(** ** shredFile *)

Section Shred.

Import Chaff.

Lemma before_remove_app (t1 t2 : trace) :
  existsb is_remove t1 = false ->
  before_remove (t1 ++ t2) = t1 ++ before_remove t2.
Proof.
  induction t1 as [|e t1 IH]; [reflexivity|].
  cbn [existsb app before_remove]. intros H.
  apply orb_false_iff in H. destruct H as [He Ht].
  rewrite He, IH by exact Ht. reflexivity.
Qed.

Lemma existsb_remove_app (t1 t2 : trace) :
  existsb is_remove (t1 ++ t2) = existsb is_remove t1 || existsb is_remove t2.
Proof. apply existsb_app. Qed.

Lemma syncs_done_app (t1 t2 : trace) :
  syncs_done (t1 ++ t2) = (syncs_done t1 + syncs_done t2)%nat.
Proof.
  induction t1 as [|e t1 IH]; [reflexivity|].
  destruct e as [| | | | | | |[?|]| |]; cbn [app syncs_done]; rewrite IH; reflexivity.
Qed.

(** What a pass holds: its byte count, no removal, no flush of its own, and
    only complete writes. *)
Lemma pass_trace_facts (pass k : nat) (n : Z) (t : trace) :
  pass_trace pass k n t ->
  bytes_committed t = n /\
  existsb is_remove t = false /\
  syncs_done t = 0%nat /\
  (forall data m err, In (EvWrite data m err) t -> err = None /\ m = seg_length data).
Proof.
  induction 1 as [k|k n t Hn Hp (IH1 & IH2 & IH3 & IH4)].
  - split; [reflexivity|]. split; [reflexivity|]. split; [reflexivity|].
    intros ? ? ? [].
  - pose proof chunkSize_value as Hc.
    assert (Hd : passDraw pass (Z.min n chunkSize) = [] \/
                 passDraw pass (Z.min n chunkSize) = [EvRand (Z.min n chunkSize) None]).
    { unfold passDraw. destruct pass as [|[|[|?]]]; auto. }
    destruct Hd as [-> | ->]; cbn [app bytes_committed existsb is_remove syncs_done orb];
      rewrite IH1; (split; [lia|]); (split; [exact IH2|]); (split; [exact IH3|]);
      intros data m err Hin; cbn [In] in Hin.
    + destruct Hin as [Hin|Hin]; [|eauto].
      injection Hin as <- <- <-. split; [reflexivity|]. cbn. lia.
    + destruct Hin as [Hin|[Hin|Hin]]; [discriminate| |eauto].
      injection Hin as <- <- <-. split; [reflexivity|]. cbn. lia.
Qed.

(** The chunk the loop of a pass writes next. *)
Lemma toWrite_eq (remaining : Z) :
  (if remaining <? chunkSize then remaining else chunkSize) = Z.min remaining chunkSize.
Proof.
  destruct (remaining <? chunkSize) eqn:E.
  - apply Z.ltb_lt in E. lia.
  - apply Z.ltb_ge in E. lia.
Qed.

(** A pass that runs to its end wrote the whole length in the pattern of the
    pass. *)
Lemma passChunks_complete (env : shred_env) (path : string) (pass : nat) :
  (pass <= 2)%nat ->
  forall fuel k buf remaining buf' t,
    0 <= remaining < 2 ^ 63 ->
    passChunks fuel env path pass k buf remaining = Some (inr buf', t) ->
    pass_trace pass k remaining t.
Proof.
  intros Hp fuel. induction fuel as [|fuel IH]; intros k buf rem buf' t Hr.
  - cbn [passChunks]. destruct (rem >? 0) eqn:E; [discriminate|].
    rewrite Z.gtb_ltb in E. apply Z.ltb_ge in E.
    intros H. injection H as _ <-. replace rem with 0 by lia. constructor.
  - cbn [passChunks]. destruct (rem >? 0) eqn:E.
    2:{ rewrite Z.gtb_ltb in E. apply Z.ltb_ge in E.
        intros H. injection H as _ <-. replace rem with 0 by lia. constructor. }
    apply Z.gtb_lt in E. cbv zeta. rewrite toWrite_eq.
    pose proof chunkSize_value as Hc.
    set (len := Z.min rem chunkSize).
    assert (Hlen : 0 < len <= rem) by (unfold len; lia).
    assert (Hfill : exists tr,
               (fillPass env pass k len buf
                = (None, fill_prefix len (passContent pass k) buf, passDraw pass len)
                \/ exists err, fillPass env pass k len buf = (Some err, buf, tr))).
    { unfold fillPass, passContent, passDraw.
      destruct pass as [|[|[|?]]];
        [exists []; left; reflexivity | exists []; left; reflexivity | | lia].
      destruct (s_rand env k) as [err|].
      - exists [EvRand len (Some err)]. right. exists err. reflexivity.
      - exists []. left. reflexivity. }
    destruct Hfill as (tr & [Hfill|(err & Hfill)]); rewrite Hfill; [|discriminate].
    rewrite take_fill_prefix by lia.
    destruct (s_write env pass k len) as [n werr].
    destruct werr as [werr|]; [discriminate|].
    destruct (n =? len) eqn:En; cbn [negb]; [|discriminate].
    apply Z.eqb_eq in En. subst n.
    intros H. apply emit_some in H. destruct H as (t' & H & ->).
    rewrite wrap_i64_small in H by (unfold is_i64; lia).
    apply IH in H; [|lia].
    rewrite <- app_assoc. cbn [app]. fold len.
    apply pass_chunk; [lia | exact H].
Qed.

(** No pass removes the file, however it ends. *)
Lemma passChunks_no_remove (env : shred_env) (path : string) :
  forall fuel pass k buf remaining r t,
    passChunks fuel env path pass k buf remaining = Some (r, t) ->
    existsb is_remove t = false.
Proof.
  intros fuel. induction fuel as [|fuel IH]; intros pass k buf rem r t.
  - cbn [passChunks]. destruct (rem >? 0); [discriminate|].
    intros H. injection H as _ <-. reflexivity.
  - cbn [passChunks]. destruct (rem >? 0).
    2:{ intros H. injection H as _ <-. reflexivity. }
    cbv zeta. rewrite toWrite_eq. set (len := Z.min rem chunkSize).
    assert (Hf : existsb is_remove (snd (fillPass env pass k len buf)) = false).
    { unfold fillPass. destruct pass as [|[|[|?]]]; try reflexivity.
      destruct (s_rand env k); reflexivity. }
    destruct (fillPass env pass k len buf) as [[rerr buf'] revs]. cbn [snd] in Hf.
    destruct rerr as [rerr|].
    { intros H. injection H as _ <-. exact Hf. }
    destruct (s_write env pass k len) as [n werr].
    assert (Hevs : existsb is_remove (revs ++ [EvWrite (take_bytes len buf') n werr]) = false).
    { rewrite existsb_remove_app, Hf. reflexivity. }
    destruct werr as [werr|].
    { intros H. injection H as _ <-. exact Hevs. }
    destruct (negb (n =? len)).
    { intros H. injection H as _ <-. exact Hevs. }
    intros H. apply emit_some in H. destruct H as (t' & H & ->).
    rewrite existsb_remove_app, Hevs. cbn [orb]. eapply IH. exact H.
Qed.

(** A pass comes to its end, or to an error, on [chunkFuel] turns. *)
Lemma passChunks_returns (env : shred_env) (path : string) :
  forall fuel pass k buf remaining,
    remaining < 2 ^ 63 ->
    (0 < remaining -> (chunkFuel remaining <= fuel)%nat) ->
    exists r, passChunks fuel env path pass k buf remaining = Some r.
Proof.
  intros fuel. induction fuel as [|fuel IH]; intros pass k buf rem Hr Hf.
  - cbn [passChunks]. destruct (rem >? 0) eqn:E; [|eauto].
    apply Z.gtb_lt in E. specialize (Hf E). unfold chunkFuel in Hf. lia.
  - cbn [passChunks]. destruct (rem >? 0) eqn:E; [|eauto].
    apply Z.gtb_lt in E. specialize (Hf E). cbv zeta. rewrite toWrite_eq.
    pose proof chunkSize_value as Hc.
    set (len := Z.min rem chunkSize).
    destruct (fillPass env pass k len buf) as [[rerr buf'] revs].
    destruct rerr as [rerr|]; [eauto|].
    destruct (s_write env pass k len) as [n werr].
    destruct werr as [werr|]; [eauto|].
    destruct (negb (n =? len)); [eauto|].
    rewrite wrap_i64_small by (unfold is_i64, len; lia).
    destruct (IH pass (S k) buf' (rem - len)) as [[r t] Hrt];
      [unfold len; lia | | rewrite Hrt; cbn; eauto].
    intros Hpos. unfold len in *.
    destruct (Z.le_gt_cases chunkSize rem) as [Hge|Hlt]; [|lia].
    rewrite Z.min_r by lia. apply chunkFuel_step; assumption.
Qed.

Lemma runPasses_cons_complete (env : shred_env) (path : string) (fuel : nat)
    (pass : nat) (rest : list nat) (buf buf' : segments) (size : Z) (t : trace) :
  runPasses fuel env path (pass :: rest) buf size = Some (inr buf', t) ->
  exists bufm tp tr,
    passChunks fuel env path pass 0 buf size = Some (inr bufm, tp) /\
    runPasses fuel env path rest bufm size = Some (inr buf', tr) /\
    t = (EvSeek None :: tp ++ [EvSync None]) ++ tr.
Proof.
  cbn [runPasses]. destruct (s_seek env pass); [discriminate|].
  intros H. apply emit_some in H. destruct H as (t' & H & ->).
  destruct (passChunks fuel env path pass 0 buf size) as [[[err|bufm] tp]|];
    [discriminate | | discriminate].
  destruct (s_sync env pass); [discriminate|].
  apply emit_some in H. destruct H as (tr & H & ->).
  exists bufm, tp, tr. split; [reflexivity|]. split; [exact H|].
  cbn [app]. rewrite <- app_assoc. reflexivity.
Qed.

(** The three passes, when none of them fails, are three full-length passes
    in the order 0xFF, 0x00, random, each flushed before the next begins. *)
Lemma runPasses_complete (env : shred_env) (path : string) (fuel : nat)
    (buf buf' : segments) (size : Z) (t : trace) :
  0 <= size < 2 ^ 63 ->
  runPasses fuel env path passes buf size = Some (inr buf', t) ->
  three_passes size t.
Proof.
  intros Hs H. unfold passes in H.
  apply runPasses_cons_complete in H. destruct H as (b0 & t0 & r0 & H0 & H & ->).
  apply runPasses_cons_complete in H. destruct H as (b1 & t1 & r1 & H1 & H & ->).
  apply runPasses_cons_complete in H. destruct H as (b2 & t2 & r2 & H2 & H & ->).
  cbn [runPasses] in H. injection H as _ <-.
  apply passChunks_complete in H0; [|lia|exact Hs].
  apply passChunks_complete in H1; [|lia|exact Hs].
  apply passChunks_complete in H2; [|lia|exact Hs].
  exists t0, t1, t2. rewrite app_nil_r. auto.
Qed.

Lemma runPasses_no_remove (env : shred_env) (path : string) (fuel : nat) (size : Z) :
  forall ps buf r t,
    runPasses fuel env path ps buf size = Some (r, t) ->
    existsb is_remove t = false.
Proof.
  induction ps as [|pass rest IH]; intros buf r t; cbn [runPasses].
  - intros H. injection H as _ <-. reflexivity.
  - destruct (s_seek env pass).
    { intros H. injection H as _ <-. reflexivity. }
    intros H. apply emit_some in H. destruct H as (t' & H & ->).
    cbn [app existsb is_remove orb].
    destruct (passChunks fuel env path pass 0 buf size) as [[[err|bufm] tp]|] eqn:Hp;
      [| |discriminate]; apply passChunks_no_remove in Hp.
    + injection H as _ <-. exact Hp.
    + destruct (s_sync env pass).
      * injection H as _ <-. rewrite existsb_remove_app, Hp. reflexivity.
      * apply emit_some in H. destruct H as (tr & H & ->).
        rewrite !existsb_remove_app, Hp. cbn. eapply IH. exact H.
Qed.

Lemma runPasses_returns (env : shred_env) (path : string) (fuel : nat) (size : Z) :
  size < 2 ^ 63 ->
  (0 < size -> (chunkFuel size <= fuel)%nat) ->
  forall ps buf, exists r, runPasses fuel env path ps buf size = Some r.
Proof.
  intros Hs Hf. induction ps as [|pass rest IH]; intros buf; cbn [runPasses]; [eauto|].
  destruct (s_seek env pass); [eauto|].
  destruct (passChunks_returns env path fuel pass 0%nat buf size Hs Hf) as [[[err|bufm] tp] Hp];
    rewrite Hp; cbn [emit]; [eauto|].
  destruct (s_sync env pass); [cbn [emit]; eauto|].
  destruct (IH bufm) as [[r tr] Hr]. rewrite Hr. cbn [emit]. eauto.
Qed.

Lemma three_passes_facts (n : Z) (t : trace) :
  three_passes n t ->
  bytes_committed t = 3 * n /\
  existsb is_remove t = false /\
  syncs_done t = 3%nat /\
  (forall data m err, In (EvWrite data m err) t -> err = None /\ m = seg_length data).
Proof.
  intros (t0 & t1 & t2 & H0 & H1 & H2 & ->).
  apply pass_trace_facts in H0, H1, H2.
  destruct H0 as (B0 & R0 & S0 & W0), H1 as (B1 & R1 & S1 & W1), H2 as (B2 & R2 & S2 & W2).
  repeat split.
  - cbn [app bytes_committed].
    rewrite !bytes_committed_app. cbn [bytes_committed].
    rewrite !bytes_committed_app. cbn [bytes_committed].
    rewrite !bytes_committed_app. cbn [bytes_committed]. lia.
  - cbn [app existsb is_remove orb].
    rewrite !existsb_remove_app. cbn [existsb is_remove orb].
    rewrite !existsb_remove_app. cbn [existsb is_remove orb].
    rewrite !existsb_remove_app. cbn [existsb is_remove orb].
    rewrite R0, R1, R2. reflexivity.
  - cbn [app syncs_done].
    rewrite !syncs_done_app. cbn [syncs_done].
    rewrite !syncs_done_app. cbn [syncs_done].
    rewrite !syncs_done_app. cbn [syncs_done].
    rewrite S0, S1, S2. reflexivity.
  - revert H. clear -W0 W1 W2. intros H.
    repeat (apply in_app_or in H; destruct H as [H|H]);
      repeat (destruct H as [H|H]; [discriminate|]);
      try (apply in_app_or in H; destruct H as [H|H]);
      repeat (destruct H as [H|H]; [discriminate|]);
      try (destruct H); eauto;
      try (eapply W0; eassumption); try (eapply W1; eassumption);
      try (eapply W2; eassumption).
  - revert H. clear -W0 W1 W2. intros H.
    repeat (apply in_app_or in H; destruct H as [H|H]);
      repeat (destruct H as [H|H]; [discriminate|]);
      try (apply in_app_or in H; destruct H as [H|H]);
      repeat (destruct H as [H|H]; [discriminate|]);
      try (destruct H); eauto;
      try (eapply W0; eassumption); try (eapply W1; eassumption);
      try (eapply W2; eassumption).
Qed.

(** The ways a call on a non-empty file that was opened and statted ends:
    with the error of a pass, the file closed but not removed; with the
    error of the close after three full passes; or, after three full passes
    and the close, with the result of the removal. *)
Lemma shredFile_nonempty_cases (fuel : nat) (env : shred_env) (path : string)
    (err : option error) (t : trace) :
  s_open env = None -> s_stat env = None -> 0 < s_size env < 2 ^ 63 ->
  shredFile fuel env path = Some (err, t) ->
  (exists e tp,
      runPasses fuel env path passes (make_bytes chunkSize) (s_size env)
      = Some (inl e, tp) /\
      err = Some e /\ existsb is_remove tp = false /\
      t = [EvOpen path None; EvStat None] ++ tp ++ [EvClose path (s_close env)]) \/
  (exists e tp,
      three_passes (s_size env) tp /\ s_close env = Some e /\ err = Some e /\
      t = [EvOpen path None; EvStat None] ++ tp ++
          [EvClose path (Some e); EvClose path (Some ErrClosed)]) \/
  (exists tp,
      three_passes (s_size env) tp /\ s_close env = None /\ err = s_remove env /\
      t = [EvOpen path None; EvStat None] ++ tp ++
          [EvClose path None; EvRemove path (s_remove env);
           EvClose path (Some ErrClosed)]).
Proof.
  intros Ho Hst Hs. unfold shredFile. rewrite Ho, Hst. cbv zeta.
  destruct (s_size env =? 0) eqn:E; [apply Z.eqb_eq in E; lia|].
  intros H. apply emit_some in H. destruct H as (t' & H & ->).
  destruct (runPasses fuel env path passes (make_bytes chunkSize) (s_size env))
    as [[[e|buf'] tp]|] eqn:Hp; [| |discriminate].
  - left. injection H as <- <-. exists e, tp.
    apply runPasses_no_remove in Hp. auto.
  - apply runPasses_complete in Hp; [|lia].
    destruct (s_close env) as [e|]; injection H as <- <-.
    + right. left. exists e, tp. auto.
    + right. right. exists tp. auto.
Qed.

Lemma before_remove_no_remove (t : trace) :
  existsb is_remove t = false -> before_remove t = t.
Proof.
  induction t as [|e t IH]; [reflexivity|].
  cbn [existsb before_remove]. intros H.
  apply orb_false_iff in H. destruct H as [He Ht].
  rewrite He, IH by exact Ht. reflexivity.
Qed.

(** C1, amended: a non-empty file that [shredFile] opened and statted is
    not removed before the three passes and their flushes are done; what
    comes before the removal is exactly the three flushed full-length passes
    and the close, and [3 * N] bytes are written by then.  A call that
    returns no error did remove the file.  The call returns on the fuel of
    the chunks of one pass.  A file that cannot be opened, or cannot be
    statted, is removed with no byte written. *)
Theorem shredFile_removal_after_passes :
  forall (fuel : nat) (env : shred_env) (path : string),
    0 < s_size env < 2 ^ 63 ->
    (s_open env = None -> s_stat env = None ->
     (forall err t,
         shredFile fuel env path = Some (err, t) ->
         (err = None -> existsb is_remove t = true) /\
         removal_only_after_passes (s_size env) t /\
         (existsb is_remove t = true ->
          bytes_committed t = 3 * s_size env /\
          exists tp,
            three_passes (s_size env) tp /\
            before_remove t
            = [EvOpen path None; EvStat None] ++ tp ++ [EvClose path None])) /\
     ((chunkFuel (s_size env) <= fuel)%nat ->
      exists r, shredFile fuel env path = Some r)) /\
    (forall e,
        s_open env = Some e \/ (s_open env = None /\ s_stat env = Some e) ->
        exists t,
          shredFile fuel env path = Some (Some e, t) /\
          existsb is_remove t = true /\ bytes_committed t = 0).
Proof.
  intros fuel env path Hs. split; [intros Ho Hst; split|].
  - intros err t H.
    destruct (shredFile_nonempty_cases fuel env path err t Ho Hst Hs H)
      as [(e & tp & _ & -> & Hr & ->) | [(e & tp & H3 & _ & -> & ->) | (tp & H3 & _ & -> & ->)]].
    + assert (Hno : existsb is_remove
                      ([EvOpen path None; EvStat None] ++ tp ++ [EvClose path (s_close env)])
                    = false).
      { cbn [app existsb is_remove orb]. rewrite existsb_remove_app, Hr. reflexivity. }
      unfold removal_only_after_passes. rewrite Hno.
      repeat split; discriminate.
    + pose proof (three_passes_facts _ _ H3) as (_ & Hr & _ & _).
      assert (Hno : existsb is_remove
                      ([EvOpen path None; EvStat None] ++ tp ++
                       [EvClose path (Some e); EvClose path (Some ErrClosed)])
                    = false).
      { cbn [app existsb is_remove orb]. rewrite existsb_remove_app, Hr. reflexivity. }
      unfold removal_only_after_passes. rewrite Hno.
      repeat split; discriminate.
    + pose proof (three_passes_facts _ _ H3) as (Hb & Hr & Hsy & _).
      assert (Hyes : existsb is_remove
                       ([EvOpen path None; EvStat None] ++ tp ++
                        [EvClose path None; EvRemove path (s_remove env);
                         EvClose path (Some ErrClosed)])
                     = true).
      { cbn [app existsb is_remove orb]. rewrite existsb_remove_app, Hr.
        reflexivity. }
      assert (Hpre : before_remove
                       ([EvOpen path None; EvStat None] ++ tp ++
                        [EvClose path None; EvRemove path (s_remove env);
                         EvClose path (Some ErrClosed)])
                     = [EvOpen path None; EvStat None] ++ tp ++ [EvClose path None]).
      { cbn [app before_remove is_remove].
        rewrite before_remove_app by exact Hr. reflexivity. }
      split; [intros _; exact Hyes|]. split.
      * intros _. rewrite Hpre. cbn [app syncs_done bytes_committed].
        rewrite syncs_done_app, bytes_committed_app, Hsy, Hb. cbn. split; [reflexivity | lia].
      * intros _. split.
        -- cbn [app bytes_committed]. rewrite bytes_committed_app, Hb. cbn. lia.
        -- exists tp. split; [exact H3 | exact Hpre].
  - intros Hf. unfold shredFile. rewrite Ho, Hst. cbv zeta.
    destruct (s_size env =? 0); [eauto|].
    destruct (runPasses_returns env path fuel (s_size env) (proj2 Hs) (fun _ => Hf)
                passes (make_bytes chunkSize)) as [[[e|buf'] tp] Hp];
      rewrite Hp; cbn [emit]; [eauto|].
    destruct (s_close env); cbn [emit]; eauto.
  - intros e [Ho | [Ho Hst]]; unfold shredFile.
    + rewrite Ho. eexists. split; [reflexivity|]. split; reflexivity.
    + rewrite Ho, Hst. eexists. split; [reflexivity|]. split; reflexivity.
Qed.

Lemma shredFile_removal_after_passes_witness :
  0 < s_size (shred_all_ok (3 * MiB)) < 2 ^ 63 /\
  exists err t,
    shredFile 4 (shred_all_ok (3 * MiB)) (regularName 0) = Some (err, t) /\
    err = None /\
    removal_only_after_passes (3 * MiB) t /\
    bytes_committed t = 3 * (3 * MiB).
Proof.
  assert (Hs : 0 < s_size (shred_all_ok (3 * MiB)) < 2 ^ 63)
    by (vm_compute; split; reflexivity).
  split; [exact Hs|].
  destruct (proj1 (shredFile_removal_after_passes 4 (shred_all_ok (3 * MiB))
                     (regularName 0) Hs) eq_refl eq_refl) as [Hall Hret].
  destruct Hret as [[err t] Hrun]; [vm_compute; lia|].
  exists err, t. split; [exact Hrun|].
  destruct (Hall err t Hrun) as (_ & Hrem & Hbytes).
  assert (He : err = None /\ existsb is_remove t = true).
  { vm_compute in Hrun. injection Hrun as <- <-. split; reflexivity. }
  destruct He as [He Hyes]. split; [exact He|]. split; [exact Hrem|].
  exact (proj1 (Hbytes Hyes)).
Defined.

(** C1 as stated fails: a non-empty file that cannot be opened is removed
    with no pass made and no byte written. *)
Lemma shredFile_removal_counterexample :
  ~ (forall (fuel : nat) (env : shred_env) (path : string) err t,
        0 < s_size env ->
        shredFile fuel env path = Some (err, t) ->
        removal_only_after_passes (s_size env) t).
Proof.
  intros H.
  specialize (H 4%nat shred_open_denied (regularName 0) _ _ eq_refl eq_refl).
  destruct (H eq_refl) as [Hsync _]. discriminate Hsync.
Qed.

(** On chaff.go, a call on a non-empty file that returns no error made
    exactly the three passes, in order, and then closed and removed the
    file. *)
Lemma shredFile_success_trace (fuel : nat) (env : shred_env) (path : string) (t : trace) :
  0 < s_size env < 2 ^ 63 ->
  shredFile fuel env path = Some (None, t) ->
  exists tp,
    three_passes (s_size env) tp /\
    t = [EvOpen path None; EvStat None] ++ tp ++
        [EvClose path None; EvRemove path None; EvClose path (Some ErrClosed)].
Proof.
  intros Hs H.
  assert (Ho : s_open env = None).
  { unfold shredFile in H. destruct (s_open env); [discriminate | reflexivity]. }
  assert (Hst : s_stat env = None).
  { unfold shredFile in H. rewrite Ho in H.
    destruct (s_stat env); [discriminate | reflexivity]. }
  destruct (shredFile_nonempty_cases fuel env path None t Ho Hst Hs H)
    as [(e & tp & _ & He & _) | [(e & tp & _ & _ & He & _) | (tp & H3 & _ & He & ->)]];
    [discriminate | discriminate |].
  exists tp. rewrite <- He. auto.
Qed.

(** On chaff.go, a write that returns an error or a count other than the
    one asked for ends the call with an error, and the file is not removed. *)
Lemma shredFile_short_write_fatal (fuel : nat) (env : shred_env) (path : string)
    (err : option error) (t : trace) (data : segments) (n : Z) (werr : option error) :
  0 <= s_size env < 2 ^ 63 ->
  shredFile fuel env path = Some (err, t) ->
  In (EvWrite data n werr) t ->
  n <> seg_length data \/ werr <> None ->
  err <> None /\ existsb is_remove t = false.
Proof.
  intros Hs H Hin Hbad.
  destruct (s_open env) as [e|] eqn:Ho.
  { unfold shredFile in H. rewrite Ho in H. injection H as _ <-.
    absent_event Hin. }
  destruct (s_stat env) as [e|] eqn:Hst.
  { unfold shredFile in H. rewrite Ho, Hst in H. injection H as _ <-.
    absent_event Hin. }
  destruct (s_size env =? 0) eqn:E.
  { unfold shredFile in H. rewrite Ho, Hst in H. cbv zeta in H. rewrite E in H.
    injection H as _ <-.
    absent_event Hin. }
  apply Z.eqb_neq in E.
  destruct (shredFile_nonempty_cases fuel env path err t Ho Hst ltac:(lia) H)
    as [(e & tp & _ & -> & Hr & ->) | [(e & tp & H3 & _ & -> & ->) | (tp & H3 & _ & -> & ->)]].
  - split; [discriminate|].
    cbn [app existsb is_remove orb]. rewrite existsb_remove_app, Hr. reflexivity.
  - exfalso. pose proof (three_passes_facts _ _ H3) as (_ & _ & _ & Hw).
    cbn [app In] in Hin. destruct Hin as [Hin|[Hin|Hin]]; [discriminate ..|].
    apply in_app_or in Hin. destruct Hin as [Hin|Hin].
    + apply Hw in Hin. destruct Hin as [-> ->]. destruct Hbad; congruence.
    + absent_event Hin.
  - exfalso. pose proof (three_passes_facts _ _ H3) as (_ & _ & _ & Hw).
    cbn [app In] in Hin. destruct Hin as [Hin|[Hin|Hin]]; [discriminate ..|].
    apply in_app_or in Hin. destruct Hin as [Hin|Hin].
    + apply Hw in Hin. destruct Hin as [-> ->]. destruct Hbad; congruence.
    + absent_event Hin.
Qed.

(** The events of the [switch pass]: none, or one read of the randomness
    source. *)
Lemma fillPass_events (env : shred_env) (pass k : nat) (len : Z) (buf : segments) :
  (exists buf', fillPass env pass k len buf = (None, buf', [])) \/
  (exists buf', fillPass env pass k len buf = (None, buf', [EvRand len None])) \/
  (exists e, fillPass env pass k len buf = (Some e, buf, [EvRand len (Some e)])).
Proof.
  unfold fillPass. destruct pass as [|[|[|?]]]; eauto.
  destruct (s_rand env k); eauto.
Qed.

(** A failed read of the randomness source ends the pass with its error. *)
Lemma passChunks_rand_failure (env : shred_env) (path : string) :
  forall fuel pass k buf remaining r t len e,
    passChunks fuel env path pass k buf remaining = Some (r, t) ->
    In (EvRand len (Some e)) t ->
    r = inl e.
Proof.
  intros fuel. induction fuel as [|fuel IH]; intros pass k buf rem r t len e.
  - cbn [passChunks]. destruct (rem >? 0); [discriminate|].
    intros H. injection H as _ <-. intros [].
  - cbn [passChunks]. destruct (rem >? 0).
    2:{ intros H. injection H as _ <-. intros []. }
    cbv zeta. rewrite toWrite_eq. set (l := Z.min rem chunkSize).
    destruct (fillPass_events env pass k l buf)
      as [(buf' & ->) | [(buf' & ->) | (e' & ->)]].
    + destruct (s_write env pass k l) as [n werr]. cbn [app].
      destruct werr as [werr|].
      { intros H. injection H as _ <-. intros [Hin|[]]. discriminate. }
      destruct (negb (n =? l)).
      { intros H. injection H as _ <-. intros [Hin|[]]. discriminate. }
      intros H. apply emit_some in H. destruct H as (t' & H & ->).
      intros [Hin|Hin]; [discriminate|]. eapply IH; eassumption.
    + destruct (s_write env pass k l) as [n werr]. cbn [app].
      destruct werr as [werr|].
      { intros H. injection H as _ <-. intros [Hin|[Hin|[]]]; discriminate. }
      destruct (negb (n =? l)).
      { intros H. injection H as _ <-. intros [Hin|[Hin|[]]]; discriminate. }
      intros H. apply emit_some in H. destruct H as (t' & H & ->).
      intros [Hin|[Hin|Hin]]; [discriminate ..|]. eapply IH; eassumption.
    + intros H. injection H as <- <-. intros [Hin|[]].
      injection Hin as _ ->. reflexivity.
Qed.

Lemma runPasses_rand_failure (env : shred_env) (path : string) (fuel : nat) (size : Z) :
  forall ps buf r t len e,
    runPasses fuel env path ps buf size = Some (r, t) ->
    In (EvRand len (Some e)) t ->
    r = inl e.
Proof.
  induction ps as [|pass rest IH]; intros buf r t len e; cbn [runPasses].
  - intros H. injection H as _ <-. intros [].
  - destruct (s_seek env pass).
    { intros H. injection H as _ <-. intros [Hin|[]]. discriminate. }
    intros H. apply emit_some in H. destruct H as (t' & H & ->).
    intros [Hin|Hin]; [discriminate|]. cbn [app] in Hin.
    destruct (passChunks fuel env path pass 0 buf size) as [[[err|bufm] tp]|] eqn:Hp;
      [| |discriminate].
    + injection H as <- <-. eapply passChunks_rand_failure; eassumption.
    + destruct (s_sync env pass).
      * injection H as _ <-. apply in_app_or in Hin. destruct Hin as [Hin|[Hin|[]]].
        -- eapply passChunks_rand_failure in Hp; [discriminate | exact Hin].
        -- discriminate.
      * apply emit_some in H. destruct H as (tr & H & ->).
        apply in_app_or in Hin. destruct Hin as [Hin|Hin].
        -- apply in_app_or in Hin. destruct Hin as [Hin|[Hin|[]]].
           ++ eapply passChunks_rand_failure in Hp; [discriminate | exact Hin].
           ++ discriminate.
        -- eapply IH; eassumption.
Qed.

(** On chaff.go, a failure of the randomness source during the third pass
    ends [shredFile] with that error, and the file is not removed. *)
Lemma shredFile_entropy_failure (fuel : nat) (env : shred_env) (path : string)
    (err : option error) (t : trace) (len : Z) (e : error) :
  shredFile fuel env path = Some (err, t) ->
  In (EvRand len (Some e)) t ->
  err = Some e /\ existsb is_remove t = false.
Proof.
  unfold shredFile. destruct (s_open env).
  { intros H. injection H as _ <-. intros [Hin|[Hin|[]]]; discriminate. }
  destruct (s_stat env).
  { intros H. injection H as _ <-. cbn.
    intros Hin. repeat (destruct Hin as [Hin|Hin]; [discriminate|]). destruct Hin. }
  cbv zeta. destruct (s_size env =? 0).
  { intros H. injection H as _ <-. cbn.
    intros Hin. repeat (destruct Hin as [Hin|Hin]; [discriminate|]). destruct Hin. }
  intros H. apply emit_some in H. destruct H as (t' & H & ->).
  intros [Hin|[Hin|Hin]]; [discriminate ..|]. cbn [app] in Hin.
  destruct (runPasses fuel env path passes (make_bytes chunkSize) (s_size env))
    as [[r tp]|] eqn:Hp; [|discriminate].
  assert (Hin' : In (EvRand len (Some e)) tp).
  { destruct r as [e'|buf']; [|destruct (s_close env)]; injection H as _ <-;
      apply in_app_or in Hin; destruct Hin as [Hin|Hin]; try exact Hin;
      absent_event Hin. }
  pose proof (runPasses_rand_failure env path fuel _ _ _ _ _ _ _ Hp Hin') as ->.
  injection H as <- <-. split; [reflexivity|].
  apply runPasses_no_remove in Hp.
  cbn [app existsb is_remove orb]. rewrite existsb_remove_app, Hp. reflexivity.
Qed.

(** On chaff.go, the writes of the third pass each send a draw made for
    them, also when the pass fails. *)
Lemma passChunks_random_fresh (env : shred_env) (path : string) :
  forall fuel k buf remaining r t,
    passChunks fuel env path 2 k buf remaining = Some (r, t) ->
    fresh_writes k None t = true.
Proof.
  intros fuel. induction fuel as [|fuel IH]; intros k buf rem r t.
  - cbn [passChunks]. destruct (rem >? 0); [discriminate|].
    intros H. injection H as _ <-. reflexivity.
  - cbn [passChunks]. destruct (rem >? 0) eqn:E.
    2:{ intros H. injection H as _ <-. reflexivity. }
    apply Z.gtb_lt in E. cbv zeta. rewrite toWrite_eq.
    pose proof chunkSize_value as Hc.
    set (l := Z.min rem chunkSize). assert (Hl : 0 < l) by (unfold l; lia).
    cbn [fillPass]. destruct (s_rand env k) as [e|].
    { intros H. injection H as _ <-. reflexivity. }
    rewrite take_fill_prefix by exact Hl.
    destruct (s_write env 2%nat k l) as [n werr]. cbn [app].
    assert (Hhead : forall t', fresh_writes k None
                      (EvRand l None :: EvWrite [(l, Random k)] n werr :: t')
                    = fresh_writes (S k) None t').
    { intros t'. cbn [fresh_writes]. rewrite Z.eqb_refl, Nat.eqb_refl. reflexivity. }
    destruct werr as [werr'|].
    { intros H. injection H as _ <-. rewrite Hhead. reflexivity. }
    destruct (negb (n =? l)).
    { intros H. injection H as _ <-. rewrite Hhead. reflexivity. }
    intros H. apply emit_some in H. destruct H as (t' & H & ->).
    cbn [app]. rewrite Hhead. eapply IH. exact H.
Qed.

End Shred.

(* ================================================================= *)
(** ** Randomness in generateChaffFile *)

Section GenerateEntropy.

Import Chaff.

(** A failed [rand.Read] ends the loop with its error, and every write of
    the loop sends a draw made for it. *)
Lemma writeChunks_entropy (env : gen_env) :
  forall fuel k availableSpace sizeBytes bytesWritten ex t,
    0 <= bytesWritten -> sizeBytes < 2 ^ 64 ->
    writeChunks fuel env k availableSpace sizeBytes bytesWritten = Some (ex, t) ->
    fresh_writes k None t = true /\
    (forall len e, In (EvRand len (Some e)) t ->
                   exists r, ex = Return r /\ gen_err r = Some e).
Proof.
  intros fuel. induction fuel as [|fuel IH]; intros k A size bw ex t Hbw Hs.
  - cbn [writeChunks]. destruct (bw <? size); [discriminate|].
    intros H. injection H as <- <-. split; [reflexivity | intros ? ? []].
  - cbn [writeChunks]. destruct (bw <? size) eqn:E.
    2:{ intros H. injection H as <- <-. split; [reflexivity | intros ? ? []]. }
    apply Z.ltb_lt in E. cbv zeta. rewrite currentChunk_eq by lia.
    pose proof chunkSize_value as Hc.
    set (l := Z.min (size - bw) chunkSize). assert (Hl : 0 < l) by (unfold l; lia).
    destruct (g_rand env k) as [rerr|].
    { intros H. injection H as <- <-. split; [reflexivity|].
      intros len e [Hin|[]]. injection Hin as _ ->. eauto. }
    rewrite fill_make_bytes by exact Hl.
    destruct (g_write env k l) as [written werr].
    assert (Hhead : forall t', fresh_writes k None
                      (EvRand l None :: EvWrite [(l, Random k)] written werr :: t')
                    = fresh_writes (S k) None t').
    { intros t'. cbn [fresh_writes]. rewrite Z.eqb_refl, Nat.eqb_refl. reflexivity. }
    destruct werr as [werr'|].
    { intros H. injection H as <- <-. split; [rewrite Hhead; reflexivity|].
      intros len e [Hin|[Hin|[]]]; discriminate. }
    intros H. apply emit_some in H. destruct H as (t' & H & ->).
    apply IH in H; [|unfold wrap64; apply Z.mod_pos_bound; lia | exact Hs].
    destruct H as [Hf Hr]. cbn [app]. split; [rewrite Hhead; exact Hf|].
    intros len e [Hin|[Hin|Hin]]; [discriminate ..|]. eapply Hr. exact Hin.
Qed.

(** On chaff.go, a failure of the randomness source ends
    [generateChaffFile] with that error. *)
Lemma generateChaffFile_entropy_failure (fuel : nat) (env : gen_env) (filename : string)
    (sizeMB availableSpace : Z) (r : gen_result) (t : trace) (len : Z) (e : error) :
  is_u64 availableSpace ->
  generateChaffFile fuel env filename sizeMB availableSpace = Some (r, t) ->
  In (EvRand len (Some e)) t ->
  gen_err r = Some e.
Proof.
  intros HA. pose proof (effectiveSize_range sizeMB availableSpace HA) as Hrange.
  unfold generateChaffFile. cbv zeta.
  set (size := effectiveSize sizeMB availableSpace) in *.
  destruct (size =? 0).
  { intros H. injection H as <- <-. intros []. }
  destruct (g_create env).
  { intros H. injection H as <- <-. intros [Hin|[]]. discriminate. }
  intros H. apply emit_some in H. destruct H as (t' & H & ->).
  intros [Hin|Hin]; [discriminate|]. cbn [app] in Hin.
  destruct (writeChunks fuel env 0 availableSpace size 0) as [[ex tw]|] eqn:Hloop;
    [|discriminate].
  apply writeChunks_entropy in Hloop; [|lia | unfold is_u64 in HA; lia].
  destruct Hloop as [_ Hr].
  assert (Hin' : In (EvRand len (Some e)) tw).
  { destruct ex as [r'|w]; [|destruct (g_sync env)]; injection H as _ <-;
      apply in_app_or in Hin; destruct Hin as [Hin|Hin]; try exact Hin;
      absent_event Hin. }
  destruct (Hr len e Hin') as (r' & -> & Hre). injection H as <- _. exact Hre.
Qed.

End GenerateEntropy.

(* ================================================================= *)
(** ** The raw-syscall shredder against the same properties *)

Section LowLevelShred.

(** C2: evaluation at the failing input, a file of 2 MiB on an OS that does
    not fail.  The passes come in the order 0xFF, 0x00, random, each
    followed by an fsync, but the third pass reads the randomness source
    once, before its first chunk, and writes the same 1 MiB of that one
    draw as the first and as the second chunk. *)
Theorem lowlevel_random_pass_reuses_draw :
  LowLevel.shredFile 2 (LowLevel.shred_all_ok (2 * MiB)) "chaff/chaff_000000.dat"
  = Some (None,
          [EvOpen "chaff/chaff_000000.dat" None; EvStat None;
           EvSeek None;
           EvWrite [(1048576, Pattern 255)] 1048576 None;
           EvWrite [(1048576, Pattern 255)] 1048576 None;
           EvSync None;
           EvSeek None;
           EvWrite [(1048576, Pattern 0)] 1048576 None;
           EvWrite [(1048576, Pattern 0)] 1048576 None;
           EvSync None;
           EvOpen "/dev/urandom" None; EvRead 1048576 1048576 None;
           EvClose "/dev/urandom" None;
           EvSeek None;
           EvWrite [(1048576, Random 2)] 1048576 None;
           EvWrite [(1048576, Random 2)] 1048576 None;
           EvSync None;
           EvClose "chaff/chaff_000000.dat" None;
           EvRemove "chaff/chaff_000000.dat" None;
           EvClose "chaff/chaff_000000.dat" (Some ErrClosed)]).
Proof. vm_compute. reflexivity. Qed.

(** chaff.go on the same file: a draw for each chunk of the third pass. *)
Example chaff_random_pass_draws :
  Chaff.shredFile 2 (Chaff.shred_all_ok (2 * MiB)) "chaff/chaff_000000.dat"
  = Some (None,
          [EvOpen "chaff/chaff_000000.dat" None; EvStat None;
           EvSeek None;
           EvWrite [(1048576, Pattern 255)] 1048576 None;
           EvWrite [(1048576, Pattern 255)] 1048576 None;
           EvSync None;
           EvSeek None;
           EvWrite [(1048576, Pattern 0)] 1048576 None;
           EvWrite [(1048576, Pattern 0)] 1048576 None;
           EvSync None;
           EvSeek None;
           EvRand 1048576 None; EvWrite [(1048576, Random 0)] 1048576 None;
           EvRand 1048576 None; EvWrite [(1048576, Random 1)] 1048576 None;
           EvSync None;
           EvClose "chaff/chaff_000000.dat" None;
           EvRemove "chaff/chaff_000000.dat" None;
           EvClose "chaff/chaff_000000.dat" (Some ErrClosed)]).
Proof. vm_compute. reflexivity. Qed.

(** C6: evaluation at the failing input.  The write that returns 1 where 2
    bytes were asked for does not end the pass: the loop goes on with the
    byte that is left, the other passes follow, the file is removed and the
    call returns no error. *)
Theorem lowlevel_short_write_not_fatal :
  LowLevel.shredFile 3 lowlevel_short_first_write "chaff/chaff_000000.dat"
  = Some (None,
          [EvOpen "chaff/chaff_000000.dat" None; EvStat None;
           EvSeek None;
           EvWrite [(2, Pattern 255)] 1 None;
           EvWrite [(1, Pattern 255)] 1 None;
           EvSync None;
           EvSeek None;
           EvWrite [(2, Pattern 0)] 2 None;
           EvSync None;
           EvOpen "/dev/urandom" None; EvRead 1048576 1048576 None;
           EvClose "/dev/urandom" None;
           EvSeek None;
           EvWrite [(2, Random 2)] 2 None;
           EvSync None;
           EvClose "chaff/chaff_000000.dat" None;
           EvRemove "chaff/chaff_000000.dat" None;
           EvClose "chaff/chaff_000000.dat" (Some ErrClosed)]).
Proof. vm_compute. reflexivity. Qed.

(** chaff.go on the same answers of the OS: the call ends with the
    short-write error after that write, and the file stays. *)
Example chaff_short_write_fatal :
  Chaff.shredFile 3 chaff_short_first_write "chaff/chaff_000000.dat"
  = Some (Some (ShortWriteShredding "chaff/chaff_000000.dat"),
          [EvOpen "chaff/chaff_000000.dat" None; EvStat None;
           EvSeek None;
           EvWrite [(2, Pattern 255)] 1 None;
           EvClose "chaff/chaff_000000.dat" None]).
Proof. vm_compute. reflexivity. Qed.

(** C8: evaluation at the failing input.  The error of [readUrandom] is
    dropped: the third pass writes the buffer as the second pass left it,
    4096 zero bytes, the file is removed and the call returns no error. *)
Theorem lowlevel_entropy_failure_ignored :
  LowLevel.shredFile 3 lowlevel_no_urandom "chaff/chaff_000000.dat"
  = Some (None,
          [EvOpen "chaff/chaff_000000.dat" None; EvStat None;
           EvSeek None;
           EvWrite [(4096, Pattern 255)] 4096 None;
           EvSync None;
           EvSeek None;
           EvWrite [(4096, Pattern 0)] 4096 None;
           EvSync None;
           EvOpen "/dev/urandom" (Some (Errno 24));
           EvSeek None;
           EvWrite [(4096, Pattern 0)] 4096 None;
           EvSync None;
           EvClose "chaff/chaff_000000.dat" None;
           EvRemove "chaff/chaff_000000.dat" None;
           EvClose "chaff/chaff_000000.dat" (Some ErrClosed)]).
Proof. vm_compute. reflexivity. Qed.

End LowLevelShred.

(* ================================================================= *)
(** ** File names *)

Section Names.

Import Chaff.
Open Scope string_scope.

Lemma of_uint_D0 (u : Decimal.uint) : Nat.of_uint (Decimal.D0 u) = Nat.of_uint u.
Proof. reflexivity. Qed.

Lemma read_digits_zeros (a : nat) (s : string) :
  read_digits (zeros a ++ s) = read_digits s.
Proof.
  induction a as [|a IH]; [reflexivity|].
  cbn [zeros append]. unfold read_digits in *. cbn [NilEmpty.uint_of_string].
  rewrite <- IH.
  destruct (NilEmpty.uint_of_string (zeros a ++ s)) as [u|]; [|reflexivity].
  change (uint_of_char "0" (Some u)) with (Some (Decimal.D0 u)).
  cbn [option_map]. rewrite of_uint_D0. reflexivity.
Qed.

(** The digits of [%06d] read back as the number printed. *)
Lemma read_digits_fmt_06d (n : nat) : read_digits (fmt_06d n) = Some n.
Proof.
  unfold fmt_06d. cbv zeta. rewrite read_digits_zeros.
  pose proof (Unsigned.of_to n) as Hn.
  unfold read_digits, NilZero.string_of_uint.
  destruct (Nat.to_uint n) eqn:E;
    [cbn in *; congruence | rewrite NilEmpty.usu; cbn [option_map]; congruence ..].
Qed.

Lemma append_length (s t : string) :
  String.length (s ++ t) = (String.length s + String.length t)%nat.
Proof. induction s as [|c s IH]; cbn; [reflexivity | rewrite IH; reflexivity]. Qed.

Lemma append_inv_tail (t : string) :
  forall s1 s2 : string, s1 ++ t = s2 ++ t -> s1 = s2.
Proof.
  induction s1 as [|c1 s1 IH]; intros [|c2 s2] H.
  - reflexivity.
  - apply (f_equal String.length) in H. cbn in H. rewrite append_length in H. lia.
  - apply (f_equal String.length) in H. cbn in H. rewrite append_length in H. lia.
  - cbn in H. injection H as -> H. f_equal. apply IH. exact H.
Qed.

(** The numbered names are pairwise distinct. *)
Lemma regularName_inj (n m : nat) : regularName n = regularName m -> n = m.
Proof.
  unfold regularName, joinOutputDir, filePrefix. cbn [append]. intros H.
  injection H as H. apply append_inv_tail in H.
  apply (f_equal read_digits) in H. rewrite !read_digits_fmt_06d in H.
  congruence.
Qed.

(** The sentinel name is none of the numbered names. *)
Lemma finalName_not_regular (n : nat) : finalName <> regularName n.
Proof.
  unfold finalName, regularName, joinOutputDir, filePrefix. cbn [append]. intros H.
  injection H as H. change "FINAL.dat" with ("FINAL" ++ ".dat") in H.
  apply append_inv_tail in H.
  apply (f_equal read_digits) in H. rewrite read_digits_fmt_06d in H.
  discriminate H.
Qed.

End Names.

(* ================================================================= *)
(** ** The fill loop *)

Section Fill.

Import Chaff.

Lemma writeChunks_return_error (env : gen_env) :
  forall fuel k availableSpace sizeBytes bytesWritten r t,
    writeChunks fuel env k availableSpace sizeBytes bytesWritten = Some (Return r, t) ->
    gen_err r <> None.
Proof.
  intros fuel. induction fuel as [|fuel IH]; intros k A size bw r t.
  - cbn [writeChunks]. destruct (bw <? size); discriminate.
  - cbn [writeChunks]. destruct (bw <? size); [|discriminate]. cbv zeta.
    destruct (g_rand env k).
    { intros H. injection H as <- _. discriminate. }
    destruct (g_write env k _) as [written werr]. destruct werr.
    { intros H. injection H as <- _. discriminate. }
    intros H. apply emit_some in H. destruct H as (t' & H & _).
    eapply IH. exact H.
Qed.

(** A call that returns no error returns the space available less the size
    it set out to write. *)
Lemma generateChaffFile_no_error (fuel : nat) (env : gen_env) (filename : string)
    (sizeMB available : Z) (r : gen_result) (t : trace) :
  is_u64 available ->
  generateChaffFile fuel env filename sizeMB available = Some (r, t) ->
  gen_err r = None ->
  remainingSpace r = available - effectiveSize sizeMB available.
Proof.
  intros HA. pose proof (effectiveSize_range sizeMB available HA) as Hrange.
  unfold generateChaffFile. cbv zeta.
  set (size := effectiveSize sizeMB available) in *.
  destruct (size =? 0) eqn:E.
  { apply Z.eqb_eq in E. intros H _. injection H as <- _. cbn. lia. }
  destruct (g_create env).
  { intros H. injection H as <- _. discriminate. }
  intros H. apply emit_some in H. destruct H as (t' & H & _).
  destruct (writeChunks fuel env 0 available size 0) as [[[r'|w] tw]|] eqn:Hloop;
    [| |discriminate].
  - injection H as <- _. intros Hn.
    apply writeChunks_return_error in Hloop. contradiction.
  - destruct (g_sync env); injection H as <- _; [discriminate|].
    intros _. cbn. apply wrap64_small. unfold is_u64 in *. lia.
Qed.

Lemma sizeBytes_of_fileSizeMB : sizeBytes_of fileSizeMB = 100 * MiB.
Proof. reflexivity. Qed.

Lemma sizeBytes_of_one : sizeBytes_of 1 = MiB.
Proof. reflexivity. Qed.

Lemma lowSpace_value : lowSpace = 10485760.
Proof. reflexivity. Qed.

Lemma MiB_value : MiB = 1048576.
Proof. reflexivity. Qed.

(** What a turn that goes on to the next did. *)
Lemma fillStep_continue (genfuel : nat) (envs : nat -> gen_env) (st st' : fill_state) :
  fillStep genfuel envs st = Some (LoopContinue st') ->
  lowSpace <= availableSpace st /\
  exists r t,
    generateChaffFile genfuel (envs (fileCount st)) (regularName (fileCount st))
      fileSizeMB (availableSpace st) = Some (r, t) /\
    let a := {| a_name := regularName (fileCount st); a_sizeMB := fileSizeMB;
                a_avail := availableSpace st; a_result := r; a_trace := t |} in
    attempts st' = attempts st ++ [a] /\
    fileCount st' = S (fileCount st) /\
    createdFiles st' =
      (if appended a then createdFiles st ++ [a_name a] else createdFiles st) /\
    availableSpace st' =
      (if is_err (gen_err r) then availableSpace st else remainingSpace r).
Proof.
  intros H. unfold fillStep in H.
  destruct (availableSpace st >? 0); [|discriminate]. cbv zeta in H.
  destruct (availableSpace st <? lowSpace) eqn:E.
  { destruct (generateChaffFile _ _ _ _ _) as [[r t]|]; discriminate. }
  apply Z.ltb_ge in E. split; [exact E|].
  destruct (generateChaffFile genfuel (envs (fileCount st)) (regularName (fileCount st))
              fileSizeMB (availableSpace st)) as [[r t]|]; [|discriminate].
  exists r, t. split; [reflexivity|]. unfold appended. cbn [a_result a_name].
  destruct (gen_err r); injection H as <-; cbn; auto.
Qed.

(** What the turn of the final file did. *)
Lemma fillStep_break (genfuel : nat) (envs : nat -> gen_env) (st st' : fill_state) :
  fillStep genfuel envs st = Some (LoopBreak st') ->
  0 < availableSpace st < lowSpace /\
  exists r t,
    generateChaffFile genfuel (envs (fileCount st)) finalName 1 (availableSpace st)
    = Some (r, t) /\
    let a := {| a_name := finalName; a_sizeMB := 1;
                a_avail := availableSpace st; a_result := r; a_trace := t |} in
    attempts st' = attempts st ++ [a] /\
    fileCount st' = fileCount st /\
    createdFiles st' =
      (if appended a then createdFiles st ++ [a_name a] else createdFiles st) /\
    availableSpace st' = remainingSpace r.
Proof.
  intros H. unfold fillStep in H.
  destruct (availableSpace st >? 0) eqn:E0; [|discriminate]. cbv zeta in H.
  apply Z.gtb_lt in E0.
  destruct (availableSpace st <? lowSpace) eqn:E.
  2:{ destruct (generateChaffFile _ _ _ _ _) as [[r t]|]; [|discriminate].
      destruct (gen_err r); discriminate. }
  apply Z.ltb_lt in E. split; [lia|].
  destruct (generateChaffFile genfuel (envs (fileCount st)) finalName 1
              (availableSpace st)) as [[r t]|]; [|discriminate].
  exists r, t. split; [reflexivity|]. unfold appended. cbn [a_result a_name].
  injection H as <-. cbn. destruct (gen_err r); cbn; auto.
Qed.

(** The two invariants of the head of a turn: the list of created files is
    the names of the calls that returned no error and a positive count, and
    the calls made so far are those for the numbers below the counter. *)
Lemma loop_head_invariant (genfuel : nat) (envs : nat -> gen_env) (available : Z)
    (st : fill_state) :
  loop_head genfuel envs (initState available) st ->
  createdFiles st = map a_name (filter appended (attempts st)) /\
  map a_name (attempts st) = map regularName (seq 0 (fileCount st)).
Proof.
  induction 1 as [|st st' _ [IHc IHn] Hstep]; [split; reflexivity|].
  apply fillStep_continue in Hstep.
  destruct Hstep as (_ & r & t & _ & Ha & Hf & Hc & _). cbv zeta in *.
  rewrite Ha, Hf, Hc, filter_app, !map_app, seq_S, map_app, <- IHc, <- IHn.
  cbn [filter map Nat.add]. split; [|reflexivity].
  destruct (appended _); cbn [map]; [reflexivity | rewrite app_nil_r; reflexivity].
Qed.

Lemma reachable_invariant (genfuel : nat) (envs : nat -> gen_env) (available : Z)
    (st : fill_state) :
  reachable genfuel envs (initState available) st ->
  createdFiles st = map a_name (filter appended (attempts st)) /\
  NoDup (map a_name (attempts st)).
Proof.
  assert (Hnd : forall n, NoDup (map regularName (seq 0 n))).
  { intros n. apply Injective_map_NoDup; [|apply seq_NoDup].
    intros x y. apply regularName_inj. }
  intros [st' Hh | st' st'' Hh Hstep].
  - apply loop_head_invariant in Hh. destruct Hh as [Hc Hn].
    split; [exact Hc|]. rewrite Hn. apply Hnd.
  - apply loop_head_invariant in Hh. destruct Hh as [IHc IHn].
    apply fillStep_break in Hstep.
    destruct Hstep as (_ & r & t & _ & Ha & Hf & Hc & _). cbv zeta in *.
    rewrite Ha, Hc, filter_app, !map_app, <- IHc, IHn. cbn [filter map]. split.
    + destruct (appended _); cbn [map]; [reflexivity | rewrite app_nil_r; reflexivity].
    + apply NoDup_app; [apply Hnd | repeat constructor; intros [] |].
      intros x Hx [Hy|[]]. subst x.
      apply in_map_iff in Hx. destruct Hx as (n & Hx & _).
      symmetry in Hx. exact (finalName_not_regular n Hx).
Qed.

Lemma NoDup_map_eq {A B : Type} (f : A -> B) (l : list A) (x y : A) :
  NoDup (map f l) -> In x l -> In y l -> f x = f y -> x = y.
Proof.
  induction l as [|a l IH]; cbn [map]; [intros _ []|].
  intros Hnd [Hx|Hx] [Hy|Hy] Hxy.
  - congruence.
  - subst a. apply NoDup_cons_iff in Hnd. destruct Hnd as [Hnot _].
    exfalso. apply Hnot. rewrite Hxy. apply in_map. exact Hy.
  - subst a. apply NoDup_cons_iff in Hnd. destruct Hnd as [Hnot _].
    exfalso. apply Hnot. rewrite <- Hxy. apply in_map. exact Hx.
  - apply NoDup_cons_iff in Hnd. destruct Hnd as [_ Hnd]. auto.
Qed.

(** C7: in every state of the fill loop the list of created files holds
    exactly the names of the calls that returned no error and a count above
    zero, in the order of the calls: every path in it comes from such a
    call, and the path of a call that wrote zero bytes is not in it. *)
Theorem createdFiles_only_written :
  forall (genfuel : nat) (envs : nat -> gen_env) (available : Z) (st : fill_state),
    reachable genfuel envs (initState available) st ->
    createdFiles st = map a_name (filter appended (attempts st)) /\
    (forall p, In p (createdFiles st) ->
               exists a, In a (attempts st) /\ a_name a = p /\
                         gen_err (a_result a) = None /\
                         0 < bytesWritten (a_result a)) /\
    (forall a, In a (attempts st) -> bytesWritten (a_result a) = 0 ->
               ~ In (a_name a) (createdFiles st)).
Proof.
  intros genfuel envs available st Hr.
  apply reachable_invariant in Hr. destruct Hr as [Hc Hnd].
  assert (Happ : forall a, appended a = true ->
                           gen_err (a_result a) = None /\ 0 < bytesWritten (a_result a)).
  { intros a Ha. unfold appended in Ha. apply andb_true_iff in Ha.
    destruct Ha as [He Hb]. apply Z.gtb_lt in Hb.
    destruct (gen_err (a_result a)); [discriminate | auto]. }
  split; [exact Hc|]. split.
  - intros p Hp. rewrite Hc in Hp. apply in_map_iff in Hp.
    destruct Hp as (a & Hn & Hin). apply filter_In in Hin. destruct Hin as [Hin Ha].
    exists a. destruct (Happ a Ha). auto.
  - intros a Hin Hz Hp. rewrite Hc in Hp. apply in_map_iff in Hp.
    destruct Hp as (a' & Hn & Hin'). apply filter_In in Hin'.
    destruct Hin' as [Hin' Ha'].
    assert (a' = a) by (eapply NoDup_map_eq; eassumption). subst a'.
    destruct (Happ a Ha'). lia.
Qed.

Lemma createdFiles_only_written_witness :
  exists st,
    reachable 2 (fun _ => gen_all_ok) (initState (8 * MiB)) st /\
    createdFiles st = [finalName] /\
    createdFiles st = map a_name (filter appended (attempts st)).
Proof.
  eexists. split; [|split].
  - eapply reach_break; [apply head_init | vm_compute; reflexivity].
  - reflexivity.
  - apply (createdFiles_only_written 2 (fun _ => gen_all_ok) (8 * MiB)).
    eapply reach_break; [apply head_init | vm_compute; reflexivity].
Defined.

(** The state the loop ends in is a state of the loop. *)
Lemma fillLoop_reachable (genfuel : nat) (envs : nat -> gen_env) (st0 : fill_state) :
  forall fuel st st',
    loop_head genfuel envs st0 st ->
    fillLoop fuel genfuel envs st = Some st' ->
    reachable genfuel envs st0 st'.
Proof.
  intros fuel. induction fuel as [|fuel IH]; intros st st' Hh; cbn [fillLoop];
    [discriminate|].
  destruct (fillStep genfuel envs st) as [[|stb|stc]|] eqn:Hstep; [| | |discriminate].
  - intros H. injection H as <-. apply reach_head. exact Hh.
  - intros H. injection H as <-. eapply reach_break; eassumption.
  - apply IH. eapply head_continue; eassumption.
Qed.



(** A turn of the loop with the space at or above the bound, when the call
    returns no error. *)
Lemma fillStep_regular (genfuel : nat) (envs : nat -> gen_env) (st : fill_state) :
  calls_return_without_error genfuel envs ->
  lowSpace <= availableSpace st < 2 ^ 64 ->
  exists st',
    fillStep genfuel envs st = Some (LoopContinue st') /\
    availableSpace st' = availableSpace st - Z.min (100 * MiB) (availableSpace st).
Proof.
  intros Hcalls Ha. pose proof lowSpace_value as Hl.
  assert (Hu : is_u64 (availableSpace st)) by (unfold is_u64; lia).
  destruct (Hcalls (fileCount st) (regularName (fileCount st)) fileSizeMB
              (availableSpace st) Hu (or_intror eq_refl)) as (r & t & Hgen & Herr).
  unfold fillStep.
  destruct (availableSpace st >? 0) eqn:E0.
  2:{ rewrite Z.gtb_ltb in E0. apply Z.ltb_ge in E0. lia. }
  destruct (availableSpace st <? lowSpace) eqn:E.
  { apply Z.ltb_lt in E. lia. }
  cbv zeta. rewrite Hgen, Herr. eexists. split; [reflexivity|]. cbn.
  rewrite (generateChaffFile_no_error _ _ _ _ _ _ _ Hu Hgen Herr).
  rewrite effectiveSize_min, sizeBytes_of_fileSizeMB. reflexivity.
Qed.

(** The turn with the space below the bound, when the call returns. *)
Lemma fillStep_final (genfuel : nat) (envs : nat -> gen_env) (st : fill_state)
    (r : gen_result) (t : trace) :
  0 < availableSpace st < lowSpace ->
  generateChaffFile genfuel (envs (fileCount st)) finalName 1 (availableSpace st)
  = Some (r, t) ->
  exists st',
    fillStep genfuel envs st = Some (LoopBreak st') /\
    attempts st' = attempts st ++
      [{| a_name := finalName; a_sizeMB := 1; a_avail := availableSpace st;
          a_result := r; a_trace := t |}] /\
    fileCount st' = fileCount st /\
    availableSpace st' = remainingSpace r /\
    createdFiles st' =
      (if negb (is_err (gen_err r)) && (bytesWritten r >? 0)
       then createdFiles st ++ [finalName] else createdFiles st).
Proof.
  intros Ha Hgen. unfold fillStep.
  destruct (availableSpace st >? 0) eqn:E0.
  2:{ rewrite Z.gtb_ltb in E0. apply Z.ltb_ge in E0. lia. }
  destruct (availableSpace st <? lowSpace) eqn:E.
  2:{ apply Z.ltb_ge in E. lia. }
  cbv zeta. rewrite Hgen. eexists. split; [reflexivity|]. cbn.
  destruct (gen_err r); cbn; auto.
Qed.

Lemma fillLoop_terminates_from (genfuel : nat) (envs : nat -> gen_env) :
  calls_return_without_error genfuel envs ->
  forall (n : nat) (st : fill_state),
    0 <= availableSpace st <= Z.of_nat n * (100 * MiB) ->
    availableSpace st < 2 ^ 64 ->
    exists st',
      fillLoop (S n) genfuel envs st = Some st' /\
      (availableSpace st' = 0 \/ ends_with_final st').
Proof.
  intros Hcalls. pose proof lowSpace_value as Hl. pose proof MiB_value as Hm.
  induction n as [|n IH]; intros st Ha Hlt.
  - exists st. cbn [fillLoop]. unfold fillStep.
    destruct (availableSpace st >? 0) eqn:E0; [apply Z.gtb_lt in E0; lia|].
    split; [reflexivity | left; lia].
  - destruct (Z.le_gt_cases (availableSpace st) 0) as [Hz|Hpos].
    { exists st. cbn [fillLoop]. unfold fillStep.
      destruct (availableSpace st >? 0) eqn:E0; [apply Z.gtb_lt in E0; lia|].
      split; [reflexivity | left; lia]. }
    destruct (Z.lt_ge_cases (availableSpace st) lowSpace) as [Hlow|Hhigh].
    + assert (Hu : is_u64 (availableSpace st)) by (unfold is_u64; lia).
      destruct (Hcalls (fileCount st) finalName 1 (availableSpace st) Hu
                  (or_introl eq_refl)) as (r & t & Hgen & _).
      destruct (fillStep_final genfuel envs st r t ltac:(lia) Hgen)
        as (st' & Hstep & Hatt & _).
      exists st'. cbn [fillLoop]. rewrite Hstep. split; [reflexivity|].
      right. eexists _, _. split; [exact Hatt|]. split; reflexivity.
    + destruct (fillStep_regular genfuel envs st Hcalls ltac:(lia))
        as (st' & Hstep & Hav).
      destruct (IH st') as (st'' & Hrun & Hend); [lia | lia |].
      exists st''. change (fillLoop (S (S n)) genfuel envs st)
        with (match fillStep genfuel envs st with
              | None => None
              | Some LoopExit => Some st
              | Some (LoopBreak s) => Some s
              | Some (LoopContinue s) => fillLoop (S n) genfuel envs s
              end).
      rewrite Hstep. split; assumption.
Qed.

(** C10: when every call of [generateChaffFile] returns without error, a
    turn of the loop with the space above the bound takes
    [min(100 MiB, space)] from the tracked space, which is more than the
    bound, and the loop ends: within [space / 100 MiB + 2] turns it is left
    with no space or after the call for the final file. *)
Theorem fillLoop_terminates :
  forall (genfuel : nat) (envs : nat -> gen_env) (available : Z),
    is_u64 available ->
    calls_return_without_error genfuel envs ->
    (forall st,
        lowSpace < availableSpace st < 2 ^ 64 ->
        exists st',
          fillStep genfuel envs st = Some (LoopContinue st') /\
          availableSpace st' = availableSpace st - Z.min (100 * MiB) (availableSpace st) /\
          lowSpace < Z.min (100 * MiB) (availableSpace st) /\
          0 <= availableSpace st' < availableSpace st) /\
    exists st,
      fillLoop (Z.to_nat (available / (100 * MiB)) + 2) genfuel envs (initState available)
      = Some st /\
      (availableSpace st = 0 \/ ends_with_final st).
Proof.
  intros genfuel envs available HA Hcalls.
  pose proof lowSpace_value as Hl. pose proof MiB_value as Hm. split.
  - intros st Ha.
    destruct (fillStep_regular genfuel envs st Hcalls ltac:(lia)) as (st' & Hstep & Hav).
    exists st'. split; [exact Hstep|]. split; [exact Hav|]. lia.
  - replace (Z.to_nat (available / (100 * MiB)) + 2)%nat
      with (S (S (Z.to_nat (available / (100 * MiB))))) by lia.
    apply (fillLoop_terminates_from genfuel envs Hcalls); cbn [initState availableSpace];
      [|unfold is_u64 in HA; lia].
    unfold is_u64 in HA. split; [lia|].
    assert (H0 : 0 <= available / (100 * MiB)) by (apply Z.div_pos; lia).
    rewrite Nat2Z.inj_succ, Z2Nat.id by exact H0.
    pose proof (Z.mod_pos_bound available (100 * MiB) ltac:(lia)).
    pose proof (Z.div_mod available (100 * MiB) ltac:(lia)). lia.
Qed.

(** On an OS that never fails, 100 turns of the write loop are enough for
    every call the fill loop makes. *)
Lemma gen_all_ok_calls_return : calls_return_without_error 101 (fun _ => gen_all_ok).
Proof.
  intros k name sizeMB available Hu Hsz.
  destruct (generateChaffFile_succeeds 101 gen_all_ok name sizeMB available Hu
              gen_all_ok_succeeds) as (t & Hgen & _); [|eauto].
  pose proof MiB_value as Hm. pose proof chunkSize_value as Hc.
  assert (Hb : Z.min (sizeBytes_of sizeMB) available <= 100 * MiB).
  { destruct Hsz as [-> | ->];
      [rewrite sizeBytes_of_one | rewrite sizeBytes_of_fileSizeMB]; lia. }
  assert (H0 : 0 <= Z.min (sizeBytes_of sizeMB) available).
  { pose proof (sizeBytes_of_range sizeMB). unfold is_u64 in *. lia. }
  unfold chunkFuel.
  assert (Z.min (sizeBytes_of sizeMB) available / chunkSize <= 100).
  { apply Z.div_le_upper_bound; lia. }
  assert (0 <= Z.min (sizeBytes_of sizeMB) available / chunkSize)
    by (apply Z.div_pos; lia).
  lia.
Qed.

Lemma fillLoop_terminates_witness :
  is_u64 (215 * MiB) /\ calls_return_without_error 101 (fun _ => gen_all_ok) /\
  exists st,
    fillLoop (Z.to_nat (215 * MiB / (100 * MiB)) + 2) 101 (fun _ => gen_all_ok)
      (initState (215 * MiB)) = Some st /\
    (availableSpace st = 0 \/ ends_with_final st).
Proof.
  assert (H : is_u64 (215 * MiB)) by (vm_compute; split; [discriminate | reflexivity]).
  split; [exact H|]. split; [exact gen_all_ok_calls_return|].
  exact (proj2 (fillLoop_terminates 101 (fun _ => gen_all_ok) (215 * MiB) H
                  gen_all_ok_calls_return)).
Defined.

(** C4, amended: with the tracked space positive and strictly below the
    bound of 10 MiB, the loop makes exactly one more call and ends.  The
    call is for the sentinel name, which is none of the numbered names, and
    asks for 1 MiB: the file takes [min(1 MiB, space)] bytes, not all the
    space that is left.  With the space at the bound or above, the loop
    does not take this branch. *)
Theorem fillStep_final_file :
  forall (genfuel : nat) (envs : nat -> gen_env) (st : fill_state),
    0 < availableSpace st < lowSpace ->
    (2 <= genfuel)%nat ->
    full_or_error (g_write (envs (fileCount st))) ->
    (forall n, finalName <> regularName n) /\
    (forall st2 st2', lowSpace <= availableSpace st2 ->
                      fillStep genfuel envs st2 <> Some (LoopBreak st2')) /\
    exists r t st',
      generateChaffFile genfuel (envs (fileCount st)) finalName 1 (availableSpace st)
      = Some (r, t) /\
      fillStep genfuel envs st = Some (LoopBreak st') /\
      (forall fuel, fillLoop (S fuel) genfuel envs st = Some st') /\
      attempts st' = attempts st ++
        [{| a_name := finalName; a_sizeMB := 1; a_avail := availableSpace st;
            a_result := r; a_trace := t |}] /\
      availableSpace st' = availableSpace st - bytesWritten r /\
      (gen_err r = None ->
       bytesWritten r = Z.min MiB (availableSpace st) /\
       createdFiles st' = createdFiles st ++ [finalName]).
Proof.
  intros genfuel envs st Ha Hfuel Hw.
  pose proof lowSpace_value as Hl. pose proof MiB_value as Hm.
  pose proof chunkSize_value as Hc.
  split; [exact finalName_not_regular|]. split.
  { intros st2 st2' Hge Hstep. apply fillStep_break in Hstep. lia. }
  assert (Hu : is_u64 (availableSpace st)) by (unfold is_u64; lia).
  destruct (generateChaffFile_returns genfuel (envs (fileCount st)) finalName 1
              (availableSpace st) Hu Hw) as (r & t & Hgen).
  { rewrite sizeBytes_of_one. unfold chunkFuel.
    assert (Z.min MiB (availableSpace st) / chunkSize <= 1)
      by (apply Z.div_le_upper_bound; lia).
    assert (0 <= Z.min MiB (availableSpace st) / chunkSize)
      by (apply Z.div_pos; lia).
    lia. }
  destruct (generateChaffFile_paths _ _ _ _ _ _ _ Hu Hw Hgen) as [Hrem Hok].
  rewrite sizeBytes_of_one in Hok.
  destruct (fillStep_final genfuel envs st r t Ha Hgen)
    as (st' & Hstep & Hatt & _ & Hav & Hcr).
  exists r, t, st'. split; [exact Hgen|]. split; [exact Hstep|]. split.
  { intros fuel. cbn [fillLoop]. rewrite Hstep. reflexivity. }
  split; [exact Hatt|]. split; [lia|].
  intros Hnone. specialize (Hok Hnone). split; [exact Hok|].
  rewrite Hcr, Hnone. cbn [is_err negb andb].
  destruct (bytesWritten r >? 0) eqn:E; [reflexivity|].
  rewrite Z.gtb_ltb in E. apply Z.ltb_ge in E. lia.
Qed.

(** The scenario of 8 MiB: the sentinel file gets 1 MiB and 7 MiB stay. *)
Lemma fillStep_final_file_witness :
  0 < availableSpace (initState (8 * MiB)) < lowSpace /\
  exists r t st',
    generateChaffFile 2 gen_all_ok finalName 1 (8 * MiB) = Some (r, t) /\
    fillStep 2 (fun _ => gen_all_ok) (initState (8 * MiB)) = Some (LoopBreak st') /\
    bytesWritten r = MiB /\
    availableSpace st' = 7 * MiB /\
    createdFiles st' = [finalName].
Proof.
  assert (Ha : 0 < availableSpace (initState (8 * MiB)) < lowSpace)
    by (vm_compute; split; reflexivity).
  split; [exact Ha|].
  destruct (fillStep_final_file 2 (fun _ => gen_all_ok) (initState (8 * MiB)) Ha
              (le_n 2) (fun k len _ => eq_refl))
    as (_ & _ & r & t & st' & Hgen & Hstep & _ & _ & Hav & Hok).
  exists r, t, st'. split; [exact Hgen|]. split; [exact Hstep|].
  assert (Hr : gen_err r = None /\ bytesWritten r = MiB).
  { vm_compute in Hgen. injection Hgen as <- _. split; reflexivity. }
  destruct Hr as [Hnone Hb]. destruct (Hok Hnone) as [_ Hcr].
  split; [exact Hb|]. split.
  - rewrite Hav, Hb. reflexivity.
  - exact Hcr.
Defined.

(** C4 as stated fails: with 8 MiB left on an OS that never fails the
    sentinel file takes 1 MiB, not the 8 MiB that are left; and with
    exactly 10 MiB left the one file written is the numbered one. *)
Lemma final_file_counterexample :
  ~ final_file_consumes_rest 101 (fun _ => gen_all_ok) (8 * MiB) /\
  ~ final_file_consumes_rest 101 (fun _ => gen_all_ok) lowSpace.
Proof.
  split.
  - intros (fuel & st & a & Hrun & Hatt & _ & Hbytes).
    destruct fuel as [|fuel]; vm_compute in Hrun; [discriminate|].
    injection Hrun as <-.
    cbn in Hatt. injection Hatt as <-. vm_compute in Hbytes. discriminate.
  - intros (fuel & st & a & Hrun & Hatt & Hname & _).
    destruct fuel as [|[|fuel]]; vm_compute in Hrun; [discriminate | discriminate |].
    injection Hrun as <-.
    cbn in Hatt. injection Hatt as <-. vm_compute in Hname. discriminate.
Qed.

End Fill.

(* ================================================================= *)
(** ** Scenarios *)

Section Scenarios.

Import Chaff.

(** 25 MiB available: one numbered file of 25 MiB, then no space is left
    and the loop ends with one created file. *)
Example fill_25_MiB :
  option_map (fun st => (availableSpace st, fileCount st, createdFiles st,
                         map (fun a => bytesWritten (a_result a)) (attempts st)))
    (fillLoop 2 101 (fun _ => gen_all_ok) (initState (25 * MiB)))
  = Some (0, 1%nat, [regularName 0], [25 * MiB]).
Proof. vm_compute. reflexivity. Qed.

(** A request of 10 MiB with no space available: [(0, 0, nil)] and no file. *)
Example generate_without_space :
  generateChaffFile 0 gen_all_ok (regularName 0) 10 0
  = Some ({| remainingSpace := 0; bytesWritten := 0; gen_err := None |}, []).
Proof. reflexivity. Qed.

(** A file of 3 MiB: three passes of 3 MiB each, 9 MiB written, file
    removed, no error. *)
Example shred_3_MiB :
  option_map (fun r => (fst r, bytes_committed (snd r), syncs_done (snd r),
                        existsb is_remove (snd r)))
    (shredFile 4 (shred_all_ok (3 * MiB)) (regularName 0))
  = Some (None, 9 * MiB, 3%nat, true).
Proof. vm_compute. reflexivity. Qed.

(** An empty file is removed at once, with no pass. *)
Example shred_empty :
  shredFile 0 (shred_all_ok 0) (regularName 0)
  = Some (None,
          [EvOpen (regularName 0) None; EvStat None; EvClose (regularName 0) None;
           EvRemove (regularName 0) None; EvClose (regularName 0) (Some ErrClosed)]).
Proof. reflexivity. Qed.

(** The call of C5 inside the loop: the file that holds 1 MiB + 512 bytes
    is not put on the list of created files, and the tracked space is not
    changed. *)
Example fill_step_after_failed_write :
  option_map (fun s => match s with
                       | LoopContinue st =>
                           Some (availableSpace st, fileCount st, createdFiles st)
                       | _ => None
                       end)
    (fillStep 101 (fun _ => gen_short_second_write) (initState (300 * MiB)))
  = Some (Some (300 * MiB, 1%nat, [])).
Proof. vm_compute. reflexivity. Qed.

End Scenarios.

(* ================================================================= *)
(** ** formatBytes *)

Section FormatBytes.

Import Format.

(** The loop divides the quotient by 1024 until it is below 1024; [div]
    never overflows, because it stays at or below [bytes].  [m] bounds the
    turns the loop needs. *)
Lemma scaleLoop_spec (bytes : Z) :
  bytes < 2 ^ 64 ->
  forall (m fuel : nat) n div exp,
    (m <= fuel)%nat ->
    0 < div -> n = bytes / div -> 1 <= n ->
    n < 1024 ^ Z.of_nat (S m) ->
    0 <= exp -> exp + Z.of_nat m < 2 ^ 63 ->
    exists j : nat,
      (j <= m)%nat /\
      scaleLoop fuel n div exp = Some (div * 1024 ^ Z.of_nat j, exp + Z.of_nat j) /\
      1 <= bytes / (div * 1024 ^ Z.of_nat j) < 1024.
Proof.
  intros Hb m. induction m as [|m IH]; intros fuel n div exp Hm Hd Hn H1 Hlt He Hex.
  - exists 0%nat. change (1024 ^ Z.of_nat 1) with 1024 in Hlt.
    change (1024 ^ Z.of_nat 0) with 1. rewrite Z.mul_1_r, Z.add_0_r.
    split; [lia|]. split; [|subst n; lia].
    destruct fuel; cbn [scaleLoop];
      (destruct (n >=? 1024) eqn:E; [apply Z.geb_le in E; lia | reflexivity]).
  - destruct (n >=? 1024) eqn:E.
    2:{ exists 0%nat.
        change (1024 ^ Z.of_nat 0) with 1. rewrite Z.mul_1_r, Z.add_0_r.
        split; [lia|]. split.
        - destruct fuel; cbn [scaleLoop]; rewrite E; reflexivity.
        - rewrite Z.geb_leb in E. apply Z.leb_gt in E. subst n. lia. }
    apply Z.geb_le in E.
    destruct fuel as [|fuel]; [lia|]. cbn [scaleLoop].
    destruct (n >=? 1024) eqn:E'; [|rewrite Z.geb_leb in E'; apply Z.leb_gt in E'; lia].
    assert (Hmul : div * 1024 <= bytes).
    { subst n. pose proof (Z.mul_div_le bytes div Hd). nia. }
    rewrite wrap64_small by (unfold is_u64; lia).
    rewrite wrap_i64_small by (unfold is_i64; lia).
    destruct (IH fuel (n / 1024) (div * 1024) (exp + 1)) as (j & Hj & Hrun & Hq).
    + lia.
    + lia.
    + subst n. rewrite Z.div_div by lia. reflexivity.
    + apply Z.div_le_lower_bound; lia.
    + apply Z.div_lt_upper_bound; [lia|].
      rewrite (Nat2Z.inj_succ (S m)), Z.pow_succ_r in Hlt by lia. exact Hlt.
    + lia.
    + lia.
    + exists (S j). rewrite Nat2Z.inj_succ, Z.pow_succ_r by lia.
      split; [lia|]. split.
      * rewrite Hrun. f_equal. f_equal; lia.
      * replace (div * (1024 * 1024 ^ Z.of_nat j)) with (div * 1024 * 1024 ^ Z.of_nat j)
          by lia.
        exact Hq.
Qed.

(** X1: [formatBytes] returns for every [uint64], on five turns of its loop
    at most.  Below 1024 it prints the number and [" B"].  From 1024 on it
    picks the power [1024^(j+1)] with [1024^(j+1) <= bytes < 1024^(j+2)] as
    divisor and the [j]-th letter of ["KMGTPE"] as unit: [j] is at most 5,
    so the index is in range and the divisor does not overflow. *)
Theorem formatBytes_scale :
  forall (fuel : nat) (bytes : Z),
    is_u64 bytes -> (5 <= fuel)%nat ->
    (bytes < 1024 ->
     formatBytes fuel bytes
     = Some (Plain (NilZero.string_of_uint (N.to_uint (Z.to_N bytes)) ++ " B"))) /\
    (1024 <= bytes ->
     exists (j : nat) (letter : ascii),
       (j <= 5)%nat /\
       String.get j "KMGTPE" = Some letter /\
       formatBytes fuel bytes = Some (Scaled bytes (1024 ^ Z.of_nat (S j)) letter) /\
       1024 ^ Z.of_nat (S j) <= bytes < 1024 ^ Z.of_nat (S (S j))).
Proof.
  intros fuel bytes Hu Hfuel. unfold is_u64 in Hu. split.
  - intros Hlt. unfold formatBytes.
    destruct (bytes <? 1024) eqn:E; [reflexivity | apply Z.ltb_ge in E; lia].
  - intros Hge. unfold formatBytes.
    destruct (bytes <? 1024) eqn:E; [apply Z.ltb_lt in E; lia|].
    assert (H1 : 1 <= bytes / 1024) by (apply Z.div_le_lower_bound; lia).
    assert (H2 : bytes / 1024 < 1024 ^ Z.of_nat 6).
    { apply Z.div_lt_upper_bound; [lia|].
      change (1024 * 1024 ^ Z.of_nat 6) with 1180591620717411303424. lia. }
    destruct (scaleLoop_spec bytes (proj2 Hu) 5%nat fuel (bytes / 1024) 1024 0
                Hfuel ltac:(lia) eq_refl H1 H2 (Z.le_refl 0) ltac:(cbn; lia))
      as (j & Hj & Hrun & Hq).
    rewrite Hrun, Z.add_0_l, Nat2Z.id.
    assert (Hpow : 1024 * 1024 ^ Z.of_nat j = 1024 ^ Z.of_nat (S j)).
    { rewrite Nat2Z.inj_succ, Z.pow_succ_r by lia. reflexivity. }
    rewrite Hpow in *.
    assert (Hp : 0 < 1024 ^ Z.of_nat (S j)) by (apply Z.pow_pos_nonneg; lia).
    assert (Hbounds : 1024 ^ Z.of_nat (S j) <= bytes < 1024 ^ Z.of_nat (S (S j))).
    { rewrite (Nat2Z.inj_succ (S j)), Z.pow_succ_r by lia.
      pose proof (Z.mul_div_le bytes _ Hp).
      pose proof (Z.mul_succ_div_gt bytes _ Hp). nia. }
    assert (Hget : exists letter, String.get j "KMGTPE" = Some letter).
    { do 6 (destruct j as [|j]; [cbn; eauto|]). lia. }
    destruct Hget as (letter & Hget). exists j, letter. rewrite Hget. auto.
Qed.

Lemma formatBytes_scale_witness :
  exists (j : nat) (letter : ascii),
    (j <= 5)%nat /\
    String.get j "KMGTPE" = Some letter /\
    formatBytes 5 (300 * MiB)
    = Some (Scaled (300 * MiB) (1024 ^ Z.of_nat (S j)) letter) /\
    1024 ^ Z.of_nat (S j) <= 300 * MiB < 1024 ^ Z.of_nat (S (S j)).
Proof.
  apply (formatBytes_scale 5 (300 * MiB)).
  - vm_compute. split; [discriminate | reflexivity].
  - apply le_n.
  - vm_compute. discriminate.
Defined.

End FormatBytes.

(* ================================================================= *)
(** ** Names and bookkeeping of the fill loop *)

Section FillMore.

Import Chaff.
Open Scope string_scope.

Lemma zeros_length (n : nat) : String.length (zeros n) = n.
Proof. induction n as [|n IH]; cbn; [reflexivity | rewrite IH; reflexivity]. Qed.

(** X2: the counter printed by [%06d] has at least six characters and reads
    back as the counter; so the numbered file names are pairwise distinct,
    and none of them is the name of the final file. *)
Theorem fileNames_distinct :
  forall n m : nat,
    read_digits (fmt_06d n) = Some n /\
    (6 <= String.length (fmt_06d n))%nat /\
    (regularName n = regularName m -> n = m) /\
    regularName n <> finalName.
Proof.
  intros n m. split; [apply read_digits_fmt_06d|]. split; [|split].
  - unfold fmt_06d. cbv zeta. rewrite append_length, zeros_length. lia.
  - apply regularName_inj.
  - intros H. symmetry in H. exact (finalName_not_regular n H).
Qed.

Close Scope string_scope.

(** X3: in every state of the fill loop the calls made so far were for the
    numbered names 0, 1, ... up to the counter, in this order, followed by
    the final name if the loop has taken its last branch: no name was used
    twice, so no call of the run creates (and truncates) the file of an
    earlier one. *)
Theorem attempt_names_distinct :
  forall (genfuel : nat) (envs : nat -> gen_env) (available : Z) (st : fill_state),
    reachable genfuel envs (initState available) st ->
    NoDup (map a_name (attempts st)) /\
    exists last,
      (last = [] \/ last = [finalName]) /\
      map a_name (attempts st) = map regularName (seq 0 (fileCount st)) ++ last.
Proof.
  intros genfuel envs available st Hr.
  split; [apply (reachable_invariant _ _ _ _ Hr)|].
  destruct Hr as [st Hh | st st' Hh Hstep].
  - apply loop_head_invariant in Hh. destruct Hh as [_ Hn].
    exists []. rewrite app_nil_r. auto.
  - apply loop_head_invariant in Hh. destruct Hh as [_ Hn].
    apply fillStep_break in Hstep.
    destruct Hstep as (_ & r & t & _ & Ha & Hf & _). cbv zeta in Ha.
    exists [finalName]. rewrite Ha, Hf, map_app, Hn. auto.
Qed.

Lemma attempt_names_distinct_witness :
  exists st,
    fillLoop 4 101 (fun _ => gen_all_ok) (initState (215 * MiB)) = Some st /\
    NoDup (map a_name (attempts st)) /\
    map a_name (attempts st) = [regularName 0; regularName 1; regularName 2].
Proof.
  eexists. split; [vm_compute; reflexivity|]. split.
  - apply (attempt_names_distinct 101 (fun _ => gen_all_ok) (215 * MiB)).
    eapply fillLoop_reachable with (fuel := 4%nat) (st := initState (215 * MiB));
      [apply head_init | vm_compute; reflexivity].
  - reflexivity.
Defined.

(** The count a call returns lies between 0 and the space it was given. *)
Lemma generateChaffFile_written_range (fuel : nat) (env : gen_env) (filename : string)
    (sizeMB available : Z) (r : gen_result) (t : trace) :
  is_u64 available ->
  full_or_error (g_write env) ->
  generateChaffFile fuel env filename sizeMB available = Some (r, t) ->
  0 <= bytesWritten r <= available.
Proof.
  intros HA Hw.
  pose proof (effectiveSize_range sizeMB available HA) as Hrange.
  unfold generateChaffFile. cbv zeta.
  set (size := effectiveSize sizeMB available) in *.
  destruct (size =? 0).
  { intros H. injection H as <- _. cbn. unfold is_u64 in HA. lia. }
  destruct (g_create env).
  { intros H. injection H as <- _. cbn. unfold is_u64 in HA. lia. }
  intros H. apply emit_some in H. destruct H as (t' & H & _).
  destruct (writeChunks fuel env 0 available size 0) as [[ex tw]|] eqn:Hloop;
    [|discriminate].
  apply (writeChunks_accounting env Hw) in Hloop; [| lia | unfold is_u64 in HA; lia].
  destruct ex as [r'|w].
  - injection H as <- _. lia.
  - subst w. destruct (g_sync env); injection H as <- _; cbn; lia.
Qed.

Lemma charged_bytes_app (l1 l2 : list attempt) :
  charged_bytes (l1 ++ l2) = charged_bytes l1 + charged_bytes l2.
Proof.
  induction l1 as [|a l1 IH]; [reflexivity|].
  change (charged_bytes ((a :: l1) ++ l2))
    with ((if charged a then bytesWritten (a_result a) else 0) + charged_bytes (l1 ++ l2)).
  change (charged_bytes (a :: l1))
    with ((if charged a then bytesWritten (a_result a) else 0) + charged_bytes l1).
  rewrite IH. lia.
Qed.

Lemma regularName_not_final_eqb (n : nat) : String.eqb (regularName n) finalName = false.
Proof.
  apply String.eqb_neq. intros H. symmetry in H. exact (finalName_not_regular n H).
Qed.

(** The bookkeeping of one turn. *)
Lemma fillStep_bookkeeping (genfuel : nat) (envs : nat -> gen_env) (st st' : fill_state) :
  (forall k, full_or_error (g_write (envs k))) ->
  is_u64 (availableSpace st) ->
  fillStep genfuel envs st = Some (LoopContinue st') \/
  fillStep genfuel envs st = Some (LoopBreak st') ->
  0 <= availableSpace st' <= availableSpace st /\
  availableSpace st' + charged_bytes (attempts st') =
  availableSpace st + charged_bytes (attempts st).
Proof.
  intros Hw Hu [Hstep | Hstep].
  - apply fillStep_continue in Hstep.
    destruct Hstep as (_ & r & t & Hgen & Ha & _ & _ & Hav). cbv zeta in Ha.
    destruct (generateChaffFile_paths _ _ _ _ _ _ _ Hu (Hw _) Hgen) as [Hrem _].
    pose proof (generateChaffFile_written_range _ _ _ _ _ _ _ Hu (Hw _) Hgen) as Hrange.
    rewrite Ha, charged_bytes_app, Hav. cbn [charged_bytes fold_right].
    unfold charged. cbn [a_result a_name]. rewrite regularName_not_final_eqb.
    unfold is_u64 in Hu.
    destruct (gen_err r); cbn [is_err negb orb]; lia.
  - apply fillStep_break in Hstep.
    destruct Hstep as (_ & r & t & Hgen & Ha & _ & _ & Hav). cbv zeta in Ha.
    destruct (generateChaffFile_paths _ _ _ _ _ _ _ Hu (Hw _) Hgen) as [Hrem _].
    pose proof (generateChaffFile_written_range _ _ _ _ _ _ _ Hu (Hw _) Hgen) as Hrange.
    rewrite Ha, charged_bytes_app, Hav. cbn [charged_bytes fold_right].
    unfold charged. cbn [a_result a_name]. rewrite String.eqb_refl, orb_true_r.
    lia.
Qed.

Lemma loop_head_bookkeeping (genfuel : nat) (envs : nat -> gen_env) (available : Z)
    (st : fill_state) :
  (forall k, full_or_error (g_write (envs k))) ->
  is_u64 available ->
  loop_head genfuel envs (initState available) st ->
  0 <= availableSpace st <= available /\
  availableSpace st + charged_bytes (attempts st) = available.
Proof.
  intros Hw Hu. induction 1 as [|st st' Hh [IHr IHs] Hstep].
  - cbn. unfold is_u64 in Hu. lia.
  - assert (Hst : is_u64 (availableSpace st)) by (unfold is_u64 in *; lia).
    destruct (fillStep_bookkeeping genfuel envs st st' Hw Hst (or_introl Hstep)). lia.
Qed.

(** X4: the tracked space never leaves the range between 0 and the space
    measured before the loop, so its [uint64] never wraps; at every moment
    it is the measured space less the counts of the calls that returned no
    error (and of the call for the final file). *)
Theorem fill_space_bookkeeping :
  forall (genfuel : nat) (envs : nat -> gen_env) (available : Z) (st : fill_state),
    (forall k, full_or_error (g_write (envs k))) ->
    is_u64 available ->
    reachable genfuel envs (initState available) st ->
    0 <= availableSpace st <= available /\
    availableSpace st + charged_bytes (attempts st) = available.
Proof.
  intros genfuel envs available st Hw Hu [st' Hh | st' st'' Hh Hstep].
  - apply (loop_head_bookkeeping genfuel envs available st' Hw Hu Hh).
  - destruct (loop_head_bookkeeping genfuel envs available st' Hw Hu Hh) as [IHr IHs].
    assert (Hst : is_u64 (availableSpace st')) by (unfold is_u64 in *; lia).
    destruct (fillStep_bookkeeping genfuel envs st' st'' Hw Hst (or_intror Hstep)). lia.
Qed.

Lemma fill_space_bookkeeping_witness :
  exists st,
    fillLoop 4 101 (fun _ => gen_short_second_write) (initState (3 * MiB)) = Some st /\
    availableSpace st = 2 * MiB /\
    availableSpace st + charged_bytes (attempts st) = 3 * MiB.
Proof.
  eexists. split; [vm_compute; reflexivity|]. split; [reflexivity|].
  apply (fill_space_bookkeeping 101 (fun _ => gen_short_second_write) (3 * MiB)).
  - intros _ k len. cbn. destruct (Nat.eqb k 1); cbn; [discriminate | reflexivity].
  - vm_compute. split; [discriminate | reflexivity].
  - eapply fillLoop_reachable with (fuel := 4%nat) (st := initState (3 * MiB));
      [apply head_init | vm_compute; reflexivity].
Defined.

End FillMore.

(* ================================================================= *)
(** ** The writes, the flush and the close of generateChaffFile *)

Section GenerateMore.

Import Chaff.

Lemma chunked_nil : chunked [].
Proof. intros data n err []. Qed.

Lemma chunked_app (t1 t2 : trace) : chunked t1 -> chunked t2 -> chunked (t1 ++ t2).
Proof.
  intros H1 H2 data n err Hin. apply in_app_or in Hin.
  destruct Hin as [Hin|Hin]; [eapply H1 | eapply H2]; exact Hin.
Qed.

Lemma chunked_no_writes (t : trace) : no_writes t = true -> chunked t.
Proof.
  intros H data n err Hin. unfold no_writes in H. rewrite forallb_forall in H.
  apply H in Hin. discriminate Hin.
Qed.

Lemma chunked_write (data : segments) (n : Z) (err : option error) :
  1 <= seg_length data <= chunkSize -> chunked [EvWrite data n err].
Proof. intros H d m e [Hin|[]]. injection Hin as <- _ _. exact H. Qed.

Lemma bytes_requested_app (t1 t2 : trace) :
  bytes_requested (t1 ++ t2) = bytes_requested t1 + bytes_requested t2.
Proof.
  induction t1 as [|e t1 IH]; [reflexivity|].
  destruct e; cbn [app bytes_requested]; rewrite IH; lia.
Qed.

Lemma only_data_app (t1 t2 : trace) :
  only_data (t1 ++ t2) = only_data t1 && only_data t2.
Proof. apply forallb_app. Qed.

(** The writes of the loop: each of one chunk at most, together no more
    than what is left to write. *)
Lemma writeChunks_discipline (env : gen_env) :
  full_or_error (g_write env) ->
  forall fuel k availableSpace sizeBytes bytesWritten ex t,
    0 <= bytesWritten <= sizeBytes -> sizeBytes < 2 ^ 64 ->
    writeChunks fuel env k availableSpace sizeBytes bytesWritten = Some (ex, t) ->
    chunked t /\ bytes_requested t <= sizeBytes - bytesWritten /\ only_data t = true.
Proof.
  intros Hw fuel. induction fuel as [|fuel IH]; intros k A size bw ex t Hbw Hs.
  - cbn [writeChunks]. destruct (bw <? size); [discriminate|].
    intros H. injection H as _ <-. split; [apply chunked_nil|]. cbn. split; [lia | reflexivity].
  - cbn [writeChunks]. destruct (bw <? size) eqn:E.
    2:{ intros H. injection H as _ <-. split; [apply chunked_nil|]. cbn.
        split; [lia | reflexivity]. }
    apply Z.ltb_lt in E. cbv zeta. rewrite currentChunk_eq by lia.
    pose proof chunkSize_value as Hc.
    set (l := Z.min (size - bw) chunkSize). assert (Hl : 0 < l <= chunkSize) by (unfold l; lia).
    destruct (g_rand env k).
    { intros H. injection H as _ <-. split; [apply chunked_no_writes; reflexivity|].
      cbn. split; [lia | reflexivity]. }
    rewrite fill_make_bytes by lia.
    pose proof (Hw k l) as Hk.
    destruct (g_write env k l) as [written werr]. cbn [fst snd] in Hk.
    assert (Hone : chunked [EvRand l None; EvWrite [(l, Random k)] written werr]).
    { apply (chunked_app [EvRand l None]); [apply chunked_no_writes; reflexivity|].
      apply chunked_write. cbn. lia. }
    destruct werr as [werr|].
    { intros H. injection H as _ <-. split; [exact Hone|]. cbn. unfold l. split; [lia | reflexivity]. }
    specialize (Hk eq_refl). subst written.
    intros H. apply emit_some in H. destruct H as (t' & H & ->).
    rewrite (wrap64_small l) in H by (unfold is_u64; lia).
    rewrite wrap64_small in H by (unfold is_u64, l; lia).
    apply IH in H; [|unfold l; lia | lia]. destruct H as (Hch & Hreq & Hod).
    split; [apply chunked_app; assumption|].
    rewrite bytes_requested_app, only_data_app, Hod. cbn. split; [lia | reflexivity].
Qed.

(** X5: [generateChaffFile] writes in chunks: every write asks for at least
    one byte and at most 1 MiB, and all the writes of a call together ask
    for no more than the smaller of the requested size and the space
    available, so never for more than the space available. *)
Theorem generateChaffFile_write_discipline :
  forall (fuel : nat) (env : gen_env) (filename : string) (sizeMB available : Z)
         (r : gen_result) (t : trace),
    is_u64 available ->
    full_or_error (g_write env) ->
    generateChaffFile fuel env filename sizeMB available = Some (r, t) ->
    chunked t /\
    bytes_requested t <= Z.min (sizeBytes_of sizeMB) available /\
    bytes_requested t <= available.
Proof.
  intros fuel env filename sizeMB A r t HA Hw.
  pose proof (effectiveSize_min sizeMB A) as Hmin.
  pose proof (effectiveSize_range sizeMB A HA) as Hrange.
  unfold generateChaffFile. cbv zeta. rewrite <- Hmin.
  set (size := effectiveSize sizeMB A) in *.
  destruct (size =? 0).
  { intros H. injection H as _ <-. split; [apply chunked_nil|]. cbn. lia. }
  destruct (g_create env).
  { intros H. injection H as _ <-. split; [apply chunked_no_writes; reflexivity|]. cbn. lia. }
  intros H. apply emit_some in H. destruct H as (t' & H & ->).
  destruct (writeChunks fuel env 0 A size 0) as [[ex tw]|] eqn:Hloop; [|discriminate].
  apply (writeChunks_discipline env Hw) in Hloop; [|lia | unfold is_u64 in HA; lia].
  destruct Hloop as (Hch & Hreq & _).
  assert (Htail : forall tail, no_writes tail = true ->
                  chunked ([EvCreate filename None] ++ tw ++ tail) /\
                  bytes_requested ([EvCreate filename None] ++ tw ++ tail) <= size /\
                  bytes_requested ([EvCreate filename None] ++ tw ++ tail) <= A).
  { intros tail Hnw. split.
    - apply chunked_app; [apply chunked_no_writes; reflexivity|].
      apply chunked_app; [exact Hch | apply chunked_no_writes; exact Hnw].
    - rewrite !bytes_requested_app.
      assert (Hz : bytes_requested tail = 0).
      { clear -Hnw. induction tail as [|e tail IH]; [reflexivity|].
        cbn in Hnw. apply andb_true_iff in Hnw. destruct Hnw as [He Ht].
        destruct e; try discriminate; cbn [bytes_requested]; auto. }
      rewrite Hz. cbn. lia. }
  destruct ex as [r'|w]; [|destruct (g_sync env)]; injection H as _ <-;
    apply Htail; reflexivity.
Qed.

Lemma generateChaffFile_write_discipline_witness :
  exists r t,
    generateChaffFile 5 gen_short_second_write (regularName 0) fileSizeMB (3 * MiB)
    = Some (r, t) /\
    chunked t /\ bytes_requested t = 2 * MiB /\ bytes_requested t <= 3 * MiB.
Proof.
  do 2 eexists. split; [vm_compute; reflexivity|].
  assert (Hu : is_u64 (3 * MiB)) by (vm_compute; split; [discriminate | reflexivity]).
  assert (Hw : full_or_error (g_write gen_short_second_write)).
  { intros k len. cbn. destruct (Nat.eqb k 1); cbn; [discriminate | reflexivity]. }
  destruct (generateChaffFile_write_discipline 5 gen_short_second_write (regularName 0)
              fileSizeMB (3 * MiB) _ _ Hu Hw ltac:(vm_compute; reflexivity))
    as (Hch & _ & Hle).
  split; [exact Hch|]. split; [reflexivity | exact Hle].
Defined.

Lemma writeChunks_only_data (env : gen_env) :
  forall fuel k availableSpace sizeBytes bytesWritten ex t,
    writeChunks fuel env k availableSpace sizeBytes bytesWritten = Some (ex, t) ->
    only_data t = true.
Proof.
  intros fuel. induction fuel as [|fuel IH]; intros k A size bw ex t.
  - cbn [writeChunks]. destruct (bw <? size); [discriminate|].
    intros H. injection H as _ <-. reflexivity.
  - cbn [writeChunks]. destruct (bw <? size).
    2:{ intros H. injection H as _ <-. reflexivity. }
    cbv zeta. destruct (g_rand env k).
    { intros H. injection H as _ <-. reflexivity. }
    destruct (g_write env k _) as [written werr]. destruct werr.
    { intros H. injection H as _ <-. reflexivity. }
    intros H. apply emit_some in H. destruct H as (t' & H & ->).
    rewrite only_data_app. cbn. eapply IH. exact H.
Qed.

(** X6: a call of [generateChaffFile] that created the file closes it on
    every return path; a call that returns no error made all its writes,
    then one completed [Sync], then the close, in this order; and a failed
    [Sync] is the error the call returns. *)
Theorem generateChaffFile_sync_close :
  forall (fuel : nat) (env : gen_env) (filename : string) (sizeMB available : Z)
         (r : gen_result) (t : trace),
    generateChaffFile fuel env filename sizeMB available = Some (r, t) ->
    (In (EvCreate filename None) t ->
     exists t', t = EvCreate filename None :: t' ++ [EvClose filename (g_close env)]) /\
    (gen_err r = None -> t <> [] ->
     exists tw,
       only_data tw = true /\
       t = EvCreate filename None :: tw ++ [EvSync None; EvClose filename (g_close env)]) /\
    (forall e, In (EvSync (Some e)) t -> gen_err r = Some e).
Proof.
  intros fuel env filename sizeMB A r t.
  unfold generateChaffFile. cbv zeta.
  destruct (effectiveSize sizeMB A =? 0).
  { intros H. injection H as <- <-. split; [intros []|]. split; [intros _ Hne; congruence|].
    intros e []. }
  destruct (g_create env) as [cerr|].
  { intros H. injection H as <- <-. split; [|split].
    - intros [Hin|[]]. discriminate.
    - cbn. discriminate.
    - intros e [Hin|[]]. discriminate. }
  intros H. apply emit_some in H. destruct H as (t' & H & ->). cbn [app].
  destruct (writeChunks fuel env 0 A (effectiveSize sizeMB A) 0) as [[ex tw]|] eqn:Hloop;
    [|discriminate].
  pose proof (writeChunks_only_data _ _ _ _ _ _ _ _ Hloop) as Hod.
  assert (Hns : forall e, ~ In (EvSync (Some e)) tw).
  { intros e Hin. unfold only_data in Hod. rewrite forallb_forall in Hod.
    apply Hod in Hin. discriminate Hin. }
  destruct ex as [r'|w].
  - injection H as <- <-. split; [|split].
    + intros _. eexists. reflexivity.
    + intros Hn. apply writeChunks_return_error in Hloop. contradiction.
    + intros e [Hin|Hin]; [discriminate|]. apply in_app_or in Hin.
      destruct Hin as [Hin|[Hin|[]]]; [exfalso; eapply Hns; exact Hin | discriminate].
  - destruct (g_sync env) as [serr|]; injection H as <- <-; (split; [|split]).
    + intros _. exists (tw ++ [EvSync (Some serr)]). rewrite <- app_assoc. reflexivity.
    + cbn. discriminate.
    + intros e [Hin|Hin]; [discriminate|]. apply in_app_or in Hin.
      destruct Hin as [Hin|[Hin|[Hin|[]]]];
        [exfalso; eapply Hns; exact Hin | | discriminate].
      injection Hin as ->. reflexivity.
    + intros _. exists (tw ++ [EvSync None]). rewrite <- app_assoc. reflexivity.
    + intros _ _. exists tw. auto.
    + intros e [Hin|Hin]; [discriminate|]. apply in_app_or in Hin.
      destruct Hin as [Hin|[Hin|[Hin|[]]]];
        [exfalso; eapply Hns; exact Hin | discriminate ..].
Qed.

Lemma generateChaffFile_sync_close_witness :
  exists r t tw,
    generateChaffFile 5 gen_all_ok (regularName 0) 1 (3 * MiB) = Some (r, t) /\
    only_data tw = true /\
    t = EvCreate (regularName 0) None :: tw ++
          [EvSync None; EvClose (regularName 0) (g_close gen_all_ok)].
Proof.
  destruct (generateChaffFile_sync_close 5 gen_all_ok (regularName 0) 1 (3 * MiB) _ _
              ltac:(vm_compute; reflexivity)) as (_ & Hok & _).
  destruct (Hok eq_refl ltac:(discriminate)) as (tw & Hod & Ht).
  do 2 eexists. exists tw. split; [vm_compute; reflexivity|]. split; [exact Hod | exact Ht].
Defined.

Lemma fresh_writes_no_writes (t : trace) :
  no_writes t = true -> forall k drawn, fresh_writes k drawn t = true.
Proof.
  induction t as [|e t IH]; intros H k drawn; [reflexivity|].
  cbn in H. apply andb_true_iff in H. destruct H as [He Ht].
  destruct e as [| | | |len [?|]| | | | |]; try discriminate;
    cbn [fresh_writes]; apply IH; exact Ht.
Qed.

Lemma fresh_writes_app (t1 t2 : trace) :
  no_writes t2 = true ->
  forall k drawn, fresh_writes k drawn t1 = true -> fresh_writes k drawn (t1 ++ t2) = true.
Proof.
  intros H2. induction t1 as [|e t1 IH]; intros k drawn H1.
  - apply fresh_writes_no_writes. exact H2.
  - destruct e as [| | | |len [?|]| |data n err| | |]; cbn [app fresh_writes] in *;
      try (apply IH; exact H1).
    destruct drawn as [len|]; [|discriminate].
    destruct data as [|[len' [b|k']] [|? ?]]; try discriminate.
    apply andb_true_iff in H1. destruct H1 as [H1 Hrest].
    rewrite H1. cbn [andb]. apply IH. exact Hrest.
Qed.

(** X7: every write of [generateChaffFile] sends the bytes of one read of
    the randomness source, made just before the write for exactly its
    length and used for no other write; and if a read of the randomness
    source fails, the call returns the error of that read. *)
Theorem generateChaffFile_randomness :
  forall (fuel : nat) (env : gen_env) (filename : string) (sizeMB available : Z)
         (r : gen_result) (t : trace),
    is_u64 available ->
    generateChaffFile fuel env filename sizeMB available = Some (r, t) ->
    fresh_writes 0 None t = true /\
    (forall len e, In (EvRand len (Some e)) t -> gen_err r = Some e).
Proof.
  intros fuel env filename sizeMB A r t HA Hrun. split.
  - pose proof (effectiveSize_range sizeMB A HA) as Hrange.
    revert Hrun. unfold generateChaffFile. cbv zeta.
    destruct (effectiveSize sizeMB A =? 0).
    { intros H. injection H as _ <-. reflexivity. }
    destruct (g_create env).
    { intros H. injection H as _ <-. reflexivity. }
    intros H. apply emit_some in H. destruct H as (t' & H & ->).
    destruct (writeChunks fuel env 0 A (effectiveSize sizeMB A) 0) as [[ex tw]|] eqn:Hloop;
      [|discriminate].
    apply writeChunks_entropy in Hloop; [|lia | unfold is_u64 in HA; lia].
    destruct Hloop as [Hf _]. cbn [app fresh_writes].
    destruct ex as [r'|w]; [|destruct (g_sync env)]; injection H as _ <-;
      apply fresh_writes_app; try exact Hf; reflexivity.
  - intros len e Hin. eapply generateChaffFile_entropy_failure; eassumption.
Qed.

Lemma generateChaffFile_randomness_witness :
  exists r t,
    generateChaffFile 5 gen_all_ok (regularName 0) fileSizeMB (3 * MiB) = Some (r, t) /\
    fresh_writes 0 None t = true.
Proof.
  do 2 eexists. split; [vm_compute; reflexivity|].
  apply (generateChaffFile_randomness 5 gen_all_ok (regularName 0) fileSizeMB (3 * MiB)
           _ _ ltac:(vm_compute; split; [discriminate | reflexivity])
           ltac:(vm_compute; reflexivity)).
Defined.

End GenerateMore.

(* ================================================================= *)
(** ** shredFile of chaff.go: results, writes and errors *)

Section ShredMore.

Import Chaff.

(** What the [switch pass] leaves in the first [len] bytes of the buffer. *)
Lemma fillPass_data (env : shred_env) (pass k : nat) (len : Z) (buf : segments) :
  (pass <= 2)%nat -> 0 < len ->
  forall rerr buf' revs,
    fillPass env pass k len buf = (rerr, buf', revs) ->
    no_writes revs = true /\
    (rerr = None -> take_bytes len buf' = [(len, passContent pass k)]).
Proof.
  intros Hp Hl rerr buf' revs. unfold fillPass, passContent.
  destruct pass as [|[|[|?]]]; [| | |lia].
  - intros H. injection H as <- <- <-. split; [reflexivity|].
    intros _. apply take_fill_prefix. exact Hl.
  - intros H. injection H as <- <- <-. split; [reflexivity|].
    intros _. apply take_fill_prefix. exact Hl.
  - destruct (s_rand env k); intros H; injection H as <- <- <-;
      (split; [reflexivity|]); [discriminate|].
    intros _. apply take_fill_prefix. exact Hl.
Qed.

(** The writes of one pass: each of one chunk at most, together no more
    than the length of the file; and a write that fails, or returns another
    count than asked for, ends the pass with the error of that write. *)
Lemma passChunks_writes (env : shred_env) (path : string) (pass : nat) :
  (pass <= 2)%nat ->
  forall fuel k buf remaining r t,
    0 <= remaining < 2 ^ 63 ->
    passChunks fuel env path pass k buf remaining = Some (r, t) ->
    chunked t /\ bytes_requested t <= remaining /\
    (forall data n werr,
        In (EvWrite data n werr) t ->
        (werr = None /\ n = seg_length data) \/ r = inl (write_failure path werr)).
Proof.
  intros Hp fuel. induction fuel as [|fuel IH]; intros k buf rem r t Hr.
  - cbn [passChunks]. destruct (rem >? 0); [discriminate|].
    intros H. injection H as _ <-. split; [apply chunked_nil|]. cbn.
    split; [lia | intros ? ? ? []].
  - cbn [passChunks]. destruct (rem >? 0) eqn:E.
    2:{ intros H. injection H as _ <-. split; [apply chunked_nil|]. cbn.
        split; [lia | intros ? ? ? []]. }
    apply Z.gtb_lt in E. cbv zeta. rewrite toWrite_eq.
    pose proof chunkSize_value as Hc.
    set (len := Z.min rem chunkSize). assert (Hl : 0 < len <= chunkSize) by (unfold len; lia).
    destruct (fillPass env pass k len buf) as [[rerr buf'] revs] eqn:Hfill.
    apply fillPass_data in Hfill; [|exact Hp | lia]. destruct Hfill as [Hnw Hdata].
    assert (Hreq0 : bytes_requested revs = 0).
    { clear -Hnw. induction revs as [|e revs IH]; [reflexivity|].
      cbn in Hnw. apply andb_true_iff in Hnw. destruct Hnw as [He Ht].
      destruct e; try discriminate; cbn [bytes_requested]; auto. }
    assert (Hnotin : forall data n werr, ~ In (EvWrite data n werr) revs).
    { intros data n werr Hin. unfold no_writes in Hnw. rewrite forallb_forall in Hnw.
      apply Hnw in Hin. discriminate Hin. }
    destruct rerr as [rerr|].
    { intros H. injection H as _ <-. split; [apply chunked_no_writes; exact Hnw|].
      split; [lia|]. intros data n werr Hin. exfalso. eapply Hnotin. exact Hin. }
    rewrite (Hdata eq_refl).
    destruct (s_write env pass k len) as [n werr].
    set (w := EvWrite [(len, passContent pass k)] n werr).
    assert (Hone : chunked (revs ++ [w])).
    { apply chunked_app; [apply chunked_no_writes; exact Hnw|].
      apply chunked_write. cbn. lia. }
    assert (Hreq1 : bytes_requested (revs ++ [w]) = len).
    { rewrite bytes_requested_app, Hreq0. cbn. lia. }
    assert (Hlast : forall r0 data m e,
               r0 = inl (write_failure path werr) \/ (werr = None /\ n = len) ->
               In (EvWrite data m e) (revs ++ [w]) ->
               (e = None /\ m = seg_length data) \/
               r0 = (inl (write_failure path e) : error + segments)).
    { intros r0 data m e Hcase Hin. apply in_app_or in Hin.
      destruct Hin as [Hin|[Hin|[]]]; [exfalso; eapply Hnotin; exact Hin|].
      injection Hin as <- <- <-. destruct Hcase as [-> | [-> ->]]; [right; reflexivity|].
      left. split; [reflexivity|]. cbn. lia. }
    destruct werr as [werr|].
    { intros H. injection H as <- <-. split; [exact Hone|]. split; [lia|].
      intros data m e. apply Hlast. left. reflexivity. }
    destruct (n =? len) eqn:En; cbn [negb].
    2:{ intros H. injection H as <- <-. split; [exact Hone|]. split; [lia|].
        intros data m e. apply Hlast. left. reflexivity. }
    apply Z.eqb_eq in En.
    intros H. apply emit_some in H. destruct H as (t' & H & ->).
    rewrite wrap_i64_small in H by (unfold is_i64; lia).
    apply IH in H; [|lia]. destruct H as (Hch & Hreq & Hw).
    split; [apply chunked_app; assumption|].
    rewrite bytes_requested_app, Hreq1. split; [lia|].
    intros data m e Hin. apply in_app_or in Hin. destruct Hin as [Hin|Hin].
    + destruct (Hlast (inl (write_failure path None)) data m e
                  (or_intror (conj eq_refl En)) Hin) as [Hok|Hbad]; [left; exact Hok|].
      apply in_app_or in Hin. destruct Hin as [Hin|[Hin|[]]];
        [exfalso; eapply Hnotin; exact Hin|].
      injection Hin as <- <- <-. left. split; [reflexivity|]. cbn. lia.
    + eapply Hw. exact Hin.
Qed.

Lemma runPasses_writes (env : shred_env) (path : string) (fuel : nat) (size : Z) :
  0 <= size < 2 ^ 63 ->
  forall ps buf r t,
    Forall (fun p => (p <= 2)%nat) ps ->
    runPasses fuel env path ps buf size = Some (r, t) ->
    chunked t /\ bytes_requested t <= Z.of_nat (List.length ps) * size /\
    (forall data n werr,
        In (EvWrite data n werr) t ->
        (werr = None /\ n = seg_length data) \/ r = inl (write_failure path werr)).
Proof.
  intros Hs. induction ps as [|pass rest IH]; intros buf r t Hps; cbn [runPasses].
  - intros H. injection H as _ <-. split; [apply chunked_nil|]. cbn.
    split; [lia | intros ? ? ? []].
  - inversion Hps as [|? ? Hp Hrest]; subst.
    destruct (s_seek env pass).
    { intros H. injection H as _ <-. split; [apply chunked_no_writes; reflexivity|].
      cbn [bytes_requested]. split; [nia|]. intros ? ? ? [Hin|[]]. discriminate. }
    intros H. apply emit_some in H. destruct H as (t' & H & ->).
    destruct (passChunks fuel env path pass 0 buf size) as [[rp tp]|] eqn:Hpass;
      [|discriminate].
    apply (passChunks_writes env path pass Hp) in Hpass; [|exact Hs].
    destruct Hpass as (Hch & Hreq & Hw).
    assert (Hhead : chunked ([EvSeek None] ++ tp) /\
                    bytes_requested ([EvSeek None] ++ tp) <= size).
    { split; [apply chunked_app; [apply chunked_no_writes; reflexivity | exact Hch]|].
      cbn. exact Hreq. }
    destruct Hhead as [Hch1 Hreq1].
    cbn [List.length]. rewrite Nat2Z.inj_succ.
    destruct rp as [e|bufm].
    { injection H as <- <-. split; [exact Hch1|]. split; [nia|].
      intros data n werr [Hin|Hin]; [discriminate|]. eapply Hw. exact Hin. }
    assert (Hcomplete : forall data n werr,
               In (EvWrite data n werr) tp -> werr = None /\ n = seg_length data).
    { intros data n werr Hin. destruct (Hw data n werr Hin) as [Hok|Hbad];
        [exact Hok | discriminate Hbad]. }
    destruct (s_sync env pass).
    { injection H as <- <-. split.
      - apply (chunked_app [EvSeek None]); [apply chunked_no_writes; reflexivity|].
        apply chunked_app; [exact Hch | apply chunked_no_writes; reflexivity].
      - cbn [app bytes_requested]. rewrite bytes_requested_app. cbn [bytes_requested].
        split; [nia|].
        intros data n werr [Hin|Hin]; [discriminate|]. apply in_app_or in Hin.
        destruct Hin as [Hin|[Hin|[]]]; [left; eapply Hcomplete; exact Hin | discriminate]. }
    apply emit_some in H. destruct H as (tr & H & ->).
    apply IH in H; [|exact Hrest]. destruct H as (Hchr & Hreqr & Hwr).
    split.
    + apply (chunked_app [EvSeek None]); [apply chunked_no_writes; reflexivity|].
      apply chunked_app; [|exact Hchr].
      apply chunked_app; [exact Hch | apply chunked_no_writes; reflexivity].
    + cbn [app bytes_requested]. rewrite !bytes_requested_app. cbn [bytes_requested].
      split; [nia|].
      intros data n werr [Hin|Hin]; [discriminate|]. apply in_app_or in Hin.
      destruct Hin as [Hin|Hin]; [|eapply Hwr; exact Hin].
      apply in_app_or in Hin.
      destruct Hin as [Hin|[Hin|[]]]; [left; eapply Hcomplete; exact Hin | discriminate].
Qed.

Lemma passes_at_most_two : Forall (fun p => (p <= 2)%nat) passes.
Proof. unfold passes. repeat constructor. Qed.

(** The shape of every trace of [shredFile]: the events of the passes, if
    any, between a head and a tail that hold no write. *)
Lemma shredFile_shape (fuel : nat) (env : shred_env) (path : string)
    (err : option error) (t : trace) :
  shredFile fuel env path = Some (err, t) ->
  (no_writes t = true /\ (err = None -> In (EvRemove path None) t) /\
   (forall data n werr, ~ In (EvWrite data n werr) t) /\
   no_pass_events t = true) \/
  exists r tp tail,
    runPasses fuel env path passes (make_bytes chunkSize) (s_size env) = Some (r, tp) /\
    t = [EvOpen path None; EvStat None] ++ tp ++ tail /\
    no_writes tail = true /\
    (err = None -> In (EvRemove path None) tail) /\
    (forall e, r = inl e -> err = Some e /\ tail = [EvClose path (s_close env)]) /\
    only_close_remove tail = true.
Proof.
  assert (Hnw : forall t', no_writes t' = true ->
                           forall data n werr, ~ In (EvWrite data n werr) t').
  { intros t' H data n werr Hin. unfold no_writes in H. rewrite forallb_forall in H.
    apply H in Hin. discriminate Hin. }
  unfold shredFile. destruct (s_open env).
  { intros H. injection H as <- <-. left. split; [reflexivity|].
    split; [discriminate|]. split; [apply Hnw; reflexivity | reflexivity]. }
  destruct (s_stat env).
  { intros H. injection H as <- <-. left. split; [reflexivity|].
    split; [discriminate|]. split; [apply Hnw; reflexivity | reflexivity]. }
  cbv zeta. destruct (s_size env =? 0).
  { intros H. injection H as <- <-. left. split; [reflexivity|]. split; [|split].
    - intros ->. right. right. right. left. reflexivity.
    - apply Hnw. reflexivity.
    - reflexivity. }
  intros H. apply emit_some in H. destruct H as (t' & H & ->). right.
  destruct (runPasses fuel env path passes (make_bytes chunkSize) (s_size env))
    as [[r tp]|]; [|discriminate].
  exists r, tp. destruct r as [e|buf'].
  - injection H as <- <-. eexists. split; [reflexivity|]. split; [reflexivity|].
    split; [reflexivity|]. split; [discriminate|]. split; [|reflexivity].
    intros e' He. injection He as <-. split; reflexivity.
  - destruct (s_close env); injection H as <- <-;
      (eexists; split; [reflexivity|]; split; [reflexivity|]; split; [reflexivity|]).
    + split; [discriminate|]. split; [intros e' He; discriminate He | reflexivity].
    + split; [|split; [intros e' He; discriminate He | reflexivity]].
      intros ->. right. left. reflexivity.
Qed.

(** X8: a nil result of [shredFile] always means that the file was removed,
    and removed without error; for a non-empty file it means more: the
    trace is exactly the three flushed full-length passes in the order
    0xFF, 0x00, random (one draw per chunk), then the close and the
    removal, with [3 * N] bytes written. *)
Theorem shredFile_nil_result :
  forall (fuel : nat) (env : shred_env) (path : string) (t : trace),
    shredFile fuel env path = Some (None, t) ->
    In (EvRemove path None) t /\
    (0 < s_size env < 2 ^ 63 ->
     bytes_committed t = 3 * s_size env /\ syncs_done t = 3%nat /\
     exists tp,
       three_passes (s_size env) tp /\
       t = [EvOpen path None; EvStat None] ++ tp ++
           [EvClose path None; EvRemove path None; EvClose path (Some ErrClosed)]).
Proof.
  intros fuel env path t H. split.
  - destruct (shredFile_shape fuel env path None t H)
      as [(_ & Hrem & _ & _) | (r & tp & tail & _ & -> & _ & Hrem & _ & _)].
    + exact (Hrem eq_refl).
    + apply in_or_app. right. apply in_or_app. right. exact (Hrem eq_refl).
  - intros Hs. destruct (shredFile_success_trace fuel env path t Hs H) as (tp & H3 & ->).
    pose proof (three_passes_facts _ _ H3) as (Hb & _ & Hsy & _).
    split; [|split; [|exists tp; auto]].
    + cbn [app bytes_committed]. rewrite bytes_committed_app, Hb. cbn. lia.
    + cbn [app syncs_done]. rewrite syncs_done_app, Hsy. reflexivity.
Qed.

Lemma shredFile_nil_result_witness :
  exists t,
    shredFile 4 (shred_all_ok (3 * MiB)) (regularName 0) = Some (None, t) /\
    In (EvRemove (regularName 0) None) t /\
    bytes_committed t = 3 * (3 * MiB).
Proof.
  eexists. split; [vm_compute; reflexivity|].
  destruct (shredFile_nil_result 4 (shred_all_ok (3 * MiB)) (regularName 0) _
              ltac:(vm_compute; reflexivity)) as [Hrem Hfull].
  split; [exact Hrem|].
  exact (proj1 (Hfull ltac:(vm_compute; split; reflexivity))).
Defined.

(** X9: in [shredFile] a write that returns an error, or a count other
    than the one asked for, is the end of the call: the call returns the
    error of the write (or the short-write error when the write gave none)
    and the file is not removed. *)
Theorem shredFile_write_failure :
  forall (fuel : nat) (env : shred_env) (path : string) (err : option error) (t : trace)
         (data : segments) (n : Z) (werr : option error),
    0 <= s_size env < 2 ^ 63 ->
    shredFile fuel env path = Some (err, t) ->
    In (EvWrite data n werr) t ->
    n <> seg_length data \/ werr <> None ->
    err = Some (write_failure path werr) /\ existsb is_remove t = false.
Proof.
  intros fuel env path err t data n werr Hs H Hin Hbad.
  split; [|eapply shredFile_short_write_fatal; eassumption].
  destruct (shredFile_shape fuel env path err t H)
    as [(_ & _ & Hno & _) | (r & tp & tail & Hrun & -> & Hnw & _ & Herr & _)].
  { exfalso. eapply Hno. exact Hin. }
  cbn [app In] in Hin. destruct Hin as [Hin|[Hin|Hin]]; [discriminate ..|].
  apply in_app_or in Hin. destruct Hin as [Hin|Hin].
  2:{ exfalso. unfold no_writes in Hnw. rewrite forallb_forall in Hnw.
      apply Hnw in Hin. discriminate Hin. }
  apply (runPasses_writes env path fuel (s_size env) Hs) in Hrun;
    [|exact passes_at_most_two].
  destruct Hrun as (_ & _ & Hw).
  destruct (Hw data n werr Hin) as [[-> ->] | ->].
  - destruct Hbad; congruence.
  - apply (Herr _ eq_refl).
Qed.

Lemma shredFile_write_failure_witness :
  exists err t,
    shredFile 3 chaff_short_first_write (regularName 0) = Some (err, t) /\
    err = Some (ShortWriteShredding (regularName 0)) /\
    existsb is_remove t = false.
Proof.
  do 2 eexists. split; [vm_compute; reflexivity|].
  apply (shredFile_write_failure 3 chaff_short_first_write (regularName 0) _ _
           [(2, Pattern 255)] 1 None
           ltac:(vm_compute; split; [discriminate | reflexivity])
           ltac:(vm_compute; reflexivity)).
  - vm_compute. right. right. right. left. reflexivity.
  - left. vm_compute. discriminate.
Defined.

(** X10: [shredFile] writes in chunks and never past the end of the file:
    every write asks for at least one byte and at most 1 MiB, and the
    writes of a call together ask for no more than three times the length
    of the file. *)
Theorem shredFile_write_discipline :
  forall (fuel : nat) (env : shred_env) (path : string) (err : option error) (t : trace),
    0 <= s_size env < 2 ^ 63 ->
    shredFile fuel env path = Some (err, t) ->
    chunked t /\ bytes_requested t <= 3 * s_size env.
Proof.
  intros fuel env path err t Hs H.
  assert (Hz : forall t', no_writes t' = true -> bytes_requested t' = 0).
  { induction t' as [|e t' IH]; [reflexivity|]. intros Hnw.
    cbn in Hnw. apply andb_true_iff in Hnw. destruct Hnw as [He Ht].
    destruct e; try discriminate; cbn [bytes_requested]; auto. }
  destruct (shredFile_shape fuel env path err t H)
    as [(Hnw & _ & _ & _) | (r & tp & tail & Hrun & -> & Hnw & _ & _ & _)].
  { split; [apply chunked_no_writes; exact Hnw|]. rewrite (Hz _ Hnw). lia. }
  apply (runPasses_writes env path fuel (s_size env) Hs) in Hrun;
    [|exact passes_at_most_two].
  destruct Hrun as (Hch & Hreq & _).
  change (Z.of_nat (List.length passes)) with 3 in Hreq. split.
  - apply chunked_app; [apply chunked_no_writes; reflexivity|].
    apply chunked_app; [exact Hch | apply chunked_no_writes; exact Hnw].
  - rewrite !bytes_requested_app, (Hz _ Hnw). cbn [bytes_requested]. lia.
Qed.

Lemma shredFile_write_discipline_witness :
  exists err t,
    shredFile 4 (shred_all_ok (3 * MiB - 1)) (regularName 0) = Some (err, t) /\
    chunked t /\ bytes_requested t <= 3 * (3 * MiB - 1).
Proof.
  do 2 eexists. split; [vm_compute; reflexivity|].
  apply (shredFile_write_discipline 4 (shred_all_ok (3 * MiB - 1)) (regularName 0) _ _
           ltac:(vm_compute; split; [discriminate | reflexivity])
           ltac:(vm_compute; reflexivity)).
Defined.

End ShredMore.

(* ================================================================= *)
(** ** Errors inside the passes, shredFiles and main *)

Section ShredAll.

Import Chaff.

Lemma passChunks_only_data (env : shred_env) (path : string) :
  forall fuel pass k buf remaining r t,
    passChunks fuel env path pass k buf remaining = Some (r, t) ->
    only_data t = true.
Proof.
  intros fuel. induction fuel as [|fuel IH]; intros pass k buf rem r t.
  - cbn [passChunks]. destruct (rem >? 0); [discriminate|].
    intros H. injection H as _ <-. reflexivity.
  - cbn [passChunks]. destruct (rem >? 0).
    2:{ intros H. injection H as _ <-. reflexivity. }
    cbv zeta. rewrite toWrite_eq. set (l := Z.min rem chunkSize).
    destruct (fillPass_events env pass k l buf)
      as [(buf' & ->) | [(buf' & ->) | (e' & ->)]].
    + destruct (s_write env pass k l) as [n werr]. cbn [app].
      destruct werr; [intros H; injection H as _ <-; reflexivity|].
      destruct (negb (n =? l)); [intros H; injection H as _ <-; reflexivity|].
      intros H. apply emit_some in H. destruct H as (t' & H & ->).
      rewrite only_data_app. cbn. eapply IH. exact H.
    + destruct (s_write env pass k l) as [n werr]. cbn [app].
      destruct werr; [intros H; injection H as _ <-; reflexivity|].
      destruct (negb (n =? l)); [intros H; injection H as _ <-; reflexivity|].
      intros H. apply emit_some in H. destruct H as (t' & H & ->).
      rewrite only_data_app. cbn. eapply IH. exact H.
    + intros H. injection H as _ <-. reflexivity.
Qed.

(** A failed seek or flush ends the passes with its error. *)
Lemma runPasses_seek_sync_failure (env : shred_env) (path : string) (fuel : nat) (size : Z) :
  forall ps buf r t e,
    runPasses fuel env path ps buf size = Some (r, t) ->
    In (EvSeek (Some e)) t \/ In (EvSync (Some e)) t ->
    r = inl e.
Proof.
  induction ps as [|pass rest IH]; intros buf r t e; cbn [runPasses].
  - intros H. injection H as _ <-. intros [[]|[]].
  - destruct (s_seek env pass).
    { intros H. injection H as <- <-. intros [[Hin|[]]|[Hin|[]]]; [|discriminate].
      injection Hin as ->. reflexivity. }
    intros H. apply emit_some in H. destruct H as (t' & H & ->).
    destruct (passChunks fuel env path pass 0 buf size) as [[rp tp]|] eqn:Hp;
      [|discriminate].
    apply passChunks_only_data in Hp.
    assert (Hnone : forall x, In x tp -> x <> EvSeek (Some e) /\ x <> EvSync (Some e)).
    { intros x Hx. unfold only_data in Hp. rewrite forallb_forall in Hp.
      apply Hp in Hx. split; intros ->; discriminate Hx. }
    assert (Hhead : In (EvSeek (Some e)) ([EvSeek None] ++ tp) \/
                    In (EvSync (Some e)) ([EvSeek None] ++ tp) -> False).
    { intros [[Hin|Hin]|[Hin|Hin]]; try discriminate;
        apply Hnone in Hin; destruct Hin; congruence. }
    destruct rp as [e'|bufm].
    { injection H as <- <-. intros Hin. exfalso. apply Hhead. exact Hin. }
    destruct (s_sync env pass) as [se|].
    { injection H as <- <-. intros Hin.
      assert (Hcase : In (EvSync (Some e)) [EvSync (Some se)]).
      { destruct Hin as [Hin|Hin]; cbn [app In] in Hin;
          (destruct Hin as [Hin|Hin]; [discriminate|]);
          apply in_app_or in Hin; destruct Hin as [Hin|Hin];
          try (apply Hnone in Hin; destruct Hin; congruence);
          try exact Hin.
        destruct Hin as [Hin|[]]. discriminate. }
      destruct Hcase as [Hin'|[]]. injection Hin' as ->. reflexivity. }
    apply emit_some in H. destruct H as (tr & H & ->).
    intros Hin. eapply IH; [exact H|].
    destruct Hin as [Hin|Hin]; cbn [app In] in Hin;
      (destruct Hin as [Hin|Hin]; [discriminate|]);
      apply in_app_or in Hin; (destruct Hin as [Hin|Hin]; [|auto]);
      apply in_app_or in Hin; destruct Hin as [Hin|[Hin|[]]];
      try (apply Hnone in Hin; destruct Hin; congruence); discriminate.
Qed.

(** X11: an error inside the passes of [shredFile] (a seek or a flush that
    fails, or a failure of the randomness source in the third pass) is the
    error the call returns; the file is then closed and not removed. *)
Theorem shredFile_pass_error :
  forall (fuel : nat) (env : shred_env) (path : string) (err : option error) (t : trace)
         (e : error),
    shredFile fuel env path = Some (err, t) ->
    In (EvSeek (Some e)) t \/ In (EvSync (Some e)) t \/
    (exists len, In (EvRand len (Some e)) t) ->
    err = Some e /\ existsb is_remove t = false /\
    exists t', t = t' ++ [EvClose path (s_close env)].
Proof.
  intros fuel env path err t e H Hin.
  destruct (shredFile_shape fuel env path err t H)
    as [(_ & _ & _ & Hnp) | (r & tp & tail & Hrun & -> & Hnw & _ & Herr & Htail)].
  { exfalso. unfold no_pass_events in Hnp. rewrite forallb_forall in Hnp.
    destruct Hin as [Hin|[Hin|(len & Hin)]]; apply Hnp in Hin; discriminate Hin. }
  assert (Hin' : In (EvSeek (Some e)) tp \/ In (EvSync (Some e)) tp \/
                 (exists len, In (EvRand len (Some e)) tp)).
  { assert (Hsplit : forall x, In x ([EvOpen path None; EvStat None] ++ tp ++ tail) ->
                               (x = EvOpen path None \/ x = EvStat None) \/
                               In x tp \/ In x tail).
    { intros x Hx. cbn [app In] in Hx. destruct Hx as [Hx|[Hx|Hx]]; auto.
      apply in_app_or in Hx. tauto. }
    assert (Hnot : forall x, In x tail -> only_close_remove [x] = true).
    { intros x Hx. unfold only_close_remove in Htail. rewrite forallb_forall in Htail.
      cbn. rewrite (Htail x Hx). reflexivity. }
    destruct Hin as [Hin|[Hin|(len & Hin)]]; apply Hsplit in Hin;
      destruct Hin as [[Hin|Hin]|[Hin|Hin]]; try discriminate; eauto;
      apply Hnot in Hin; discriminate Hin. }
  assert (Hr : r = inl e).
  { destruct Hin' as [Hin'|[Hin'|(len & Hin')]].
    - eapply runPasses_seek_sync_failure; [exact Hrun | left; exact Hin'].
    - eapply runPasses_seek_sync_failure; [exact Hrun | right; exact Hin'].
    - eapply runPasses_rand_failure; [exact Hrun | exact Hin']. }
  destruct (Herr e Hr) as [-> ->]. split; [reflexivity|]. split.
  - apply runPasses_no_remove in Hrun.
    cbn [app existsb is_remove orb]. rewrite existsb_remove_app, Hrun. reflexivity.
  - exists ([EvOpen path None; EvStat None] ++ tp). rewrite <- app_assoc. reflexivity.
Qed.

Lemma shredFile_pass_error_witness :
  exists err t,
    shredFile 3 shred_sync_fails (regularName 0) = Some (err, t) /\
    err = Some (Errno 5) /\ existsb is_remove t = false.
Proof.
  do 2 eexists. split; [vm_compute; reflexivity|].
  destruct (shredFile_pass_error 3 shred_sync_fails (regularName 0) _ _ (Errno 5)
              ltac:(vm_compute; reflexivity)) as (He & Hno & _).
  - right. left. vm_compute. do 5 right. left. reflexivity.
  - split; assumption.
Defined.

(** [shredFile] returns on the fuel of the chunks of one pass. *)
Lemma shredFile_returns (fuel : nat) (env : shred_env) (path : string) :
  s_size env < 2 ^ 63 ->
  (0 < s_size env -> (chunkFuel (s_size env) <= fuel)%nat) ->
  exists r, shredFile fuel env path = Some r.
Proof.
  intros Hs Hf. unfold shredFile.
  destruct (s_open env); [eauto|]. destruct (s_stat env); [eauto|]. cbv zeta.
  destruct (s_size env =? 0); [eauto|].
  destruct (runPasses_returns env path fuel (s_size env) Hs Hf
              passes (make_bytes chunkSize)) as [[[e|buf'] tp] Hp];
    rewrite Hp; cbn [emit]; [eauto|].
  destruct (s_close env); cbn [emit]; eauto.
Qed.

(** X12: [shredFiles] goes through the whole list, in order, whatever the
    calls of [shredFile] return: it gives one entry for every file, and the
    entry of a file is what [shredFile] returns for that file. *)
Theorem shredFiles_all_processed :
  forall (fuel : nat) (envs : string -> shred_env) (files : list string),
    (forall f, In f files ->
               s_size (envs f) < 2 ^ 63 /\
               (0 < s_size (envs f) -> (chunkFuel (s_size (envs f)) <= fuel)%nat)) ->
    exists rs,
      shredFiles fuel envs files = Some rs /\
      map (fun x => fst (fst x)) rs = files /\
      Forall (fun x => shredFile fuel (envs (fst (fst x))) (fst (fst x))
                       = Some (snd (fst x), snd x)) rs.
Proof.
  intros fuel envs. induction files as [|f rest IH]; intros Hall.
  - exists []. repeat split. constructor.
  - destruct (Hall f (or_introl eq_refl)) as [Hs Hf].
    destruct (shredFile_returns fuel (envs f) f Hs Hf) as [[err t] Hrun].
    destruct IH as (rs & Hrs & Hnames & Heach).
    { intros g Hg. apply Hall. right. exact Hg. }
    exists ((f, err, t) :: rs). cbn [shredFiles]. rewrite Hrun, Hrs.
    split; [reflexivity|]. split; [cbn; rewrite Hnames; reflexivity|].
    constructor; [exact Hrun | exact Heach].
Qed.

Lemma shredFiles_all_processed_witness :
  exists rs,
    shredFiles 4 (fun f => if String.eqb f (regularName 0) then shred_open_denied
                           else shred_all_ok MiB)
      [regularName 0; regularName 1] = Some rs /\
    map (fun x => fst (fst x)) rs = [regularName 0; regularName 1] /\
    map (fun x => snd (fst x)) rs = [Some (Errno 13); None].
Proof.
  destruct (shredFiles_all_processed 4
              (fun f => if String.eqb f (regularName 0) then shred_open_denied
                        else shred_all_ok MiB)
              [regularName 0; regularName 1]) as (rs & Hrs & Hnames & _).
  - intros f [<-|[<-|[]]]; vm_compute; split; try reflexivity; intros _; lia.
  - exists rs. split; [exact Hrs|]. split; [exact Hnames|].
    vm_compute in Hrs. injection Hrs as <-. reflexivity.
Defined.




End ShredAll.

(* ================================================================= *)
(** ** readUrandom *)

Section ReadUrandom.

Import LowLevel.

Lemma seg_length_app (a b : segments) : seg_length (a ++ b) = seg_length a + seg_length b.
Proof.
  unfold seg_length. induction a as [|s a IH]; cbn [app fold_right]; [reflexivity|].
  rewrite IH. lia.
Qed.

Lemma all_random_length (draw : nat) (R : segments) : all_random draw R -> 0 <= seg_length R.
Proof.
  unfold all_random, seg_length. induction 1 as [|s R [Hs _] _ IH]; cbn [fold_right]; lia.
Qed.

(** The first bytes of a buffer that begins with the run [R]. *)
Lemma take_bytes_app_exact (draw : nat) (R rest : segments) :
  all_random draw R -> take_bytes (seg_length R) (R ++ rest) = R.
Proof.
  induction 1 as [|[l c] R [Hl _] HR IH].
  - apply take_bytes_zero.
  - pose proof (all_random_length draw R HR) as H0.
    change (seg_length ((l, c) :: R)) with (l + seg_length R).
    cbn [app take_bytes fst] in *.
    destruct (l + seg_length R <=? 0) eqn:E1; [apply Z.leb_le in E1; lia|].
    destruct (l <=? l + seg_length R) eqn:E2; [|apply Z.leb_gt in E2; lia].
    replace (l + seg_length R - l) with (seg_length R) by lia.
    rewrite IH. reflexivity.
Qed.

(** The loop keeps what it has read at the head of the buffer. *)
Lemma readLoop_fills (env : shred_env) (draw : nat) (len : Z) :
  posix_count (u_read env) ->
  len < 2 ^ 63 ->
  forall fuel k buf total R rest buf' t,
    0 <= total <= len ->
    buf = R ++ rest -> all_random draw R -> seg_length R = total ->
    readLoop fuel env draw k len buf total = Some ((None, buf'), t) ->
    only_reads t = true /\
    exists R' rest', buf' = R' ++ rest' /\ all_random draw R' /\ seg_length R' = len.
Proof.
  intros Hread Hlen fuel. induction fuel as [|fuel IH];
    intros k buf total R rest buf' t Ht Hbuf HR Hseg.
  - cbn [readLoop]. destruct (total <? len) eqn:E; [discriminate|].
    apply Z.ltb_ge in E. intros H. injection H as <- <-.
    split; [reflexivity|]. exists R, rest. repeat split; auto. lia.
  - cbn [readLoop]. destruct (total <? len) eqn:E.
    2:{ apply Z.ltb_ge in E. intros H. injection H as <- <-.
        split; [reflexivity|]. exists R, rest. repeat split; auto. lia. }
    apply Z.ltb_lt in E. pose proof (Hread k (len - total) ltac:(lia)) as Hk.
    destruct (u_read env k (len - total)) as [n rerr].
    destruct rerr as [rerr|]; [discriminate|].
    intros H. apply emit_some in H. destruct H as (t' & H & ->).
    rewrite wrap_i64_small in H by (unfold is_i64; lia).
    destruct (Z.le_gt_cases n 0) as [Hz|Hpos].
    + assert (n = 0) by lia. subst n.
      unfold fill_range in H. cbn [Z.leb Z.compare] in H. rewrite Z.add_0_r in H.
      apply (IH _ _ _ R rest) in H; [|lia | exact Hbuf | exact HR | exact Hseg].
      destruct H as [Hor Hex]. split; [exact Hor | exact Hex].
    + unfold fill_range in H.
      destruct (n <=? 0) eqn:En; [apply Z.leb_le in En; lia|].
      rewrite Hbuf in H. rewrite <- Hseg in H at 1.
      rewrite (take_bytes_app_exact draw R rest HR) in H.
      apply (IH _ _ _ (R ++ [(n, Random draw)])
               (drop_bytes (total + n) (R ++ rest))) in H.
      * destruct H as [Hor Hex]. split; [exact Hor | exact Hex].
      * lia.
      * rewrite <- app_assoc. reflexivity.
      * apply Forall_app. split; [exact HR|]. constructor; [|constructor].
        cbn. split; [lia | reflexivity].
      * rewrite seg_length_app, Hseg. cbn. lia.
Qed.

Lemma readLoop_returns (env : shred_env) (draw : nat) (len : Z) :
  posix_count (u_read env) -> makes_progress (u_read env) ->
  len < 2 ^ 63 ->
  forall fuel k buf total,
    0 <= total <= len -> (Z.to_nat (len - total) <= fuel)%nat ->
    exists r, readLoop fuel env draw k len buf total = Some r.
Proof.
  intros Hread Hprog Hlen fuel. induction fuel as [|fuel IH]; intros k buf total Ht Hf.
  - cbn [readLoop]. destruct (total <? len) eqn:E; [apply Z.ltb_lt in E; lia | eauto].
  - cbn [readLoop]. destruct (total <? len) eqn:E; [|eauto].
    apply Z.ltb_lt in E.
    pose proof (Hread k (len - total) ltac:(lia)) as Hk.
    pose proof (Hprog k (len - total) ltac:(lia)) as Hp.
    destruct (u_read env k (len - total)) as [n rerr].
    destruct rerr as [rerr|]; [eauto|].
    rewrite wrap_i64_small by (unfold is_i64; lia).
    destruct (IH (S k) (fill_range total n (Random draw) buf) (total + n))
      as [[r t] Hr]; [lia | lia |].
    rewrite Hr. cbn [emit]. eauto.
Qed.

(** X14: [readUrandom] either returns an error or has filled the whole
    buffer with bytes of the randomness source: a nil result never comes
    with a buffer that is only partly filled.  When /dev/urandom cannot be
    opened the buffer is left as it was.  The call returns as long as every
    read gives at least one byte. *)
Theorem readUrandom_fills :
  forall (fuel : nat) (env : shred_env) (draw : nat) (len : Z) (buf buf' : segments)
         (rerr : option error) (t : trace),
    posix_count (u_read env) ->
    0 <= len < 2 ^ 63 ->
    (readUrandom fuel env draw len buf = Some ((rerr, buf'), t) ->
     (rerr = None ->
      all_random draw (take_bytes len buf') /\ seg_length (take_bytes len buf') = len) /\
     (forall e, u_open env = Some e -> rerr = Some e /\ buf' = buf)) /\
    (makes_progress (u_read env) -> (Z.to_nat len <= fuel)%nat ->
     exists r, readUrandom fuel env draw len buf = Some r).
Proof.
  intros fuel env draw len buf buf' rerr t Hread Hlen. split.
  - unfold readUrandom. destruct (u_open env) as [oerr|].
    { intros H. injection H as <- <- <-. split; [discriminate|].
      intros e He. injection He as <-. auto. }
    intros H. apply emit_some in H. destruct H as (t' & H & _).
    destruct (readLoop fuel env draw 0 len buf 0) as [[[r b] tl]|] eqn:Hloop;
      [|discriminate].
    injection H as <- <- _. split; [|intros e He; discriminate He].
    intros ->.
    apply (readLoop_fills env draw len Hread (proj2 Hlen) fuel 0%nat buf 0 [] buf) in Hloop;
      [|lia | reflexivity | constructor | reflexivity].
    destruct Hloop as (_ & R' & rest' & -> & HR & Hseg).
    rewrite <- Hseg, (take_bytes_app_exact draw R' rest' HR). auto.
  - intros Hprog Hf. unfold readUrandom. destruct (u_open env); [eauto|].
    destruct (readLoop_returns env draw len Hread Hprog (proj2 Hlen) fuel 0%nat buf 0)
      as [[r tl] Hr]; [lia | rewrite Z.sub_0_r; exact Hf |].
    rewrite Hr. cbn [emit]. eauto.
Qed.

Lemma readUrandom_fills_witness :
  exists buf' t,
    readUrandom 3 lowlevel_split_reads 7 5000 (make_bytes chunkSize)
    = Some ((None, buf'), t) /\
    all_random 7 (take_bytes 5000 buf') /\ seg_length (take_bytes 5000 buf') = 5000.
Proof.
  do 2 eexists. split; [vm_compute; reflexivity|].
  apply (proj1 (readUrandom_fills 3 lowlevel_split_reads 7 5000 (make_bytes chunkSize)
                  _ None _
                  ltac:(intros k len Hl; cbn;
                        destruct (4096 <? len) eqn:E;
                        [apply Z.ltb_lt in E; lia | apply Z.ltb_ge in E; lia])
                  ltac:(lia))
           ltac:(vm_compute; reflexivity)).
  reflexivity.
Defined.

End ReadUrandom.

(* ================================================================= *)
(** ** The raw-syscall variant: short writes *)

Section LowLevelMore.

Import LowLevel.

Lemma only_reads_app (t1 t2 : trace) :
  only_reads (t1 ++ t2) = only_reads t1 && only_reads t2.
Proof. apply forallb_app. Qed.

Lemma only_reads_facts (t : trace) :
  only_reads t = true ->
  bytes_committed t = 0 /\ existsb is_remove t = false /\
  (forall data n err, ~ In (EvWrite data n err) t).
Proof.
  intros H. split; [|split].
  - induction t as [|e t IH]; [reflexivity|].
    cbn in H. apply andb_true_iff in H. destruct H as [He Ht].
    destruct e; try discriminate; cbn [bytes_committed]; auto.
  - induction t as [|e t IH]; [reflexivity|].
    cbn in H. apply andb_true_iff in H. destruct H as [He Ht].
    destruct e; try discriminate; cbn [existsb is_remove orb]; auto.
  - intros data n err Hin. unfold only_reads in H. rewrite forallb_forall in H.
    apply H in Hin. discriminate Hin.
Qed.

Lemma readLoop_only_reads (env : shred_env) (draw : nat) (len : Z) :
  forall fuel k buf total r t,
    readLoop fuel env draw k len buf total = Some (r, t) -> only_reads t = true.
Proof.
  intros fuel. induction fuel as [|fuel IH]; intros k buf total r t.
  - cbn [readLoop]. destruct (total <? len); [discriminate|].
    intros H. injection H as _ <-. reflexivity.
  - cbn [readLoop]. destruct (total <? len).
    2:{ intros H. injection H as _ <-. reflexivity. }
    destruct (u_read env k (len - total)) as [n rerr]. destruct rerr.
    { intros H. injection H as _ <-. reflexivity. }
    intros H. apply emit_some in H. destruct H as (t' & H & ->).
    rewrite only_reads_app. cbn. eapply IH. exact H.
Qed.

Lemma readUrandom_only_reads (fuel : nat) (env : shred_env) (draw : nat) (len : Z)
    (buf : segments) r (t : trace) :
  readUrandom fuel env draw len buf = Some (r, t) -> only_reads t = true.
Proof.
  unfold readUrandom. destruct (u_open env).
  { intros H. injection H as _ <-. reflexivity. }
  intros H. apply emit_some in H. destruct H as (t' & H & ->).
  destruct (readLoop fuel env draw 0 len buf 0) as [[r' tl]|] eqn:Hloop; [|discriminate].
  injection H as _ <-. apply readLoop_only_reads in Hloop.
  cbn [app only_reads forallb]. fold (only_reads (tl ++ [EvClose urandom None])).
  rewrite only_reads_app, Hloop. reflexivity.
Qed.

(** With reads that give all they are asked for, [readUrandom] needs one
    turn of its loop. *)
Lemma readUrandom_complete (fuel : nat) (env : shred_env) (draw : nat) (len : Z)
    (buf : segments) :
  u_open env = None -> (forall k l, u_read env k l = (l, None)) ->
  len < 2 ^ 63 ->
  exists r, readUrandom (S fuel) env draw len buf = Some r.
Proof.
  intros Ho Hr Hl. unfold readUrandom. rewrite Ho. cbn [readLoop].
  destruct (0 <? len) eqn:E; [|cbn [emit]; eauto].
  apply Z.ltb_lt in E. rewrite Hr.
  rewrite wrap_i64_small by (unfold is_i64; lia).
  replace (0 + (len - 0)) with len by lia.
  assert (Hend : forall b, readLoop fuel env draw 1 len b len = Some ((None, b), [])).
  { intros b. destruct fuel; cbn [readLoop]; rewrite Z.ltb_irrefl; reflexivity. }
  rewrite Hend. cbn [emit]. eauto.
Qed.








End LowLevelMore.

(* ================================================================= *)
(** ** The raw-syscall variant: the generator's count *)

Section LowLevelGenerate.

Import Chaff LowLevelGen.

Lemma ll_chunk_request (sizeBytes written : Z) :
  0 <= written < sizeBytes -> sizeBytes < 2 ^ 64 ->
  let remain := wrap64 (sizeBytes - written) in
  0 < (if remain <? chunkSize then remain else chunkSize) <= sizeBytes - written.
Proof.
  intros Hw Hs. cbv zeta. pose proof chunkSize_value as Hc.
  rewrite wrap64_small by (unfold is_u64; lia).
  destruct (sizeBytes - written <? chunkSize) eqn:E; [lia|].
  apply Z.ltb_ge in E. lia.
Qed.

(** The loop of the raw-syscall generator: [written] is the number of bytes
    the writes stored, on every way out. *)
Lemma ll_writeChunks_accounting (env : gen_env) (available sizeBytes : Z) :
  posix_count (g_write env) ->
  sizeBytes <= available < 2 ^ 64 ->
  forall fuel k buf written ex t,
    0 <= written <= sizeBytes ->
    writeChunks fuel env k buf available sizeBytes written = Some (ex, t) ->
    match ex with
    | Return r =>
        remainingSpace r = available - bytesWritten r /\
        bytesWritten r = written + bytes_committed t /\
        gen_err r <> None
    | Fallthrough w => w = sizeBytes /\ sizeBytes = written + bytes_committed t
    end.
Proof.
  intros Hw HA fuel. induction fuel as [|fuel IH]; intros k buf written ex t Hr.
  - cbn [writeChunks]. destruct (written <? sizeBytes) eqn:E; [discriminate|].
    apply Z.ltb_ge in E. intros H. injection H as <- <-. cbn. lia.
  - cbn [writeChunks]. destruct (written <? sizeBytes) eqn:E.
    2:{ apply Z.ltb_ge in E. intros H. injection H as <- <-. cbn. lia. }
    apply Z.ltb_lt in E. cbv zeta.
    pose proof (ll_chunk_request sizeBytes written ltac:(lia) ltac:(lia)) as Hn.
    cbv zeta in Hn.
    set (n := if wrap64 (sizeBytes - written) <? chunkSize
              then wrap64 (sizeBytes - written) else chunkSize) in *.
    destruct (LowLevel.readUrandom (S fuel) (urandomEnv env k) k n buf)
      as [[[rerr buf'] tr]|] eqn:Hread; [|discriminate].
    apply readUrandom_only_reads in Hread. apply only_reads_facts in Hread.
    destruct Hread as (Hb0 & _ & _).
    destruct rerr as [e|].
    { intros H. injection H as <- <-. cbn [remainingSpace bytesWritten gen_err].
      rewrite wrap64_small by (unfold is_u64; lia). rewrite Hb0.
      split; [reflexivity|]. split; [lia | discriminate]. }
    pose proof (Hw k n ltac:(lia)) as Hk.
    destruct (g_write env k n) as [w werr]. destruct werr as [e|].
    { intros H. injection H as <- <-. cbn [remainingSpace bytesWritten gen_err].
      rewrite wrap64_small by (unfold is_u64; lia).
      rewrite bytes_committed_app, Hb0. subst w. cbn.
      split; [reflexivity|]. split; [lia | discriminate]. }
    intros H. apply emit_some in H. destruct H as (t' & H & ->).
    rewrite (wrap64_small w) in H by (unfold is_u64; lia).
    rewrite wrap64_small in H by (unfold is_u64; lia).
    apply IH in H; [|lia].
    rewrite !bytes_committed_app, Hb0. cbn [bytes_committed].
    destruct ex as [r|w'].
    + destruct H as (H1 & H2 & H3). split; [exact H1|]. split; [lia | exact H3].
    + lia.
Qed.

Lemma ll_writeChunks_returns (env : gen_env) (available sizeBytes : Z) :
  posix_count (g_write env) -> makes_progress (g_write env) ->
  (forall k, g_uopen env k <> None \/
             forall j len, g_uread env k j len = (len, None)) ->
  sizeBytes < 2 ^ 64 ->
  forall fuel k buf written,
    0 <= written <= sizeBytes ->
    (Z.to_nat (sizeBytes - written) <= fuel)%nat ->
    exists r, writeChunks fuel env k buf available sizeBytes written = Some r.
Proof.
  intros Hw Hp Hu HS fuel. induction fuel as [|fuel IH]; intros k buf written Hr Hf.
  - cbn [writeChunks]. destruct (written <? sizeBytes) eqn:E; [|eauto].
    apply Z.ltb_lt in E. lia.
  - cbn [writeChunks]. destruct (written <? sizeBytes) eqn:E; [|eauto].
    apply Z.ltb_lt in E. cbv zeta.
    pose proof (ll_chunk_request sizeBytes written ltac:(lia) ltac:(lia)) as Hn.
    cbv zeta in Hn. pose proof chunkSize_value as Hc.
    set (n := if wrap64 (sizeBytes - written) <? chunkSize
              then wrap64 (sizeBytes - written) else chunkSize) in *.
    assert (Hcap : n <= chunkSize).
    { unfold n. destruct (wrap64 (sizeBytes - written) <? chunkSize) eqn:E';
        [apply Z.ltb_lt in E'; lia | lia]. }
    assert (Hread : exists r, LowLevel.readUrandom (S fuel) (urandomEnv env k) k n buf
                              = Some r).
    { destruct (g_uopen env k) as [e|] eqn:Ho.
      - unfold LowLevel.readUrandom. cbn [LowLevel.u_open urandomEnv]. rewrite Ho. eauto.
      - apply readUrandom_complete; [exact Ho | | lia].
        destruct (Hu k) as [Hk|Hk]; [congruence | exact Hk]. }
    destruct Hread as [[[rerr buf'] tr] Hread]. rewrite Hread.
    destruct rerr; [eauto|].
    pose proof (Hw k n ltac:(lia)) as Hk. pose proof (Hp k n ltac:(lia)) as Hk'.
    destruct (g_write env k n) as [w werr]. destruct werr; [eauto|].
    rewrite (wrap64_small w) by (unfold is_u64; lia).
    rewrite wrap64_small by (unfold is_u64; lia).
    destruct (IH (S k) buf' (written + w)) as [[ex t] Hex]; [lia | lia |].
    rewrite Hex. cbn [emit]. eauto.
Qed.

(** X16: the raw-syscall [generateChaffFile] adds the count of every write
    to [written], so on every return the reported number of bytes is the
    number the writes stored and the reported free space is [available]
    minus it, also after a short write or an error; without error it has
    written the requested size capped at [available].  It returns as long
    as every write stores at least one byte and every read of /dev/urandom
    is complete. *)
Theorem lowlevel_generateChaffFile_accounting :
  forall (fuel : nat) (env : gen_env) (filename : string) (sizeMB available : Z),
    is_u64 available -> posix_count (g_write env) ->
    (forall r t,
        generateChaffFile fuel env filename sizeMB available = Some (r, t) ->
        bytes_committed t = bytesWritten r /\
        remainingSpace r = available - bytesWritten r /\
        (gen_err r = None ->
         bytesWritten r = Z.min (sizeBytes_of sizeMB) available)) /\
    (makes_progress (g_write env) ->
     (forall k, g_uopen env k <> None \/
                forall j len, g_uread env k j len = (len, None)) ->
     (Z.to_nat (effectiveSize sizeMB available) <= fuel)%nat ->
     exists r, generateChaffFile fuel env filename sizeMB available = Some r).
Proof.
  intros fuel env filename sizeMB available HA Hw.
  pose proof (effectiveSize_range sizeMB available HA) as Hrange.
  pose proof (effectiveSize_min sizeMB available) as Hmin.
  unfold is_u64 in HA. split.
  - intros r t. unfold generateChaffFile. cbv zeta.
    destruct (effectiveSize sizeMB available =? 0) eqn:E.
    { apply Z.eqb_eq in E. intros H. injection H as <- <-. cbn. lia. }
    destruct (g_open env) as [e|].
    { intros H. injection H as <- <-. cbn. split; [reflexivity|].
      split; [lia | discriminate]. }
    intros H. apply emit_some in H. destruct H as (t' & H & ->).
    destruct (writeChunks fuel env 0 (make_bytes chunkSize) available
                (effectiveSize sizeMB available) 0) as [[ex tw]|] eqn:Hloop;
      [|discriminate].
    apply (ll_writeChunks_accounting env available (effectiveSize sizeMB available)
             Hw ltac:(lia)) in Hloop; [|lia].
    destruct ex as [r'|w].
    + injection H as <- <-. destruct Hloop as (Hrem & Hb & Herr).
      cbn [app bytes_committed]. rewrite bytes_committed_app. cbn [bytes_committed].
      split; [lia|]. split; [exact Hrem|]. intros Hn. contradiction.
    + injection H as <- <-. destruct Hloop as (-> & Hb).
      cbn [app bytes_committed remainingSpace bytesWritten gen_err].
      rewrite bytes_committed_app. cbn [bytes_committed].
      rewrite wrap64_small by (unfold is_u64; lia).
      split; [lia|]. split; [reflexivity|]. intros _. exact Hmin.
  - intros Hp Hu Hf. unfold generateChaffFile. cbv zeta.
    destruct (effectiveSize sizeMB available =? 0); [eauto|].
    destruct (g_open env); [eauto|].
    destruct (ll_writeChunks_returns env available (effectiveSize sizeMB available)
                Hw Hp Hu ltac:(lia) fuel 0%nat (make_bytes chunkSize) 0
                ltac:(lia) ltac:(rewrite Z.sub_0_r; exact Hf)) as [[[r|w] t] Hloop];
      rewrite Hloop; cbn [emit]; eauto.
Qed.

Lemma lowlevel_generateChaffFile_accounting_witness :
  exists r t,
    generateChaffFile 3 lowlevel_gen_short_write (regularName 0) 1 3 = Some (r, t) /\
    bytes_committed t = bytesWritten r /\
    remainingSpace r = 3 - bytesWritten r /\
    bytesWritten r = 3.
Proof.
  do 2 eexists. split; [vm_compute; reflexivity|].
  pose proof (proj1 (lowlevel_generateChaffFile_accounting 3 lowlevel_gen_short_write
                       (regularName 0) 1 3
                       ltac:(unfold is_u64; lia)
                       ltac:(intros k len Hl; cbn; destruct (Nat.eqb k 0); lia))
                _ _ ltac:(vm_compute; reflexivity)) as (Hb & Hrem & Hsize).
  split; [exact Hb|]. split; [exact Hrem|]. reflexivity.
Defined.

End LowLevelGenerate.
